(** * The engine cache manager (engine/cache/manager.go)

    A shallow embedding of the distributed build-cache manager: its
    construction ([NewManager]), the export and import pipelines
    ([Export], [pushLayer], [Import], [descriptorProviderPair]), the
    shutdown protocol ([Close]) and the solver-facing operations
    ([Query], [Records], [Load], [Save]).

    External collaborators (the remote cache service, the worker, the
    solver's stores, the HTTP client) are an environment [Env] of
    functions that answer a call from the history of calls made so far.
    Every call the manager makes is recorded, in program order, in a
    trace of [Event]s.  Debug and error logging is not modelled. *)

From Stdlib Require Import ZArith Lia.
From stdpp Require Import base option list strings gmap pretty.

Set Warnings "-register-all,-clear-no-such-hyp".

Local Open Scope string_scope.
Local Open Scope list_scope.
Local Open Scope Z_scope.

(** ** Go values *)

(** A Go [error] value, identified with its message. *)
Definition error := string.

(** The pair [(T, error)] returned by a fallible call. *)
Inductive result (A : Type) : Type :=
| Ok (a : A)
| Err (e : error).
Arguments Ok {A} a.
Arguments Err {A} e.

(** [digest.Digest] is a string type; [String()] is the identity. *)
Definition Digest := string.

(** [time.Duration] is a signed 64-bit count of nanoseconds. *)
Definition Duration := Z.

(** [time.Time] as seconds and nanoseconds since January 1, year 1 UTC. *)
Record Time := { sec : Z; nsec : Z }.

(** [Time.IsZero]: the zero instant, January 1, year 1, 00:00:00 UTC. *)
Definition IsZero (t : Time) : bool := (sec t =? 0) && (nsec t =? 0).

(** [content.Provider]: either the manager's own [layerProvider], which
    reads blobs from the cache service, or a provider handed out by the
    worker with the remotes of a ref. *)
Inductive Provider :=
| layerProvider
| workerProvider (n : nat).

(** [ocispecs.Descriptor], with the fields the manager sets or reads. *)
Record Descriptor := {
  Descriptor_MediaType : string;
  Descriptor_Digest : Digest;
  Descriptor_Size : Z;
  Descriptor_Annotations : gmap string string
}.

(** [remotecache.LayerAnnotations] and [remotecache.CacheLayer]; the
    [Annotations] field of a layer is a pointer and may be nil. *)
Record LayerAnnotations := {
  LayerAnnotations_MediaType : string;
  LayerAnnotations_DiffID : Digest;
  LayerAnnotations_Size : Z;
  LayerAnnotations_CreatedAt : Time
}.

Record CacheLayer := {
  CacheLayer_Blob : Digest;
  CacheLayer_Annotations : option LayerAnnotations
}.

(** [remotecache.DescriptorProviderPair]; the provider is an interface
    value and may be nil. *)
Record DescriptorProviderPair := {
  Pair_Descriptor : Descriptor;
  Pair_Provider : option Provider
}.

(** ** The wire types of the cache service client *)

Record Result := {
  Result_ID : string;
  Result_CreatedAt : Time;
  Result_Description : string
}.

Record CacheKey := {
  CacheKey_ID : string;
  CacheKey_Results : list Result
}.

Record Link := {
  Link_ID : string;
  Link_LinkedID : string;
  Link_Input : Z;
  Link_Digest : Digest;
  Link_Selector : Digest
}.

(** The type [Record] of the client: a record the service asks for. *)
Record ExportRecord := {
  Record_CacheRefID : string;
  Record_Digest : Digest
}.

Record RecordLayers := {
  RecordLayers_RecordDigest : Digest;
  RecordLayers_Layers : list Descriptor
}.

Record GetConfigRequest := { GetConfigRequest_EngineID : string }.

Record Config := {
  ImportPeriod : Duration;
  ExportPeriod : Duration;
  ExportTimeout : Duration
}.

Record UpdateCacheRecordsRequest := {
  CacheKeys : list CacheKey;
  Links : list Link
}.

Record UpdateCacheRecordsResponse := { ExportRecords : list ExportRecord }.

Record UpdateCacheLayersRequest := { UpdatedRecords : list RecordLayers }.

Record GetLayerUploadURLRequest := { GetLayerUploadURLRequest_Digest : Digest }.

Record GetLayerUploadURLResponse := { URL : string }.

(** [remotecache.CacheConfig]: the advertised layers, and the records
    that only [remotecache.ParseConfig] reads. *)
Record CacheConfig := {
  Layers : list CacheLayer;
  Records_ : list string
}.

(** ** The solver, the worker and the HTTP client *)

(** [solver.CacheInfoLink] and [solver.CacheResult]. *)
Record CacheInfoLink := {
  CacheInfoLink_Input : Z;
  CacheInfoLink_Output : Z;
  CacheInfoLink_Digest : Digest;
  CacheInfoLink_Selector : Digest
}.

Record CacheResult := {
  CacheResult_ID : string;
  CacheResult_CreatedAt : Time
}.

(** [cache.ImmutableRef], with its getters [ID()] and
    [GetDescription()].  The [ImmutableRef] of a [worker.WorkerRef] is
    taken to be non-nil: the source dereferences it unconditionally. *)
Record ImmutableRef := {
  ImmutableRef_ID : string;
  ImmutableRef_GetDescription : string
}.

Record WorkerRef := { WorkerRef_ImmutableRef : ImmutableRef }.

(** A loaded [solver.Result].  [Sys()] returns a value of any dynamic
    type; [SolverResult_Sys] is the outcome of the type assertion
    [res.Sys().( *worker.WorkerRef)]: [None] when it fails. *)
Record SolverResult := {
  SolverResult_ID : string;
  SolverResult_Sys : option WorkerRef
}.

(** [solver.Remote]. *)
Record Remote := {
  Remote_Descriptors : list Descriptor;
  Remote_Provider : Provider
}.

(** A [solver.CacheKeyStorage] as the three walks see it during one
    export: what each walk visits, in order, and the error, if any, with
    which the store itself ends the walk after the last visit. *)
Record CacheKeyStorage := {
  KeyStore_Walk : list string * option error;
  KeyStore_WalkBacklinks : string -> list (string * CacheInfoLink) * option error;
  KeyStore_WalkResults : string -> list CacheResult * option error
}.

(** Handles of a [solver.CacheResultStorage] and of a [worker.Worker]. *)
Definition CacheResultStorage := string.
Definition Worker := string.

(** [remotecache.CacheChains], identified with the configuration and the
    descriptor map it was parsed from. *)
Record CacheChains := {
  CacheChains_config : CacheConfig;
  CacheChains_descProvider : gmap Digest DescriptorProviderPair
}.

(** A [solver.CacheManager] value, by the constructor that built it. *)
Inductive CacheManager :=
| NewCacheManager (id : string) (ks : CacheKeyStorage) (rs : CacheResultStorage)
| NewCombinedCacheManager (cms : list CacheManager) (main : CacheManager).

(** The arguments of the four solver-facing operations. *)
Record QueryArgs := {
  Query_inp : list string;
  Query_inputIndex : Z;
  Query_dgst : Digest;
  Query_outputIndex : Z
}.

Record SaveArgs := {
  Save_key : string;
  Save_s : SolverResult;
  Save_createdAt : Time
}.

(** The sized reader [content.ReaderAt] and the HTTP request built on it. *)
Record ReaderAt := { ReaderAt_Size : Z }.

Record Request := {
  Request_Method : string;
  Request_URL : string;
  Request_Body : Provider * Descriptor;
  Request_ContentLength : Z
}.

Record Response := { StatusCode : Z }.

Definition StatusOK : Z := 200.

(** The client of the cache service built by [newClient]. *)
Inductive Service := client (url : string).

(** ** Events and the environment *)

(** The goroutines [NewManager] starts. *)
Inductive Goroutine :=
| cancelImportOnClose
| importLoop (period : Duration)
| exportLoop (period timeout : Duration).

Inductive Event :=
| EvNewClient (url : string)
| EvGetConfig (req : GetConfigRequest)
| EvImportCache
| EvUpdateCacheRecords (req : UpdateCacheRecordsRequest)
| EvUpdateCacheLayers (req : UpdateCacheLayersRequest)
| EvGetLayerUploadURL (req : GetLayerUploadURLRequest)
| EvResultStoreLoad (cacheResult : CacheResult)
| EvResultRelease (res : SolverResult)
| EvWorkerGet (id : string)
| EvGetRemotes (cacheRef : ImmutableRef)
| EvRefRelease (cacheRef : ImmutableRef)
| EvReaderAt (provider : Provider) (desc : Descriptor)
| EvReaderClose (provider : Provider) (desc : Descriptor)
| EvHTTPDo (req : Request)
| EvBodyClose (req : Request)
| EvQuery (cm : CacheManager) (args : QueryArgs)
| EvRecords (cm : CacheManager) (ck : string)
| EvLoad (cm : CacheManager) (rec : string)
| EvSave (cm : CacheManager) (args : SaveArgs)
| EvStopCacheMountSync
| EvGo (g : Goroutine).

Definition Trace := list Event.

(** What the collaborators answer.  Every answer may depend on the
    calls made before it. *)
Record Env := {
  env_newClient : Trace -> string -> option error;
  env_GetConfig : Trace -> GetConfigRequest -> result Config;
  env_ImportCache : Trace -> result CacheConfig;
  env_UpdateCacheRecords :
    Trace -> UpdateCacheRecordsRequest -> result UpdateCacheRecordsResponse;
  env_UpdateCacheLayers : Trace -> UpdateCacheLayersRequest -> option error;
  env_GetLayerUploadURL :
    Trace -> GetLayerUploadURLRequest -> result GetLayerUploadURLResponse;
  env_ResultStoreLoad : Trace -> CacheResult -> result SolverResult;
  env_WorkerGet : Trace -> string -> result ImmutableRef;
  env_GetRemotes : Trace -> ImmutableRef -> result (list Remote);
  env_ReaderAt : Trace -> Provider -> Descriptor -> result ReaderAt;
  env_NewRequest : string -> string -> option error;
  env_HTTPDo : Trace -> Request -> result Response;
  env_MarshalText : Time -> result string;
  env_ParseConfig :
    CacheConfig -> gmap Digest DescriptorProviderPair -> option error;
  env_NewCacheKeyStorage :
    CacheChains -> Worker -> result (CacheKeyStorage * CacheResultStorage);
  env_Query : Trace -> CacheManager -> QueryArgs -> result (list string);
  env_Records : Trace -> CacheManager -> string -> result (list string);
  env_Load : Trace -> CacheManager -> string -> result SolverResult;
  env_Save : Trace -> CacheManager -> SaveArgs -> result string
}.

(** ** The manager *)

(** A Go channel that is only ever closed: open, or closed. *)
Inductive chan := chan_open | chan_closed.

Record ManagerConfig := {
  KeyStore : CacheKeyStorage;
  ResultStore : CacheResultStorage;
  Worker_ : Worker;
  ServiceURL : string;
  EngineID : string
}.

Record manager := {
  manager_ManagerConfig : ManagerConfig;
  cacheClient : option Service;
  layerProvider_ : option Provider;
  runtimeConfig : Config;
  localCache : CacheManager;
  inner : option CacheManager;
  startCloseCh : chan;
  doneCh : chan;
  stopCacheMountSync : option (Trace -> option error)
}.

(** ** A monad for Go calls: the manager behind the pointer [m], and
    the trace of calls *)

(** How a call ends: it returns, with a value or an error; it panics;
    or it blocks for ever. *)
Inductive outcome (A : Type) : Type :=
| Returned (r : result A)
| Panicked (msg : string)
| Blocked.
Arguments Returned {A} r.
Arguments Panicked {A} msg.
Arguments Blocked {A}.

Record State := { st_m : manager; st_trace : Trace }.

Definition M (A : Type) : Type := State -> outcome A * State.

Definition ret {A} (a : A) : M A := fun s => (Returned (Ok a), s).

Definition fail {A} (e : error) : M A := fun s => (Returned (Err e), s).

Definition panic {A} (msg : string) : M A := fun s => (Panicked msg, s).

Definition bind {A B} (c : M A) (k : A -> M B) : M B :=
  fun s => match c s with
           | (Returned (Ok a), s') => k a s'
           | (Returned (Err e), s') => (Returned (Err e), s')
           | (Panicked msg, s') => (Panicked msg, s')
           | (Blocked, s') => (Blocked, s')
           end.

#[global] Instance M_ret : MRet M := @ret.
#[global] Instance M_bind : MBind M := fun A B k c => bind c k.

(** Record an event. *)
Definition emit (ev : Event) : M unit :=
  fun s => (Returned (Ok tt),
            {| st_m := st_m s; st_trace := st_trace s ++ [ev] |}).

(** Make a call: the environment answers from the history, and the call
    is recorded.  The answer is a value, as Go returns an [error]. *)
Definition call {A} (answer : Trace -> A) (ev : Event) : M A :=
  fun s => (Returned (Ok (answer (st_trace s))),
            {| st_m := st_m s; st_trace := st_trace s ++ [ev] |}).

(** [if err != nil { return err }] after a call that returned [r]. *)
Definition or_return {A} (r : result A) : M A :=
  match r with Ok a => ret a | Err e => fail e end.

(** [defer cleanup] before [body]: [cleanup] runs when [body] returns or
    panics, and what [cleanup] itself returns is dropped. *)
Definition defer {A} (cleanup : M unit) (body : M A) : M A :=
  fun s => match body s with
           | (Blocked, s') => (Blocked, s')
           | (r, s') => (r, snd (cleanup s'))
           end.

Definition get_m : M manager := fun s => (Returned (Ok (st_m s)), s).

Definition set_m (m : manager) : M unit :=
  fun s => (Returned (Ok tt), {| st_m := m; st_trace := st_trace s |}).

(** A [for ... range] loop, or a store's walk over what it holds: the
    body updates the variables [S] it captures and stops the loop with
    the first error. *)
Fixpoint forEach {A S} (items : list A) (fn : A -> S -> M S) (s : S) : M S :=
  match items with
  | [] => mret s
  | x :: items' => s' ← fn x s; forEach items' fn s'
  end.

Definition walk {A S} (store : list A * option error)
    (fn : A -> S -> M S) (s : S) : M S :=
  s' ← forEach (fst store) fn s;
  match snd store with
  | Some err => fail err
  | None => mret s'
  end.

(** Assignments to the fields of [m]. *)
Definition with_cacheClient (c : option Service) (m : manager) : manager :=
  {| manager_ManagerConfig := manager_ManagerConfig m; cacheClient := c;
     layerProvider_ := layerProvider_ m; runtimeConfig := runtimeConfig m;
     localCache := localCache m; inner := inner m;
     startCloseCh := startCloseCh m; doneCh := doneCh m;
     stopCacheMountSync := stopCacheMountSync m |}.

Definition with_layerProvider (p : option Provider) (m : manager) : manager :=
  {| manager_ManagerConfig := manager_ManagerConfig m;
     cacheClient := cacheClient m;
     layerProvider_ := p; runtimeConfig := runtimeConfig m;
     localCache := localCache m; inner := inner m;
     startCloseCh := startCloseCh m; doneCh := doneCh m;
     stopCacheMountSync := stopCacheMountSync m |}.

Definition with_runtimeConfig (c : Config) (m : manager) : manager :=
  {| manager_ManagerConfig := manager_ManagerConfig m;
     cacheClient := cacheClient m;
     layerProvider_ := layerProvider_ m; runtimeConfig := c;
     localCache := localCache m; inner := inner m;
     startCloseCh := startCloseCh m; doneCh := doneCh m;
     stopCacheMountSync := stopCacheMountSync m |}.

Definition with_inner (cm : option CacheManager) (m : manager) : manager :=
  {| manager_ManagerConfig := manager_ManagerConfig m;
     cacheClient := cacheClient m;
     layerProvider_ := layerProvider_ m; runtimeConfig := runtimeConfig m;
     localCache := localCache m; inner := cm;
     startCloseCh := startCloseCh m; doneCh := doneCh m;
     stopCacheMountSync := stopCacheMountSync m |}.

Definition with_startCloseCh (c : chan) (m : manager) : manager :=
  {| manager_ManagerConfig := manager_ManagerConfig m;
     cacheClient := cacheClient m;
     layerProvider_ := layerProvider_ m; runtimeConfig := runtimeConfig m;
     localCache := localCache m; inner := inner m;
     startCloseCh := c; doneCh := doneCh m;
     stopCacheMountSync := stopCacheMountSync m |}.

Definition with_doneCh (c : chan) (m : manager) : manager :=
  {| manager_ManagerConfig := manager_ManagerConfig m;
     cacheClient := cacheClient m;
     layerProvider_ := layerProvider_ m; runtimeConfig := runtimeConfig m;
     localCache := localCache m; inner := inner m;
     startCloseCh := startCloseCh m; doneCh := c;
     stopCacheMountSync := stopCacheMountSync m |}.

(** ** The methods of the manager *)

Section Manager.

Variable env : Env.

(** *** Export *)

(** The closure passed to [WalkBacklinks]: one [Link] per backlink of
    [id], appended to the captured [links]. *)
Definition Export_backlink (id : string)
    (backlink : string * CacheInfoLink) (links : list Link)
  : M (list Link) :=
  let '(linkedID, linkInfo) := backlink in
  let link := {| Link_ID := id;
                 Link_LinkedID := linkedID;
                 Link_Input := CacheInfoLink_Input linkInfo;
                 Link_Digest := CacheInfoLink_Digest linkInfo;
                 Link_Selector := CacheInfoLink_Selector linkInfo |} in
  mret (links ++ [link]).

(** The closure passed to [WalkResults]: load the result, release it
    on return, and append it to the captured [cacheKey] when it is a
    worker ref. *)
Definition Export_result (id : string)
    (cacheResult : CacheResult) (cacheKey : CacheKey) : M CacheKey :=
  r ← call (fun tr => env_ResultStoreLoad env tr cacheResult)
           (EvResultStoreLoad cacheResult);
  match r with
  | Err _ =>
      (* the ref may be lazy or pruned, just skip it *)
      mret cacheKey
  | Ok res =>
      defer (emit (EvResultRelease res))
        match SolverResult_Sys res with
        | None => mret cacheKey
        | Some workerRef =>
            let cacheRef := WorkerRef_ImmutableRef workerRef in
            mret {| CacheKey_ID := CacheKey_ID cacheKey;
                    CacheKey_Results :=
                      CacheKey_Results cacheKey ++
                      [ {| Result_ID := ImmutableRef_ID cacheRef;
                           Result_CreatedAt := CacheResult_CreatedAt cacheResult;
                           Result_Description :=
                             ImmutableRef_GetDescription cacheRef |} ] |}
        end
  end.

(** The closure passed to [Walk], over the captured [cacheKeys] and
    [links]. *)
Definition Export_key (ks : CacheKeyStorage) (id : string)
    (acc : list CacheKey * list Link) : M (list CacheKey * list Link) :=
  let '(cacheKeys, links) := acc in
  let cacheKey := {| CacheKey_ID := id; CacheKey_Results := [] |} in
  links ← walk (KeyStore_WalkBacklinks ks id) (Export_backlink id) links;
  cacheKey ← walk (KeyStore_WalkResults ks id) (Export_result id) cacheKey;
  mret (cacheKeys ++ [cacheKey], links).

(** The walk of the local key store (lines 135-183). *)
Definition Export_walk : M (list CacheKey * list Link) :=
  m ← get_m;
  let ks := KeyStore (manager_ManagerConfig m) in
  walk (KeyStore_Walk ks) (Export_key ks) ([], []).

Definition pushLayer (layerDesc : Descriptor) (provider : Provider)
  : M unit :=
  let getURLReq :=
    {| GetLayerUploadURLRequest_Digest := Descriptor_Digest layerDesc |} in
  r ← call (fun tr => env_GetLayerUploadURL env tr getURLReq)
           (EvGetLayerUploadURL getURLReq);
  getURLResp ← or_return r;
  r ← call (fun tr => env_ReaderAt env tr provider layerDesc)
           (EvReaderAt provider layerDesc);
  readerAt ← or_return r;
  defer (emit (EvReaderClose provider layerDesc))
    match env_NewRequest env "PUT" (URL getURLResp) with
    | Some err => fail err
    | None =>
        (* req.Body wraps a plain reader: closing it does nothing *)
        let req := {| Request_Method := "PUT";
                      Request_URL := URL getURLResp;
                      Request_Body := (provider, layerDesc);
                      Request_ContentLength := ReaderAt_Size readerAt |} in
        r ← call (fun tr => env_HTTPDo env tr req) (EvHTTPDo req);
        resp ← or_return r;
        defer (emit (EvBodyClose req))
          (if decide (StatusCode resp ≠ StatusOK)
           then fail ("unexpected status code " +:+ pretty (StatusCode resp))
           else mret tt)
    end.

(** The loop over the layers of the chosen remote. *)
Definition pushLayers (layers : list Descriptor) (provider : Provider)
  : M unit :=
  forEach layers (fun layer _ => pushLayer layer provider) tt.

(** The closure run for every requested record, over the captured
    [updatedRecords] (lines 199-233). *)
Definition Export_record (record : ExportRecord)
    (updatedRecords : list RecordLayers) : M (list RecordLayers) :=
  r ← call (fun tr => env_WorkerGet env tr (Record_CacheRefID record))
           (EvWorkerGet (Record_CacheRefID record));
  match r with
  | Err _ =>
      (* the ref may be lazy or pruned, just skip it *)
      mret updatedRecords
  | Ok cacheRef =>
      defer (emit (EvRefRelease cacheRef))
        (r ← call (fun tr => env_GetRemotes env tr cacheRef)
                  (EvGetRemotes cacheRef);
         remotes ← or_return r;
         match remotes with
         | [] => mret updatedRecords
         | remote :: _ =>
             pushLayers (Remote_Descriptors remote) (Remote_Provider remote);;
             mret (updatedRecords ++
                   [ {| RecordLayers_RecordDigest := Record_Digest record;
                        RecordLayers_Layers := Remote_Descriptors remote |} ])
         end)
  end.

Definition Export : M unit :=
  '(cacheKeys, links) ← Export_walk;
  let req := {| CacheKeys := cacheKeys; Links := links |} in
  r ← call (fun tr => env_UpdateCacheRecords env tr req)
           (EvUpdateCacheRecords req);
  updateCacheRecordsResp ← or_return r;
  let recordsToExport := ExportRecords updateCacheRecordsResp in
  if decide (length recordsToExport = 0%nat) then mret tt
  else
    updatedRecords ← forEach recordsToExport Export_record [];
    let req := {| UpdatedRecords := updatedRecords |} in
    r ← call (fun tr => env_UpdateCacheLayers env tr req)
             (EvUpdateCacheLayers req);
    match r with
    | Some err => fail err
    | None => mret tt
    end.

(** *** Import *)

Definition descriptorProviderPair (m : manager) (layerMetadata : CacheLayer)
  : result DescriptorProviderPair :=
  match CacheLayer_Annotations layerMetadata with
  | None =>
      Err ("missing annotations for layer " +:+ CacheLayer_Blob layerMetadata)
  | Some layerAnnotations =>
      let annotations : gmap string string := ∅ in
      if decide (LayerAnnotations_DiffID layerAnnotations = "") then
        Err ("missing diffID for layer " +:+ CacheLayer_Blob layerMetadata)
      else
        let annotations :=
          <["containerd.io/uncompressed" :=
              LayerAnnotations_DiffID layerAnnotations]> annotations in
        let finish (annotations : gmap string string) :=
          let desc :=
            {| Descriptor_MediaType :=
                 LayerAnnotations_MediaType layerAnnotations;
               Descriptor_Digest := CacheLayer_Blob layerMetadata;
               Descriptor_Size := LayerAnnotations_Size layerAnnotations;
               Descriptor_Annotations := annotations |} in
          Ok {| Pair_Provider := layerProvider_ m;
                Pair_Descriptor := desc |} in
        if negb (IsZero (LayerAnnotations_CreatedAt layerAnnotations)) then
          match env_MarshalText env
                  (LayerAnnotations_CreatedAt layerAnnotations) with
          | Err err => Err err
          | Ok createdAt =>
              finish (<["buildkit/createdat" := createdAt]> annotations)
          end
        else finish annotations
  end.

(** [m.ID()]. *)
Definition ID (m : manager) : string := "enginecache".

(** The body of the loop over the advertised layers, over the
    captured [descProvider]. *)
Definition Import_layer (m : manager) (layer : CacheLayer)
    (descProvider : gmap Digest DescriptorProviderPair)
  : M (gmap Digest DescriptorProviderPair) :=
  providerPair ← or_return (descriptorProviderPair m layer);
  mret (<[CacheLayer_Blob layer := providerPair]> descProvider).

Definition Import : M unit :=
  r ← call (env_ImportCache env) EvImportCache;
  cacheConfig ← or_return r;
  m ← get_m;
  descProvider ← forEach (Layers cacheConfig) (Import_layer m) ∅;
  match env_ParseConfig env cacheConfig descProvider with
  | Some err => fail err
  | None =>
      let chain := {| CacheChains_config := cacheConfig;
                      CacheChains_descProvider := descProvider |} in
      stores ← or_return
        (env_NewCacheKeyStorage env chain (Worker_ (manager_ManagerConfig m)));
      let '(keyStore, resultStore) := stores in
      let importedCache := NewCacheManager (ID m) keyStore resultStore in
      let newInner :=
        NewCombinedCacheManager [importedCache] (localCache m) in
      (* m.mu.Lock(); defer m.mu.Unlock() *)
      m ← get_m;
      set_m (with_inner (Some newInner) m)
  end.

(** *** The solver-facing operations of [*manager] *)

Definition nil_dereference : string :=
  "invalid memory address or nil pointer dereference".

Definition Query (args : QueryArgs) : M (list string) :=
  (* m.mu.RLock(); defer m.mu.RUnlock() *)
  m ← get_m;
  match inner m with
  | None => panic nil_dereference
  | Some cm =>
      r ← call (fun tr => env_Query env tr cm args) (EvQuery cm args);
      or_return r
  end.

Definition Records (ck : string) : M (list string) :=
  (* m.mu.RLock(); defer m.mu.RUnlock() *)
  m ← get_m;
  match inner m with
  | None => panic nil_dereference
  | Some cm =>
      r ← call (fun tr => env_Records env tr cm ck) (EvRecords cm ck);
      or_return r
  end.

Definition Load (rec : string) : M SolverResult :=
  (* m.mu.RLock(); defer m.mu.RUnlock() *)
  m ← get_m;
  match inner m with
  | None => panic nil_dereference
  | Some cm =>
      r ← call (fun tr => env_Load env tr cm rec) (EvLoad cm rec);
      or_return r
  end.

Definition Save (args : SaveArgs) : M string :=
  (* m.mu.Lock(); defer m.mu.Unlock() *)
  m ← get_m;
  match inner m with
  | None => panic nil_dereference
  | Some cm =>
      r ← call (fun tr => env_Save env tr cm args) (EvSave cm args);
      or_return r
  end.

(** *** Close *)

(** What ends the wait of [Close]: the export loop closes [doneCh]
    (or has closed it), the context of the caller is done, or
    neither ever happens. *)
Inductive Wake := wake_doneCh | wake_ctxDone | wake_never.

(** [close(ch)]. *)
Definition close_startCloseCh : M unit :=
  m ← get_m;
  match startCloseCh m with
  | chan_closed => panic "close of closed channel"
  | chan_open => set_m (with_startCloseCh chan_closed m)
  end.

Definition Close (wake : Wake) : M (option error) :=
  close_startCloseCh;;
  m ← get_m;
  rerr ← match stopCacheMountSync m with
         | Some hook => call hook EvStopCacheMountSync
         | None => mret None
         end;
  m ← get_m;
  match doneCh m, wake with
  | chan_closed, _ => mret rerr
  | chan_open, wake_doneCh => set_m (with_doneCh chan_closed m);; mret rerr
  | chan_open, wake_ctxDone => mret rerr
  | chan_open, wake_never => fun s => (Blocked, s)
  end.

(** *** NewManager *)

(** The [Manager] returned by [NewManager]: a [defaultCacheManager]
    around a cache manager, or the pointer to the manager [m] of the
    state. *)
Inductive Manager :=
| defaultCacheManager (cm : CacheManager)
| ptr_manager.

Definition zeroConfig : Config :=
  {| ImportPeriod := 0; ExportPeriod := 0; ExportTimeout := 0 |}.

Definition NewManager_body (managerConfig : ManagerConfig) : M Manager :=
  m ← get_m;
  if decide (ServiceURL managerConfig = "") then
    mret (defaultCacheManager (localCache m))
  else
    r ← call (fun tr => env_newClient env tr (ServiceURL managerConfig))
             (EvNewClient (ServiceURL managerConfig));
    match r with
    | Some err => fail err
    | None =>
        let serviceClient := client (ServiceURL managerConfig) in
        m ← get_m;
        set_m (with_cacheClient (Some serviceClient) m);;
        m ← get_m;
        set_m (with_layerProvider (Some layerProvider) m);;
        m ← get_m;
        let req := {| GetConfigRequest_EngineID :=
                        EngineID (manager_ManagerConfig m) |} in
        r ← call (fun tr => env_GetConfig env tr req) (EvGetConfig req);
        config ← or_return r;
        if (ImportPeriod config =? 0) || (ExportPeriod config =? 0)
           || (ExportTimeout config =? 0)
        then fail "invalid cache config: import/export periods must be non-zero"
        else
          m ← get_m;
          set_m (with_runtimeConfig config m);;
          (* do an initial synchronous import at start *)
          Import;;
          (* loop for periodic async imports *)
          emit (EvGo cancelImportOnClose);;
          emit (EvGo (importLoop (ImportPeriod config)));;
          (* loop for periodic async exports *)
          emit (EvGo (exportLoop (ExportPeriod config) (ExportTimeout config)));;
          mret ptr_manager
    end.

Definition NewManager (managerConfig : ManagerConfig) (tr : Trace)
  : outcome Manager * State :=
  let localCache :=
    NewCacheManager "local" (KeyStore managerConfig)
                    (ResultStore managerConfig) in
  let m := {| manager_ManagerConfig := managerConfig;
              cacheClient := None;
              layerProvider_ := None;
              runtimeConfig := zeroConfig;
              localCache := localCache;
              inner := None;
              startCloseCh := chan_open;
              doneCh := chan_open;
              stopCacheMountSync := None |} in
  NewManager_body managerConfig {| st_m := m; st_trace := tr |}.

(** *** The methods of the interface [Manager] *)

Definition solver_Query (cm : CacheManager) (args : QueryArgs)
  : M (list string) :=
  r ← call (fun tr => env_Query env tr cm args) (EvQuery cm args);
  or_return r.

Definition solver_Records (cm : CacheManager) (ck : string)
  : M (list string) :=
  r ← call (fun tr => env_Records env tr cm ck) (EvRecords cm ck);
  or_return r.

Definition solver_Load (cm : CacheManager) (rec : string) : M SolverResult :=
  r ← call (fun tr => env_Load env tr cm rec) (EvLoad cm rec);
  or_return r.

Definition solver_Save (cm : CacheManager) (args : SaveArgs) : M string :=
  r ← call (fun tr => env_Save env tr cm args) (EvSave cm args);
  or_return r.

Definition Manager_Query (mgr : Manager) (args : QueryArgs)
  : M (list string) :=
  match mgr with
  | defaultCacheManager cm => solver_Query cm args
  | ptr_manager => Query args
  end.

Definition Manager_Records (mgr : Manager) (ck : string) : M (list string) :=
  match mgr with
  | defaultCacheManager cm => solver_Records cm ck
  | ptr_manager => Records ck
  end.

Definition Manager_Load (mgr : Manager) (rec : string) : M SolverResult :=
  match mgr with
  | defaultCacheManager cm => solver_Load cm rec
  | ptr_manager => Load rec
  end.

Definition Manager_Save (mgr : Manager) (args : SaveArgs) : M string :=
  match mgr with
  | defaultCacheManager cm => solver_Save cm args
  | ptr_manager => Save args
  end.

(** [defaultCacheManager.StartCacheMountSynchronization] and
    [defaultCacheManager.Close]. *)
Definition default_StartCacheMountSynchronization : M (option error) :=
  mret None.

Definition default_Close : M (option error) := mret None.

Definition Manager_Close (mgr : Manager) (wake : Wake) : M (option error) :=
  match mgr with
  | defaultCacheManager _ => default_Close
  | ptr_manager => Close wake
  end.

End Manager.

(** * Describing runs *)

(** The state after the calls [evs] have been made on top of [s]. *)
Definition after (s : State) (evs : list Event) : State :=
  {| st_m := st_m s; st_trace := st_trace s ++ evs |}.

(** Kinds of events. *)
Definition is_go (ev : Event) : bool :=
  match ev with EvGo _ => true | _ => false end.

(** A call to the cache service or a request of the HTTP client. *)
Definition is_remote (ev : Event) : bool :=
  match ev with
  | EvNewClient _ | EvGetConfig _ | EvImportCache | EvUpdateCacheRecords _
  | EvUpdateCacheLayers _ | EvGetLayerUploadURL _ | EvHTTPDo _ => true
  | _ => false
  end.

(** A step of the upload of a layer. *)
Definition is_upload (ev : Event) : bool :=
  match ev with
  | EvGetLayerUploadURL _ | EvReaderAt _ _ | EvReaderClose _ _
  | EvHTTPDo _ | EvBodyClose _ => true
  | _ => false
  end.

(** The requests of the calls to [UpdateCacheLayers] in a trace. *)
Definition UpdateCacheLayers_calls (evs : list Event)
  : list UpdateCacheLayersRequest :=
  omap (fun ev => match ev with
                  | EvUpdateCacheLayers req => Some req
                  | _ => None
                  end) evs.

(** The manager as [NewManager] first builds it. *)
Definition initial_manager (managerConfig : ManagerConfig) : manager :=
  {| manager_ManagerConfig := managerConfig;
     cacheClient := None;
     layerProvider_ := None;
     runtimeConfig := zeroConfig;
     localCache := NewCacheManager "local" (KeyStore managerConfig)
                                   (ResultStore managerConfig);
     inner := None;
     startCloseCh := chan_open;
     doneCh := chan_open;
     stopCacheMountSync := None |}.

(** The manager when [NewManager] calls the initial [Import]: the
    client, the layer provider and the configuration [config] of the
    service are set. *)
Definition configured_manager (managerConfig : ManagerConfig)
    (config : Config) : manager :=
  with_runtimeConfig config
    (with_layerProvider (Some layerProvider)
       (with_cacheClient (Some (client (ServiceURL managerConfig)))
          (initial_manager managerConfig))).

(** The two calls [NewManager] makes before the initial [Import]. *)
Definition NewManager_calls (managerConfig : ManagerConfig) : list Event :=
  [ EvNewClient (ServiceURL managerConfig);
    EvGetConfig {| GetConfigRequest_EngineID := EngineID managerConfig |} ].

(** The message of the configuration error of [NewManager]. *)
Definition periods_message : string :=
  "import/export periods must be non-zero".

(** The descriptor map the loop of [Import] builds from the advertised
    layers on top of [descProvider], or the error of the first layer
    that does not translate. *)
Fixpoint descProvider_of (env : Env) (m : manager) (layers : list CacheLayer)
    (descProvider : gmap Digest DescriptorProviderPair)
  : result (gmap Digest DescriptorProviderPair) :=
  match layers with
  | [] => Ok descProvider
  | layer :: layers' =>
      match descriptorProviderPair env m layer with
      | Ok providerPair =>
          descProvider_of env m layers'
            (<[CacheLayer_Blob layer := providerPair]> descProvider)
      | Err err => Err err
      end
  end.

(** The view a successful [Import] installs. *)
Definition imported_view (m : manager) (keyStore : CacheKeyStorage)
    (resultStore : CacheResultStorage) : CacheManager :=
  NewCombinedCacheManager
    [NewCacheManager "enginecache" keyStore resultStore] (localCache m).

(** ** What an export does, result by result and record by record *)

(** The [Link] of a backlink of the key [id]. *)
Definition Link_of (id : string) (backlink : string * CacheInfoLink) : Link :=
  {| Link_ID := id;
     Link_LinkedID := fst backlink;
     Link_Input := CacheInfoLink_Input (snd backlink);
     Link_Digest := CacheInfoLink_Digest (snd backlink);
     Link_Selector := CacheInfoLink_Selector (snd backlink) |}.

(** One link per backlink of every key, in the order of the walk. *)
Definition links_of (ks : CacheKeyStorage) (ids : list string) : list Link :=
  flat_map (fun id => map (Link_of id) (fst (KeyStore_WalkBacklinks ks id)))
           ids.

(** The [Result] of a stored result that loaded as the worker ref
    [workerRef]. *)
Definition Result_of (workerRef : WorkerRef) (cacheResult : CacheResult)
  : Result :=
  {| Result_ID := ImmutableRef_ID (WorkerRef_ImmutableRef workerRef);
     Result_CreatedAt := CacheResult_CreatedAt cacheResult;
     Result_Description :=
       ImmutableRef_GetDescription (WorkerRef_ImmutableRef workerRef) |}.


(** What became of a record the service asked for. *)
Inductive record_outcome :=
| skipped_not_found (err : error)
| skipped_no_remotes
| uploaded (layers : RecordLayers)
| failed (err : error).

Definition is_failed (o : record_outcome) : bool :=
  match o with failed _ => true | _ => false end.

Definition is_skipped (o : record_outcome) : bool :=
  match o with
  | skipped_not_found _ | skipped_no_remotes => true
  | _ => false
  end.

(** The entries for the records that were uploaded. *)
Definition reported (os : list record_outcome) : list RecordLayers :=
  omap (fun o => match o with uploaded layers => Some layers | _ => None end)
       os.

Section ExportRuns.

Variable env : Env.

(** The stored results [crs] of a key are visited from the state [s]:
    a result whose load fails is passed over; a result that loads is
    released at once, and yields a [Result] when it is a worker ref. *)
Inductive results_run
  : State -> list CacheResult -> list Result -> State -> Prop :=
| results_done s :
    results_run s [] [] s
| results_load_failed s cacheResult crs rs s' err :
    env_ResultStoreLoad env (st_trace s) cacheResult = Err err ->
    results_run (after s [EvResultStoreLoad cacheResult]) crs rs s' ->
    results_run s (cacheResult :: crs) rs s'
| results_not_worker_ref s cacheResult crs rs s' res :
    env_ResultStoreLoad env (st_trace s) cacheResult = Ok res ->
    SolverResult_Sys res = None ->
    results_run
      (after s [EvResultStoreLoad cacheResult; EvResultRelease res])
      crs rs s' ->
    results_run s (cacheResult :: crs) rs s'
| results_exported s cacheResult crs rs s' res workerRef :
    env_ResultStoreLoad env (st_trace s) cacheResult = Ok res ->
    SolverResult_Sys res = Some workerRef ->
    results_run
      (after s [EvResultStoreLoad cacheResult; EvResultRelease res])
      crs rs s' ->
    results_run s (cacheResult :: crs)
                (Result_of workerRef cacheResult :: rs) s'.

(** The keys [ids] of the store [ks] are visited from the state [s]:
    one [CacheKey] per key, with the results of its visit. *)
Inductive keys_run (ks : CacheKeyStorage)
  : State -> list string -> list CacheKey -> State -> Prop :=
| keys_done s :
    keys_run ks s [] [] s
| keys_next s id ids results cacheKeys s1 s2 :
    results_run s (fst (KeyStore_WalkResults ks id)) results s1 ->
    keys_run ks s1 ids cacheKeys s2 ->
    keys_run ks s (id :: ids)
             ({| CacheKey_ID := id; CacheKey_Results := results |}
                :: cacheKeys) s2.

(** Every layer of [layers] is pushed, one after the other, and every
    push returns nil. *)
Inductive layers_pushed (provider : Provider)
  : State -> list Descriptor -> State -> Prop :=
| pushed_done s :
    layers_pushed provider s [] s
| pushed_next s layer layers s1 s2 :
    pushLayer env layer provider s = (Returned (Ok tt), s1) ->
    layers_pushed provider s1 layers s2 ->
    layers_pushed provider s (layer :: layers) s2.

(** The push of some layer of [layers] returns the error [err], after
    the pushes of the layers before it returned nil. *)
Inductive layers_push_fails (provider : Provider)
  : State -> list Descriptor -> error -> State -> Prop :=
| push_fails_here s layer layers err s1 :
    pushLayer env layer provider s = (Returned (Err err), s1) ->
    layers_push_fails provider s (layer :: layers) err s1
| push_fails_later s layer layers err s1 s2 :
    pushLayer env layer provider s = (Returned (Ok tt), s1) ->
    layers_push_fails provider s1 layers err s2 ->
    layers_push_fails provider s (layer :: layers) err s2.

(** The record [record] is handled from the state [s]. *)
Inductive record_run
  : State -> ExportRecord -> record_outcome -> State -> Prop :=
| run_not_found s record err :
    env_WorkerGet env (st_trace s) (Record_CacheRefID record) = Err err ->
    record_run s record (skipped_not_found err)
      (after s [EvWorkerGet (Record_CacheRefID record)])
| run_no_remotes s record cacheRef :
    env_WorkerGet env (st_trace s) (Record_CacheRefID record) = Ok cacheRef ->
    env_GetRemotes env
      (st_trace s ++ [EvWorkerGet (Record_CacheRefID record)]) cacheRef
    = Ok [] ->
    record_run s record skipped_no_remotes
      (after s [EvWorkerGet (Record_CacheRefID record);
                EvGetRemotes cacheRef; EvRefRelease cacheRef])
| run_uploaded s record cacheRef remote remotes s' :
    env_WorkerGet env (st_trace s) (Record_CacheRefID record) = Ok cacheRef ->
    env_GetRemotes env
      (st_trace s ++ [EvWorkerGet (Record_CacheRefID record)]) cacheRef
    = Ok (remote :: remotes) ->
    layers_pushed (Remote_Provider remote)
      (after s [EvWorkerGet (Record_CacheRefID record);
                EvGetRemotes cacheRef])
      (Remote_Descriptors remote) s' ->
    record_run s record
      (uploaded {| RecordLayers_RecordDigest := Record_Digest record;
                   RecordLayers_Layers := Remote_Descriptors remote |})
      (after s' [EvRefRelease cacheRef])
| run_remotes_failed s record cacheRef err :
    env_WorkerGet env (st_trace s) (Record_CacheRefID record) = Ok cacheRef ->
    env_GetRemotes env
      (st_trace s ++ [EvWorkerGet (Record_CacheRefID record)]) cacheRef
    = Err err ->
    record_run s record (failed err)
      (after s [EvWorkerGet (Record_CacheRefID record);
                EvGetRemotes cacheRef; EvRefRelease cacheRef])
| run_upload_failed s record cacheRef remote remotes err s' :
    env_WorkerGet env (st_trace s) (Record_CacheRefID record) = Ok cacheRef ->
    env_GetRemotes env
      (st_trace s ++ [EvWorkerGet (Record_CacheRefID record)]) cacheRef
    = Ok (remote :: remotes) ->
    layers_push_fails (Remote_Provider remote)
      (after s [EvWorkerGet (Record_CacheRefID record);
                EvGetRemotes cacheRef])
      (Remote_Descriptors remote) err s' ->
    record_run s record (failed err) (after s' [EvRefRelease cacheRef]).

(** The records [records] are handled in order from the state [s],
    up to and including the first that fails. *)
Inductive records_run
  : State -> list ExportRecord -> list record_outcome -> State -> Prop :=
| records_done s :
    records_run s [] [] s
| records_next s record records o os s1 s2 :
    record_run s record o s1 ->
    is_failed o = false ->
    records_run s1 records os s2 ->
    records_run s (record :: records) (o :: os) s2
| records_stop s record records err s1 :
    record_run s record (failed err) s1 ->
    records_run s (record :: records) [failed err] s1.

End ExportRuns.

(** The error with which the handling of the records stopped, if any. *)
Definition failure_of (os : list record_outcome) : option error :=
  head (omap (fun o => match o with failed err => Some err | _ => None end)
             os).

(** An event of the walk of the local results. *)
Definition is_result_event (ev : Event) : bool :=
  match ev with
  | EvResultStoreLoad _ | EvResultRelease _ => true
  | _ => false
  end.

(** An event of the handling of a record: a call to the worker for its
    ref, or a step of the upload of a layer. *)
Definition is_record_event (ev : Event) : bool :=
  match ev with
  | EvWorkerGet _ | EvGetRemotes _ | EvRefRelease _ => true
  | _ => is_upload ev
  end.

(** What the closure of the loop over the records returns for each way
    a record can be handled, and what the loop returns, when
    [updatedRecords] held [acc] before. *)
Definition record_result (acc : list RecordLayers) (o : record_outcome)
  : result (list RecordLayers) :=
  match o with
  | failed err => Err err
  | uploaded layers => Ok (acc ++ [layers])
  | skipped_not_found _ | skipped_no_remotes => Ok acc
  end.

Definition records_result (acc : list RecordLayers)
    (os : list record_outcome) : result (list RecordLayers) :=
  match failure_of os with
  | Some err => Err err
  | None => Ok (acc ++ reported os)
  end.

(** The computation [c] changes nothing but the trace, to which it adds
    only events of the kind [P]. *)
Definition emits {A} (P : Event -> bool) (c : M A) : Prop :=
  forall s, exists evs,
    snd (c s) = after s evs /\ Forall (fun ev => P ev = true) evs.


(** * The view under the reader-writer lock

    The goroutines that touch [m.inner] and [m.mu], one step at a time:
    the end of [Import] (lines 305-308), the readers [Query], [Records]
    and [Load] (lines 328-344) and [Save] (lines 346-350). *)

(** The field [inner] while goroutines run.  The assignment of an
    interface value is not one indivisible write: between its beginning
    and its end the field holds a mixture of the old view and the new. *)
Inductive cell :=
| whole (view : CacheManager)
| torn (old new : CacheManager).

Inductive reader_op := op_Query | op_Records | op_Load.

(** Where a goroutine is. *)
Inductive pc :=
| idle
| Import_Lock (newInner : CacheManager)     (* at m.mu.Lock() *)
| Import_store (newInner : CacheManager)    (* at m.inner = newInner *)
| Import_storing (newInner : CacheManager)  (* in the middle of the store *)
| Import_Unlock                             (* at the deferred m.mu.Unlock() *)
| read_RLock (o : reader_op)                (* at m.mu.RLock() *)
| read_inner (o : reader_op)                (* at the read of m.inner *)
| read_call (o : reader_op) (seen : cell)   (* in m.inner.Query(...) *)
| read_RUnlock (o : reader_op) (seen : cell) (* at the deferred m.mu.RUnlock() *)
| Save_Lock                                 (* at m.mu.Lock() *)
| Save_inner                                (* at the read of m.inner *)
| Save_call (seen : cell)                   (* in m.inner.Save(...) *)
| Save_Unlock.                              (* at the deferred m.mu.Unlock() *)

(** The manager shared by the goroutines: the field [inner]; the lock
    [mu], as the goroutine that holds it for writing and the goroutines
    that hold it for reading; where every goroutine is; and the views
    that imports have built so far. *)
Record shared := {
  sh_inner : cell;
  sh_writer : option nat;
  sh_readers : gset nat;
  sh_pc : gmap nat pc;
  sh_produced : list CacheManager
}.

Definition pc_of (c : shared) (t : nat) : pc := default idle (sh_pc c !! t).

Definition goto (t : nat) (p : pc) (c : shared) : shared :=
  {| sh_inner := sh_inner c; sh_writer := sh_writer c;
     sh_readers := sh_readers c; sh_pc := <[t := p]> (sh_pc c);
     sh_produced := sh_produced c |}.

Definition set_writer (w : option nat) (c : shared) : shared :=
  {| sh_inner := sh_inner c; sh_writer := w;
     sh_readers := sh_readers c; sh_pc := sh_pc c;
     sh_produced := sh_produced c |}.

Definition set_readers (r : gset nat) (c : shared) : shared :=
  {| sh_inner := sh_inner c; sh_writer := sh_writer c;
     sh_readers := r; sh_pc := sh_pc c;
     sh_produced := sh_produced c |}.

Definition set_inner (i : cell) (c : shared) : shared :=
  {| sh_inner := i; sh_writer := sh_writer c;
     sh_readers := sh_readers c; sh_pc := sh_pc c;
     sh_produced := sh_produced c |}.

Definition produce (view : CacheManager) (c : shared) : shared :=
  {| sh_inner := sh_inner c; sh_writer := sh_writer c;
     sh_readers := sh_readers c; sh_pc := sh_pc c;
     sh_produced := view :: sh_produced c |}.

(** The field when a store of [new] begins. *)
Definition begin_store (i : cell) (new : CacheManager) : cell :=
  match i with
  | whole old => torn old new
  | torn _ old => torn old new
  end.

(** One step of the goroutine [t].  [Lock] waits until nobody holds the
    lock; [RLock] waits until nobody holds it for writing. *)
Inductive mu_step : shared -> nat -> shared -> Prop :=
| step_Import_built c t newInner :
    pc_of c t = idle ->
    mu_step c t (goto t (Import_Lock newInner) (produce newInner c))
| step_Import_Lock c t newInner :
    pc_of c t = Import_Lock newInner ->
    sh_writer c = None -> sh_readers c = ∅ ->
    mu_step c t (goto t (Import_store newInner) (set_writer (Some t) c))
| step_Import_store_begins c t newInner :
    pc_of c t = Import_store newInner ->
    mu_step c t (goto t (Import_storing newInner)
                   (set_inner (begin_store (sh_inner c) newInner) c))
| step_Import_store_ends c t newInner :
    pc_of c t = Import_storing newInner ->
    mu_step c t (goto t Import_Unlock (set_inner (whole newInner) c))
| step_Import_Unlock c t :
    pc_of c t = Import_Unlock ->
    mu_step c t (goto t idle (set_writer None c))
| step_read_called c t o :
    pc_of c t = idle ->
    mu_step c t (goto t (read_RLock o) c)
| step_read_RLock c t o :
    pc_of c t = read_RLock o ->
    sh_writer c = None ->
    mu_step c t (goto t (read_inner o) (set_readers ({[t]} ∪ sh_readers c) c))
| step_read_inner c t o :
    pc_of c t = read_inner o ->
    mu_step c t (goto t (read_call o (sh_inner c)) c)
| step_read_returns c t o seen :
    pc_of c t = read_call o seen ->
    mu_step c t (goto t (read_RUnlock o seen) c)
| step_read_RUnlock c t o seen :
    pc_of c t = read_RUnlock o seen ->
    mu_step c t (goto t idle (set_readers (sh_readers c ∖ {[t]}) c))
| step_Save_called c t :
    pc_of c t = idle ->
    mu_step c t (goto t Save_Lock c)
| step_Save_Lock c t :
    pc_of c t = Save_Lock ->
    sh_writer c = None -> sh_readers c = ∅ ->
    mu_step c t (goto t Save_inner (set_writer (Some t) c))
| step_Save_inner c t :
    pc_of c t = Save_inner ->
    mu_step c t (goto t (Save_call (sh_inner c)) c)
| step_Save_returns c t seen :
    pc_of c t = Save_call seen ->
    mu_step c t (goto t Save_Unlock c)
| step_Save_Unlock c t :
    pc_of c t = Save_Unlock ->
    mu_step c t (goto t idle (set_writer None c)).

(** Some goroutine takes a step. *)
Definition mu_steps (c c' : shared) : Prop := exists t, mu_step c t c'.

(** The manager when [NewManager] returns it: the view of the initial
    import is installed, nobody holds the lock, no operation is under
    way. *)
Definition mu_init (view : CacheManager) : shared :=
  {| sh_inner := whole view; sh_writer := None; sh_readers := ∅;
     sh_pc := ∅; sh_produced := [] |}.

(** The goroutine holds the lock for writing, or for reading. *)
Definition holds_write (p : pc) : bool :=
  match p with
  | Import_store _ | Import_storing _ | Import_Unlock
  | Save_inner | Save_call _ | Save_Unlock => true
  | _ => false
  end.

Definition holds_read (p : pc) : bool :=
  match p with
  | read_inner _ | read_call _ _ | read_RUnlock _ _ => true
  | _ => false
  end.

(** What the goroutine has read from [m.inner]. *)
Definition seen_of (p : pc) : option cell :=
  match p with
  | read_call _ seen | read_RUnlock _ seen | Save_call seen => Some seen
  | _ => None
  end.

(** The view the goroutine is about to install. *)
Definition building (p : pc) : option CacheManager :=
  match p with
  | Import_Lock v | Import_store v | Import_storing v => Some v
  | _ => None
  end.

Definition is_storing (p : pc) : bool :=
  match p with Import_storing _ => true | _ => false end.

(** What holds of the shared manager at every moment. *)
Record mu_inv (view0 : CacheManager) (c : shared) : Prop := {
  inv_writer : forall t, holds_write (pc_of c t) = true <-> sh_writer c = Some t;
  inv_readers : forall t, holds_read (pc_of c t) = true <-> t ∈ sh_readers c;
  inv_exclusive : sh_writer c <> None -> sh_readers c = ∅;
  inv_torn : forall old new,
    sh_inner c = torn old new -> exists t, is_storing (pc_of c t) = true;
  inv_seen : forall t seen,
    seen_of (pc_of c t) = Some seen ->
    seen = sh_inner c /\ exists view, seen = whole view;
  inv_whole : forall view,
    sh_inner c = whole view -> view ∈ view0 :: sh_produced c;
  inv_building : forall t view,
    building (pc_of c t) = Some view -> view ∈ sh_produced c
}.

(** * A concrete store, worker and service, for running the manager *)

Module Example.

Definition t0 : Time := {| sec := 0; nsec := 0 |}.
Definition t1 : Time := {| sec := 63800000000; nsec := 0 |}.

Definition ref1 : ImmutableRef :=
  {| ImmutableRef_ID := "ref1"; ImmutableRef_GetDescription := "step one" |}.
Definition ref2 : ImmutableRef :=
  {| ImmutableRef_ID := "ref2"; ImmutableRef_GetDescription := "step two" |}.

Definition cr1 : CacheResult :=
  {| CacheResult_ID := "r1"; CacheResult_CreatedAt := t1 |}.
Definition cr2 : CacheResult :=
  {| CacheResult_ID := "r2"; CacheResult_CreatedAt := t1 |}.

Definition info : CacheInfoLink :=
  {| CacheInfoLink_Input := 0; CacheInfoLink_Output := 0;
     CacheInfoLink_Digest := "sha256:op"; CacheInfoLink_Selector := "" |}.

(** Keys [k1] and [k2]; [k2] is linked from [k1]; each has one
    result. *)
Definition keyStore : CacheKeyStorage :=
  {| KeyStore_Walk := (["k1"; "k2"], None);
     KeyStore_WalkBacklinks := fun id =>
       if decide (id = "k2") then ([("k1", info)], None) else ([], None);
     KeyStore_WalkResults := fun id =>
       if decide (id = "k1") then ([cr1], None)
       else if decide (id = "k2") then ([cr2], None)
       else ([], None) |}.

Definition emptyStore : CacheKeyStorage :=
  {| KeyStore_Walk := ([], None);
     KeyStore_WalkBacklinks := fun _ => ([], None);
     KeyStore_WalkResults := fun _ => ([], None) |}.

Definition d1 : Descriptor :=
  {| Descriptor_MediaType := "application/vnd.oci.image.layer.v1.tar+zstd";
     Descriptor_Digest := "sha256:l1"; Descriptor_Size := 10;
     Descriptor_Annotations := ∅ |}.
Definition d2 : Descriptor :=
  {| Descriptor_MediaType := "application/vnd.oci.image.layer.v1.tar+zstd";
     Descriptor_Digest := "sha256:l2"; Descriptor_Size := 20;
     Descriptor_Annotations := ∅ |}.

Definition layer1 : CacheLayer :=
  {| CacheLayer_Blob := "sha256:l1";
     CacheLayer_Annotations :=
       Some {| LayerAnnotations_MediaType :=
                 "application/vnd.oci.image.layer.v1.tar+zstd";
               LayerAnnotations_DiffID := "sha256:diff1";
               LayerAnnotations_Size := 10;
               LayerAnnotations_CreatedAt := t1 |} |}.

Definition layer_no_diffID : CacheLayer :=
  {| CacheLayer_Blob := "sha256:l2";
     CacheLayer_Annotations :=
       Some {| LayerAnnotations_MediaType :=
                 "application/vnd.oci.image.layer.v1.tar+zstd";
               LayerAnnotations_DiffID := "";
               LayerAnnotations_Size := 20;
               LayerAnnotations_CreatedAt := t0 |} |}.

Definition layer_no_annotations : CacheLayer :=
  {| CacheLayer_Blob := "sha256:l3"; CacheLayer_Annotations := None |}.

(** The record [R1] names [ref1], which has one remote of two layers;
    [R2] names [ref2], which has no remotes; [R3] names a ref the
    worker does not have. *)
Definition R1 : ExportRecord :=
  {| Record_CacheRefID := "ref1"; Record_Digest := "sha256:rec1" |}.
Definition R2 : ExportRecord :=
  {| Record_CacheRefID := "ref2"; Record_Digest := "sha256:rec2" |}.
Definition R3 : ExportRecord :=
  {| Record_CacheRefID := "ref3"; Record_Digest := "sha256:rec3" |}.

(** An environment in which the service answers [config] and
    [imported], asks for [records], and the upload of a layer ends
    with the status [status] gives for its digest. *)
Definition env (config : Config) (imported : result CacheConfig)
    (records : list ExportRecord) (status : Digest -> Z) : Env :=
  {| env_newClient := fun _ _ => None;
     env_GetConfig := fun _ _ => Ok config;
     env_ImportCache := fun _ => imported;
     env_UpdateCacheRecords := fun _ _ => Ok {| ExportRecords := records |};
     env_UpdateCacheLayers := fun _ _ => None;
     env_GetLayerUploadURL := fun _ req =>
       Ok {| URL := "https://cache/" +:+ GetLayerUploadURLRequest_Digest req |};
     env_ResultStoreLoad := fun _ cacheResult =>
       if decide (CacheResult_ID cacheResult = "r1") then
         Ok {| SolverResult_ID := "r1";
               SolverResult_Sys := Some {| WorkerRef_ImmutableRef := ref1 |} |}
       else Err "not found";
     env_WorkerGet := fun _ id =>
       if decide (id = "ref1") then Ok ref1
       else if decide (id = "ref2") then Ok ref2
       else Err "not found";
     env_GetRemotes := fun _ cacheRef =>
       if decide (ImmutableRef_ID cacheRef = "ref1") then
         Ok [ {| Remote_Descriptors := [d1; d2];
                 Remote_Provider := workerProvider 0 |} ]
       else Ok [];
     env_ReaderAt := fun _ _ desc => Ok {| ReaderAt_Size := Descriptor_Size desc |};
     env_NewRequest := fun _ _ => None;
     env_HTTPDo := fun _ req =>
       Ok {| StatusCode := status (Descriptor_Digest (snd (Request_Body req))) |};
     env_MarshalText := fun t =>
       if decide (0 <= sec t < 315537897600) then Ok "2022-09-27T00:00:00Z"
       else Err "Time.MarshalText: year outside of range [0,9999]";
     env_ParseConfig := fun _ _ => None;
     env_NewCacheKeyStorage := fun _ _ => Ok (emptyStore, "imported");
     env_Query := fun _ _ _ => Ok ["k1"];
     env_Records := fun _ _ _ => Ok [];
     env_Load := fun _ _ _ => Err "not found";
     env_Save := fun _ _ args => Ok (Save_key args) |}.

Definition config : Config :=
  {| ImportPeriod := 60; ExportPeriod := 120; ExportTimeout := 30 |}.

Definition imported : CacheConfig :=
  {| Layers := [layer1]; Records_ := [] |}.

Definition managerConfig (url : string) : ManagerConfig :=
  {| KeyStore := keyStore; ResultStore := "results"; Worker_ := "worker";
     ServiceURL := url; EngineID := "engine-1" |}.

Definition all_ok (_ : Digest) : Z := 200.

(** The manager that [NewManager] builds for a service URL. *)
Definition m : manager :=
  st_m (snd (NewManager (env config (Ok imported) [] all_ok)
                        (managerConfig "https://cache") [])).

Definition s0 : State := {| st_m := m; st_trace := [] |}.

(** The service asks for [R1], [R2] and [R3], and every upload ends
    with 200. *)
Definition env_ok : Env := env config (Ok imported) [R1; R2; R3] all_ok.

(** The service asks for [R2] and [R3] only. *)
Definition env_skipped : Env := env config (Ok imported) [R2; R3] all_ok.

(** The upload of the second layer of [R1] ends with 500. *)
Definition env_upload_fails : Env :=
  env config (Ok imported) [R1; R2; R3]
      (fun dgst => if decide (dgst = "sha256:l2") then 500 else 200).

(** The import of the cache fails. *)
Definition env_import_fails : Env :=
  env config (Err "import failed") [] all_ok.

(** The service answers a configuration with a zero export period. *)
Definition config_zero : Config :=
  {| ImportPeriod := 60; ExportPeriod := 0; ExportTimeout := 30 |}.

Definition env_zero : Env := env config_zero (Ok imported) [] all_ok.

(** What the walk of [keyStore] returns, and the calls it makes. *)
Definition res1 : SolverResult :=
  {| SolverResult_ID := "r1";
     SolverResult_Sys := Some {| WorkerRef_ImmutableRef := ref1 |} |}.

Definition walked_keys : list CacheKey :=
  [ {| CacheKey_ID := "k1";
       CacheKey_Results :=
         [ {| Result_ID := "ref1"; Result_CreatedAt := t1;
              Result_Description := "step one" |} ] |};
    {| CacheKey_ID := "k2"; CacheKey_Results := [] |} ].

Definition walked_links : list Link :=
  [ {| Link_ID := "k2"; Link_LinkedID := "k1"; Link_Input := 0;
       Link_Digest := "sha256:op"; Link_Selector := "" |} ].

Definition s1 : State :=
  after s0 [ EvResultStoreLoad cr1; EvResultRelease res1;
             EvResultStoreLoad cr2 ].

Definition announce : UpdateCacheRecordsRequest :=
  {| CacheKeys := walked_keys; Links := walked_links |}.

Definition s2 : State := after s1 [EvUpdateCacheRecords announce].

(** The handling of [R2] and [R3]. *)
Definition s3 : State :=
  after s2 [ EvWorkerGet "ref2"; EvGetRemotes ref2; EvRefRelease ref2;
             EvWorkerGet "ref3" ].

(** A reader that holds the read lock and is using the view it read. *)
Definition view0 : CacheManager := localCache m.

Definition waiting : shared := goto 1 (read_RLock op_Query) (mu_init view0).

Definition locked : shared :=
  goto 1 (read_inner op_Query)
    (set_readers ({[1%nat]} ∪ sh_readers waiting) waiting).

Definition reading : shared :=
  goto 1 (read_call op_Query (sh_inner locked)) locked.

End Example.

(** * The goroutines and the callers of the manager *)

(** The computation [c] returns, changes nothing but the trace, and
    adds to the trace only events of the kind [P]. *)
Definition returns {A} (P : Event -> bool) (c : M A) : Prop :=
  forall s, exists r evs,
    c s = (Returned r, after s evs) /\ Forall (fun ev => P ev = true) evs.

(** An event of an export: of the walk of the local results, of the
    handling of a record, or one of the two calls to the service. *)
Definition is_export_event (ev : Event) : bool :=
  match ev with
  | EvUpdateCacheRecords _ | EvUpdateCacheLayers _ => true
  | _ => is_result_event ev || is_record_event ev
  end.

(** [if err := c; err != nil { log }]: the error of [c] is logged and
    dropped, and the caller goes on. *)
Definition logged {A} (c : M A) : M unit :=
  fun s => match c s with
           | (Returned _, s') => (Returned (Ok tt), s')
           | (Panicked msg, s') => (Panicked msg, s')
           | (Blocked, s') => (Blocked, s')
           end.

(** The arm a [select] over a timer and [startCloseCh] ends with. *)
Inductive Fired := fired_timer | fired_startCloseCh.

(** [select { case <-time.After(period): case <-m.startCloseCh: }].
    While [startCloseCh] is open only the timer can fire; once it is
    closed either arm may be taken, and [race] is the one that is. *)
Definition select_fired (race : Fired) : M Fired :=
  m ← get_m;
  match startCloseCh m with
  | chan_open => mret fired_timer
  | chan_closed => mret race
  end.

(** [close(m.doneCh)]. *)
Definition close_doneCh : M unit :=
  m ← get_m;
  match doneCh m with
  | chan_closed => panic "close of closed channel"
  | chan_open => set_m (with_doneCh chan_closed m)
  end.

(** A goroutine that is parked at its [select]. *)
Definition parked {A} : M A := fun s => (Blocked, s).

Section Goroutines.

Variable env : Env.

(** The loop for periodic imports (lines 94-107), for the arms [races]
    of its successive selects; when [races] is used up the goroutine is
    parked at its select. *)
Fixpoint import_loop (races : list Fired) : M unit :=
  match races with
  | [] => parked
  | race :: races' =>
      fired ← select_fired race;
      match fired with
      | fired_startCloseCh => mret tt
      | fired_timer =>
          logged (Import env);;
          import_loop races'
      end
  end.

(** The loop for periodic exports (lines 113-128). *)
Fixpoint export_loop_for (races : list Fired) : M unit :=
  match races with
  | [] => parked
  | race :: races' =>
      fired ← select_fired race;
      let shutdown :=
        match fired with
        | fired_startCloseCh => true (* always run a final export before shutdown *)
        | fired_timer => false
        end in
      logged (Export env);;
      if shutdown then mret tt else export_loop_for races'
  end.

(** The goroutine of the periodic exports (lines 110-129). *)
Definition export_loop (races : list Fired) : M unit :=
  defer close_doneCh (export_loop_for races).




End Goroutines.

(** A view is installed, over the local cache of the manager. *)
Definition serving (m : manager) : Prop :=
  exists keyStore resultStore,
    inner m = Some (imported_view m keyStore resultStore).

(** The states [n] exports one after the other lead to. *)
Fixpoint exports (env : Env) (n : nat) (s : State) : State :=
  match n with
  | O => s
  | S n' => exports env n' (snd (Export env s))
  end.

(** The states [n] imports one after the other lead to. *)
Fixpoint imports (env : Env) (n : nat) (s : State) : State :=
  match n with
  | O => s
  | S n' => imports env n' (snd (Import env s))
  end.

(** The state in which [doneCh] is closed. *)
Definition done (s : State) : State :=
  {| st_m := with_doneCh chan_closed (st_m s); st_trace := st_trace s |}.

(** * The request router (package router)

    The router holds the schemas that have been added to it, by name,
    and the schema and the handler compiled from all of them. *)

Module router.

(** The GraphQL side of the package: the executable schemas, the
    compiled [graphql.Schema], the functions [Merge] and [compile] of
    the package, its [rootSchema], and the order in which a [range]
    visits the entries of a Go map, which is some order of its
    entries. *)
Class Graphql := {
  ExecutableSchema : Type;
  Schema : Type;
  Merge : list ExecutableSchema -> result ExecutableSchema;
  compile : ExecutableSchema -> result Schema;
  rootSchema : ExecutableSchema;
  range : gmap string ExecutableSchema -> list (string * ExecutableSchema);
  range_entries : forall m, range m ≡ₚ map_to_list m
}.

Section WithGraphql.

Context {G : Graphql}.

(** [handler.Handler], by the configuration [handler.New] is given. *)
Record Handler := {
  Handler_Schema : Schema;
  Handler_Pretty : bool;
  Handler_Playground : bool
}.

(** The fields [schemas], [s] and [h] of a [Router]; the lock [l]
    is held for the whole of [Add] and [Get]. *)
Record Router := {
  Router_schemas : gmap string ExecutableSchema;
  Router_s : option Schema;
  Router_h : option Handler
}.

Definition Add (r : Router) (name : string) (schema : ExecutableSchema)
  : option error * Router :=
  (* Copy the current schemas and append new schemas *)
  let newSchemas := (range (Router_schemas r)).*2 in
  let newSchemas := newSchemas ++ [schema] in
  match Merge newSchemas with
  | Err err => (Some err, r)
  | Ok merged =>
      match compile merged with
      | Err err => (Some err, r)
      | Ok s =>
          (* Atomic swap *)
          (None,
           {| Router_schemas := <[name := schema]> (Router_schemas r);
              Router_s := Some s;
              Router_h := Some {| Handler_Schema := s;
                                  Handler_Pretty := true;
                                  Handler_Playground := true |} |})
      end
  end.

(** [New] panics with the error of the first [Add]. *)
Definition New : outcome Router :=
  let r := {| Router_schemas := ∅; Router_s := None; Router_h := None |} in
  match Add r "root" rootSchema with
  | (Some err, _) => Panicked err
  | (None, r) => Returned (Ok r)
  end.

(** [Get]: the schema added under [name], or nil. *)
Definition Get (r : Router) (name : string) : option ExecutableSchema :=
  Router_schemas r !! name.

(** Adds made one after the other, those that fail being passed
    over. *)
Definition Add_all (r : Router)
    (adds : list (string * ExecutableSchema)) : Router :=
  foldl (fun r add => snd (Add r (fst add) (snd add))) r adds.

End WithGraphql.

(** [singleConnListener]: a listener that hands out the connection it
    was made with. *)
Record singleConnListener (Conn : Type) := { conn : option Conn }.
Arguments conn {Conn} _.

(** [io.ErrClosedPipe]. *)
Definition ErrClosedPipe : error := "io: read/write on closed pipe".

Definition Accept {Conn} (l : singleConnListener Conn)
  : result Conn * singleConnListener Conn :=
  match conn l with
  | None => (Err ErrClosedPipe, l)
  | Some c => (Ok c, {| conn := None |})
  end.

(** [Addr] returns nil, and so does [Close]. *)
Definition Addr {Conn} (l : singleConnListener Conn) : option string := None.

Definition Close {Conn} (l : singleConnListener Conn) : option error := None.

(** What [n] calls of [Accept], one after the other, return. *)
Fixpoint Accepts {Conn} (n : nat) (l : singleConnListener Conn)
  : list (result Conn) :=
  match n with
  | O => []
  | S n' => fst (Accept l) :: Accepts n' (snd (Accept l))
  end.

End router.

(** * The project configuration (package config) *)

Module config.

Record Action := {
  Action_Local : string;
  Action_Image : string;
  Action_Context : string;
  Action_schema : string;
  Action_operations : string
}.

(** The type [Config] of the package.  The map [Actions] holds
    pointers: [None] is a nil [*Action].  A nil map of actions is an
    empty map. *)
Record Config := {
  Config_Path : string;
  Config_Actions : gmap string (option Action);
  Config_Context : string
}.

Definition GetSchema (a : Action) : string := Action_schema a.

Definition GetOperations (a : Action) : string := Action_operations a.

(** What [ParseFile] uses of the system and of the libraries: the
    reading of a file, the decoding and encoding of YAML, and
    [filepath.Join] and [filepath.Dir]; and the order in which a
    [range] visits the entries of a map of actions. *)
Class System := {
  ReadFile : string -> result string;
  Unmarshal : string -> result Config;
  Marshal : Config -> result string;
  Join : string -> string -> string;
  Dir : string -> string;
  range : gmap string (option Action) -> list (string * option Action);
  range_entries : forall m, range m ≡ₚ map_to_list m
}.

Section WithSystem.

Context {sys : System}.

(** [&Action{}]. *)
Definition emptyAction : Action :=
  {| Action_Local := ""; Action_Image := ""; Action_Context := "";
     Action_schema := ""; Action_operations := "" |}.

(** The body of the loop of [ParseFile] over the actions, on one
    action. *)
Definition ParseFile_action (f : string) (cfgContext : string) (action : Action)
  : Action :=
  if decide (Action_Local action ≠ "") then
    let context :=
      if decide (Action_Context action = "") then cfgContext
      else Action_Context action in
    let context := Join (Dir f) context in
    {| Action_Local := Join cfgContext (Action_Local action);
       Action_Image := Action_Image action;
       Action_Context := context;
       Action_schema := Action_schema action;
       Action_operations := Action_operations action |}
  else action.

(** The loop of [ParseFile], over the entries in the order of the
    [range].  The actions of a decoded file are distinct objects, one
    for each name, so that a write through the pointer of an entry
    changes the action under its name and no other; reading a field
    of a nil action panics. *)
Fixpoint ParseFile_loop (f : string) (cfgContext : string)
    (entries : list (string * option Action))
    (actions : gmap string (option Action))
  : outcome (gmap string (option Action)) :=
  match entries with
  | [] => Returned (Ok actions)
  | (_, None) :: _ => Panicked nil_dereference
  | (name, Some action) :: entries =>
      ParseFile_loop f cfgContext entries
        (<[name := Some (ParseFile_action f cfgContext action)]> actions)
  end.

(** The text that [ParseFile] prints of an encoded configuration, by
    the format "Loading:\n%s\n". *)
Definition newline : string := String (Ascii.ascii_of_nat 10) "".

Definition Loading (loaded : string) : string :=
  "Loading:" +:+ newline +:+ loaded +:+ newline.

(** [ParseFile]: what it returns, and the lines it writes to the
    standard error. *)
Definition ParseFile (f : string) : outcome Config * list string :=
  match ReadFile f with
  | Err err => (Returned (Err err), [])
  | Ok data =>
      match Unmarshal data with
      | Err err => (Returned (Err err), [])
      | Ok cfg =>
          match ParseFile_loop f (Config_Context cfg)
                  (range (Config_Actions cfg)) (Config_Actions cfg) with
          | Returned (Ok actions) =>
              (* implicitly include core in every import *)
              let actions := <["core" := Some emptyAction]> actions in
              let cfg := {| Config_Path := Config_Path cfg;
                            Config_Actions := actions;
                            Config_Context := Config_Context cfg |} in
              match Marshal cfg with
              | Err err => (Returned (Err err), [])
              | Ok loaded => (Returned (Ok cfg), [Loading loaded])
              end
          | Returned (Err err) => (Returned (Err err), [])
          | Panicked msg => (Panicked msg, [])
          | Blocked => (Blocked, [])
          end
      end
  end.

(** The loop of [LocalDirs]. *)
Fixpoint LocalDirs_loop (entries : list (string * option Action))
    (localDirs : gmap string string) : outcome (gmap string string) :=
  match entries with
  | [] => Returned (Ok localDirs)
  | (_, None) :: _ => Panicked nil_dereference
  | (_, Some action) :: entries =>
      if decide (Action_Local action = "") then
        LocalDirs_loop entries localDirs
      else
        LocalDirs_loop entries
          (<[Action_Context action := Action_Context action]> localDirs)
  end.

Definition LocalDirs (c : Config) : outcome (gmap string string) :=
  LocalDirs_loop (range (Config_Actions c)) ∅.

(** A map of actions has a nil action. *)
Definition has_nil (actions : gmap string (option Action)) : bool :=
  bool_decide (map_Exists (fun _ action => action = None) actions).

(** The configuration that [ParseFile] makes of a decoded one that has
    no nil action. *)
Definition parsed_config (f : string) (parsed : Config) : Config :=
  {| Config_Path := Config_Path parsed;
     Config_Actions :=
       <["core" := Some emptyAction]>
         (fmap (M:=option) (ParseFile_action f (Config_Context parsed))
          <$> Config_Actions parsed);
     Config_Context := Config_Context parsed |}.

End WithSystem.

(** [dagger.FSID]. *)
Definition FSID := string.

(** What [LoadExtensions] uses of the engine: [dagger.Client], which
    gives a client or an error, the three queries the package sends
    through the client, and [path.Join]:
    - [Dockerbuild context dockerfile] is the query [Dockerfile], which
      answers the id of the filesystem built from the Dockerfile;
    - [LoadExtension fs name] is the query [LoadExtension], which
      answers the schema and the operations of the extension;
    - [CoreExtension] is the query for the extension "core".
    [finished] is the order in which the goroutines of the group run to
    their end, which is some order of the entries they were started
    for. *)
Class Dagger := {
  Client : option error;
  Dockerbuild : FSID -> string -> result FSID;
  LoadExtension : FSID -> string -> result (string * string);
  CoreExtension : result (string * string);
  path_Join : string -> string -> string;
  finished : gmap string (option Action) -> list (string * option Action);
  finished_entries : forall m, finished m ≡ₚ map_to_list m
}.

Section WithDagger.

Context {dag : Dagger}.

Definition importFS (name : string) (fs : FSID) : result (string * string) :=
  match Client with
  | Some err => Err err
  | None => LoadExtension fs name
  end.

Definition importLocal (name : string) (cwd : FSID) (dockerfile : string)
  : result (string * string) :=
  match Client with
  | Some err => Err err
  | None =>
      match Dockerbuild cwd dockerfile with
      | Err err => Err err
      | Ok id => importFS name id
      end
  end.

Definition importCore : result (string * string) :=
  match Client with
  | Some err => Err err
  | None => CoreExtension
  end.

(** [action.schema = schema; action.operations = operations]. *)
Definition with_extension (imported : string * string) (action : Action)
  : Action :=
  {| Action_Local := Action_Local action;
     Action_Image := Action_Image action;
     Action_Context := Action_Context action;
     Action_schema := fst imported;
     Action_operations := snd imported |}.

(** [fmt.Errorf("error importing %s: %w", name, err)]. *)
Definition error_importing (name : string) (err : error) : error :=
  "error importing " +:+ name +:+ ": " +:+ err.

(** The function that [LoadExtensions] hands to the group for the entry
    [name], [action]: the action it leaves, or the error it returns.
    A missing key of [localDirs] reads as the empty [FSID]; a field of
    a nil action cannot be read or written. *)
Definition LoadExtensions_go (localDirs : gmap string FSID) (name : string)
    (action : option Action) : outcome (option Action) :=
  if decide (name = "core") then
    match importCore with
    | Err err => Returned (Err (error_importing name err))
    | Ok imported =>
        match action with
        | None => Panicked nil_dereference
        | Some action => Returned (Ok (Some (with_extension imported action)))
        end
    end
  else
    match action with
    | None => Panicked nil_dereference
    | Some action =>
        if decide (Action_Local action ≠ "") then
          let dockerfile := path_Join (Action_Local action) "Dockerfile" in
          match importLocal name
                  (default "" (localDirs !! Action_Context action))
                  dockerfile with
          | Err err => Returned (Err (error_importing name err))
          | Ok imported =>
              Returned (Ok (Some (with_extension imported action)))
          end
        else Returned (Ok (Some action))
    end.

(** The group, by the order in which its goroutines end.  A goroutine
    reads the map [localDirs], which nothing writes, and reads and
    writes its own action only, the actions being distinct objects, one
    for each name; so the goroutines do not interfere, and only their
    order decides which error is the first.  The group has no context
    and no limit: an error stops no other goroutine, and [Wait] returns
    the first error once all of them have ended.  A panic of a
    goroutine ends the program. *)
Fixpoint LoadExtensions_Wait (localDirs : gmap string FSID)
    (entries : list (string * option Action))
    (actions : gmap string (option Action)) (first : option error)
  : outcome unit * gmap string (option Action) :=
  match entries with
  | [] =>
      (match first with
       | Some err => Returned (Err err)
       | None => Returned (Ok tt)
       end, actions)
  | (name, action) :: entries =>
      match LoadExtensions_go localDirs name action with
      | Returned (Ok action') =>
          LoadExtensions_Wait localDirs entries (<[name := action']> actions)
            first
      | Returned (Err err) =>
          LoadExtensions_Wait localDirs entries actions
            (match first with
             | Some _ => first
             | None => Some err
             end)
      | Panicked msg => (Panicked msg, actions)
      | Blocked => (Blocked, actions)
      end
  end.

(** [LoadExtensions]: what it returns, and the configuration it
    leaves. *)
Definition LoadExtensions (c : Config) (localDirs : gmap string FSID)
  : outcome unit * Config :=
  let (r, actions) :=
    LoadExtensions_Wait localDirs (finished (Config_Actions c))
      (Config_Actions c) None in
  (r, {| Config_Path := Config_Path c;
         Config_Actions := actions;
         Config_Context := Config_Context c |}).

(** The import that [LoadExtensions] makes for an entry, if any. *)
Definition import_of (localDirs : gmap string FSID) (name : string)
    (action : option Action) : option (result (string * string)) :=
  if decide (name = "core") then Some importCore
  else
    match action with
    | None => None
    | Some action =>
        if decide (Action_Local action = "") then None
        else Some (importLocal name
                     (default "" (localDirs !! Action_Context action))
                     (path_Join (Action_Local action) "Dockerfile"))
    end.

(** The entry is one whose goroutine panics: a nil action, unless it is
    the one of "core" and the import of the core fails. *)
Definition panicking (localDirs : gmap string FSID) (name : string)
    (action : option Action) : bool :=
  match action, import_of localDirs name action with
  | Some _, _ => false
  | None, Some (Err _) => false
  | None, _ => true
  end.

(** What [LoadExtensions] leaves of an action. *)
Definition loaded (localDirs : gmap string FSID) (name : string)
    (action : option Action) : option Action :=
  match import_of localDirs name action with
  | Some (Ok imported) => with_extension imported <$> action
  | _ => action
  end.

End WithDagger.

End config.

(** * More concrete stores, services and packages *)

Module MoreExamples.

Definition set_GetRemotes
    (answer : Trace -> ImmutableRef -> result (list Remote)) (e : Env) : Env :=
  {| env_newClient := env_newClient e;
     env_GetConfig := env_GetConfig e;
     env_ImportCache := env_ImportCache e;
     env_UpdateCacheRecords := env_UpdateCacheRecords e;
     env_UpdateCacheLayers := env_UpdateCacheLayers e;
     env_GetLayerUploadURL := env_GetLayerUploadURL e;
     env_ResultStoreLoad := env_ResultStoreLoad e;
     env_WorkerGet := env_WorkerGet e;
     env_GetRemotes := answer;
     env_ReaderAt := env_ReaderAt e;
     env_NewRequest := env_NewRequest e;
     env_HTTPDo := env_HTTPDo e;
     env_MarshalText := env_MarshalText e;
     env_ParseConfig := env_ParseConfig e;
     env_NewCacheKeyStorage := env_NewCacheKeyStorage e;
     env_Query := env_Query e;
     env_Records := env_Records e;
     env_Load := env_Load e;
     env_Save := env_Save e |}.

Definition set_service
    (newClient : Trace -> string -> option error)
    (getConfig : Trace -> GetConfigRequest -> result Config)
    (updateCacheRecords :
       Trace -> UpdateCacheRecordsRequest -> result UpdateCacheRecordsResponse)
    (updateCacheLayers : Trace -> UpdateCacheLayersRequest -> option error)
    (e : Env) : Env :=
  {| env_newClient := newClient;
     env_GetConfig := getConfig;
     env_ImportCache := env_ImportCache e;
     env_UpdateCacheRecords := updateCacheRecords;
     env_UpdateCacheLayers := updateCacheLayers;
     env_GetLayerUploadURL := env_GetLayerUploadURL e;
     env_ResultStoreLoad := env_ResultStoreLoad e;
     env_WorkerGet := env_WorkerGet e;
     env_GetRemotes := env_GetRemotes e;
     env_ReaderAt := env_ReaderAt e;
     env_NewRequest := env_NewRequest e;
     env_HTTPDo := env_HTTPDo e;
     env_MarshalText := env_MarshalText e;
     env_ParseConfig := env_ParseConfig e;
     env_NewCacheKeyStorage := env_NewCacheKeyStorage e;
     env_Query := env_Query e;
     env_Records := env_Records e;
     env_Load := env_Load e;
     env_Save := env_Save e |}.

(** The ref [ref1] has two remotes. *)
Definition remoteA : Remote :=
  {| Remote_Descriptors := [Example.d1]; Remote_Provider := workerProvider 0 |}.
Definition remoteB : Remote :=
  {| Remote_Descriptors := [Example.d2]; Remote_Provider := workerProvider 1 |}.

Definition env_two_remotes : Env :=
  set_GetRemotes (fun _ _ => Ok [remoteA; remoteB]) Example.env_ok.

(** The service refuses the announcement; the service refuses the
    commit; no client can be made for the URL. *)
Definition env_announce_fails : Env :=
  set_service (env_newClient Example.env_ok) (env_GetConfig Example.env_ok)
    (fun _ _ => Err "unavailable") (env_UpdateCacheLayers Example.env_ok)
    Example.env_ok.

Definition env_commit_fails : Env :=
  set_service (env_newClient Example.env_ok) (env_GetConfig Example.env_ok)
    (env_UpdateCacheRecords Example.env_ok) (fun _ _ => Some "unavailable")
    Example.env_ok.

Definition env_no_client : Env :=
  set_service (fun _ _ => Some "invalid URL") (env_GetConfig Example.env_ok)
    (env_UpdateCacheRecords Example.env_ok)
    (env_UpdateCacheLayers Example.env_ok) Example.env_ok.

(** A key store that fails to walk the backlinks of [k2], and one that
    ends the walk of its keys with an error. *)
Definition store_backlinks_fail : CacheKeyStorage :=
  {| KeyStore_Walk := (["k1"; "k2"; "k3"], None);
     KeyStore_WalkBacklinks := fun id =>
       if decide (id = "k2") then ([], Some "backlinks: i/o error")
       else ([], None);
     KeyStore_WalkResults := fun id =>
       if decide (id = "k1") then ([Example.cr1], None) else ([], None) |}.

Definition store_walk_fails : CacheKeyStorage :=
  {| KeyStore_Walk := (["k1"], Some "walk: i/o error");
     KeyStore_WalkBacklinks := fun _ => ([], None);
     KeyStore_WalkResults := fun id =>
       if decide (id = "k1") then ([Example.cr1], None) else ([], None) |}.

(** The manager of the example over another key store. *)
Definition on_store (ks : CacheKeyStorage) : State :=
  {| st_m :=
       st_m (snd (NewManager Example.env_ok
                    {| KeyStore := ks; ResultStore := "results";
                       Worker_ := "worker"; ServiceURL := "https://cache";
                       EngineID := "engine-1" |} []));
     st_trace := [] |}.

(** The manager of the example once [Close] has been called. *)
Definition closing : State := snd (Close wake_ctxDone Example.s0).

(** A GraphQL side in which a schema is the text of its type
    definitions: schemas merge by concatenation unless one is empty,
    and a merged schema compiles unless it is longer than 40
    characters. *)
Definition graphql : router.Graphql :=
  {| router.ExecutableSchema := string;
     router.Schema := string;
     router.Merge := fun schemas =>
       if decide ("" ∈ schemas) then Err "empty schema"
       else Ok (foldr String.append "" schemas);
     router.compile := fun merged =>
       if decide (String.length merged <= 40)%nat then Ok merged
       else Err "schema too large";
     router.rootSchema := "type Query";
     router.range := map_to_list;
     router.range_entries := fun m => reflexivity (map_to_list m) |}.

Definition root_router : @router.Router graphql :=
  {| router.Router_schemas := {["root" := "type Query"]};
     router.Router_s := Some ("type Query" : @router.Schema graphql);
     router.Router_h :=
       Some {| router.Handler_Schema := "type Query" : @router.Schema graphql;
               router.Handler_Pretty := true;
               router.Handler_Playground := true |} |}.

(** A project file [project/cloak.yaml] that declares a local action,
    an image and an action "core". *)
Definition declared : config.Config :=
  {| config.Config_Path := "";
     config.Config_Actions :=
       {[ "build" := Some {| config.Action_Local := "app";
                        config.Action_Image := "";
                        config.Action_Context := "";
                        config.Action_schema := "";
                        config.Action_operations := "" |};
          "alpine" := Some {| config.Action_Local := "";
                         config.Action_Image := "alpine:3";
                         config.Action_Context := "";
                         config.Action_schema := "";
                         config.Action_operations := "" |};
          "core" := Some {| config.Action_Local := "mycore";
                       config.Action_Image := "";
                       config.Action_Context := "";
                       config.Action_schema := "";
                       config.Action_operations := "" |} ]};
     config.Config_Context := "src" |}.

(** The same file with nothing under "core". *)
Definition declared_nil : config.Config :=
  {| config.Config_Path := "";
     config.Config_Actions :=
       <["core" := None]> (config.Config_Actions declared);
     config.Config_Context := "src" |}.

(** A system that holds this one file, decoded as [decoded]; [Join]
    puts a separator between two elements. *)
Definition system_of (decoded : config.Config) : config.System :=
  {| config.ReadFile := fun f =>
       if decide (f = "project/cloak.yaml") then Ok "actions: ..."
       else Err "no such file or directory";
     config.Unmarshal := fun data =>
       if decide (data = "actions: ...") then Ok decoded
       else Err "yaml: unmarshal errors";
     config.Marshal := fun _ => Ok "actions: ...";
     config.Join := fun a b => a +:+ "/" +:+ b;
     config.Dir := fun f =>
       if decide (f = "project/cloak.yaml") then "project" else ".";
     config.range := map_to_list;
     config.range_entries := fun m => reflexivity (map_to_list m) |}.

Definition system : config.System := system_of declared.

Definition system_nil : config.System := system_of declared_nil.

(** An engine that builds the context "project/src" of the example,
    and knows the extensions "core" and "build". *)
Definition dagger : config.Dagger :=
  {| config.Client := None;
     config.Dockerbuild := fun context dockerfile =>
       if decide (context = "fs:project/src") then Ok "fs:built"
       else Err "no such filesystem";
     config.LoadExtension := fun fs name =>
       if decide (fs = "fs:built") then Ok ("type Build", "query build")
       else Err "no extension";
     config.CoreExtension := Ok ("type Core", "query core");
     config.path_Join := fun a b => a +:+ "/" +:+ b;
     config.finished := map_to_list;
     config.finished_entries := fun m => reflexivity (map_to_list m) |}.

(** The filesystems of the local directories; and none. *)
Definition fsids : gmap string config.FSID :=
  {["project/src" := "fs:project/src"]}.

End MoreExamples.

(** * Properties of the manager *)

(** ** Reasoning about runs *)

Lemma bind_run {A B} (c : M A) (k : A -> M B) (s : State) :
  (c ≫= k) s =
  match c s with
  | (Returned (Ok a), s') => k a s'
  | (Returned (Err e), s') => (Returned (Err e), s')
  | (Panicked msg, s') => (Panicked msg, s')
  | (Blocked, s') => (Blocked, s')
  end.
Proof. reflexivity. Qed.

Lemma bind_Ok {A B} (c : M A) (k : A -> M B) (s s' : State) (a : A) :
  c s = (Returned (Ok a), s') -> (c ≫= k) s = k a s'.
Proof. intros H. rewrite bind_run, H. reflexivity. Qed.

Lemma bind_Err {A B} (c : M A) (k : A -> M B) (s s' : State) (e : error) :
  c s = (Returned (Err e), s') -> (c ≫= k) s = (Returned (Err e), s').
Proof. intros H. rewrite bind_run, H. reflexivity. Qed.

(** ** descriptorProviderPair *)

Section DescriptorProviderPair.

Variable env : Env.
Variable m : manager.

(** C5.  The translation of an advertised layer fails when its
    [Annotations] are nil and when its [DiffID] is empty.  A
    descriptor that is produced carries [containerd.io/uncompressed]
    equal to the [DiffID]; it carries [buildkit/createdat], the
    serialized timestamp, exactly when [CreatedAt] is non-zero; its
    [MediaType] and [Size] are those of the annotations and its
    [Digest] is the [Blob] of the layer.  A descriptor is produced
    whenever the annotations are present, the [DiffID] is non-empty
    and a non-zero timestamp can be serialized. *)
Theorem descriptorProviderPair_spec (layerMetadata : CacheLayer) :
  (CacheLayer_Annotations layerMetadata = None ->
     descriptorProviderPair env m layerMetadata =
     Err ("missing annotations for layer " +:+ CacheLayer_Blob layerMetadata))
  /\ (forall a, CacheLayer_Annotations layerMetadata = Some a ->
        LayerAnnotations_DiffID a = "" ->
        descriptorProviderPair env m layerMetadata =
        Err ("missing diffID for layer " +:+ CacheLayer_Blob layerMetadata))
  /\ (forall pair,
        descriptorProviderPair env m layerMetadata = Ok pair ->
        exists a,
          let desc := Pair_Descriptor pair in
          CacheLayer_Annotations layerMetadata = Some a
          /\ LayerAnnotations_DiffID a <> ""
          /\ Descriptor_Annotations desc !! "containerd.io/uncompressed"
             = Some (LayerAnnotations_DiffID a)
          /\ (is_Some (Descriptor_Annotations desc !! "buildkit/createdat")
              <-> IsZero (LayerAnnotations_CreatedAt a) = false)
          /\ (forall createdAt,
                Descriptor_Annotations desc !! "buildkit/createdat"
                = Some createdAt ->
                env_MarshalText env (LayerAnnotations_CreatedAt a)
                = Ok createdAt)
          /\ Descriptor_MediaType desc = LayerAnnotations_MediaType a
          /\ Descriptor_Size desc = LayerAnnotations_Size a
          /\ Descriptor_Digest desc = CacheLayer_Blob layerMetadata)
  /\ (forall a, CacheLayer_Annotations layerMetadata = Some a ->
        LayerAnnotations_DiffID a <> "" ->
        (IsZero (LayerAnnotations_CreatedAt a) = false ->
         exists createdAt,
           env_MarshalText env (LayerAnnotations_CreatedAt a) = Ok createdAt) ->
        exists pair, descriptorProviderPair env m layerMetadata = Ok pair).
Proof.
  unfold descriptorProviderPair.
  destruct (CacheLayer_Annotations layerMetadata) as [a|] eqn:Hann.
  2:{ repeat split; intros; congruence. }
  destruct (decide (LayerAnnotations_DiffID a = "")) as [Hd|Hd].
  { repeat split; intros; simplify_eq; done. }
  destruct (IsZero (LayerAnnotations_CreatedAt a)) eqn:Hz; simpl.
  - split; [done|]. split; [intros; simplify_eq; done|]. split.
    + intros pair [= <-]. exists a; simpl.
      rewrite lookup_insert_eq, lookup_insert_ne, lookup_empty by done.
      repeat split; try done; congruence.
    + intros ? [= <-] _ _. eauto.
  - split; [done|]. split; [intros; simplify_eq; done|]. split.
    + destruct (env_MarshalText env (LayerAnnotations_CreatedAt a))
        as [txt|err] eqn:Hm; [|done].
      intros pair [= <-]. exists a; simpl.
      rewrite lookup_insert_eq, lookup_insert_ne, lookup_insert_eq by done.
      repeat split; try done; eauto.
      intros ? [= <-]. done.
    + intros ? [= <-] _ Hser. destruct (Hser Hz) as [txt ->]. eauto.
Qed.

End DescriptorProviderPair.

(** ** NewManager *)

Ltac run :=
  cbv [mbind M_bind mret M_ret bind ret fail panic call emit or_return
       get_m set_m defer after] in *; simpl in *.

Lemma or_return_run {A} (r : result A) (s : State) :
  or_return r s = (Returned r, s).
Proof. destruct r; reflexivity. Qed.

Section NewManager.

Variable env : Env.
Variable managerConfig : ManagerConfig.
Variable tr : Trace.

Let url := ServiceURL managerConfig.
Let getConfigReq :=
  {| GetConfigRequest_EngineID := EngineID managerConfig |}.
Let local :=
  NewCacheManager "local" (KeyStore managerConfig) (ResultStore managerConfig).

(** [NewManager] up to the initial [Import], for a service that
    answers a configuration without a zero. *)
Lemma NewManager_reaches_Import (config : Config) :
  url <> "" ->
  env_newClient env tr url = None ->
  env_GetConfig env (tr ++ [EvNewClient url]) getConfigReq = Ok config ->
  ImportPeriod config <> 0 ->
  ExportPeriod config <> 0 ->
  ExportTimeout config <> 0 ->
  NewManager env managerConfig tr =
  match Import env {| st_m := configured_manager managerConfig config;
                      st_trace := tr ++ NewManager_calls managerConfig |} with
  | (Returned (Ok _), s') =>
      (Returned (Ok ptr_manager),
       after s' [ EvGo cancelImportOnClose;
                  EvGo (importLoop (ImportPeriod config));
                  EvGo (exportLoop (ExportPeriod config)
                                   (ExportTimeout config)) ])
  | (Returned (Err e), s') => (Returned (Err e), s')
  | (Panicked msg, s') => (Panicked msg, s')
  | (Blocked, s') => (Blocked, s')
  end.
Proof.
  intros Hurl Hclient Hconfig Hi He Ht.
  unfold NewManager, NewManager_body. subst url getConfigReq.
  run. destruct (decide (ServiceURL managerConfig = "")) as [|_]; [done|].
  simpl. rewrite Hclient. simpl. rewrite Hconfig. simpl.
  apply Z.eqb_neq in Hi, He, Ht. rewrite Hi, He, Ht. simpl.
  unfold NewManager_calls, configured_manager, initial_manager.
  rewrite <- app_assoc. simpl.
  match goal with |- context [Import env ?s] => destruct (Import env s) as [[[[]|e]|msg|] s'] end;
    try reflexivity.
  simpl. rewrite <- !app_assoc. reflexivity.
Qed.

End NewManager.

(** ** Import *)

Section ImportSteps.

Variable env : Env.

Lemma forEach_Import_layer (m : manager) (layers : list CacheLayer)
    (descProvider : gmap Digest DescriptorProviderPair) (s : State) :
  forEach layers (Import_layer env m) descProvider s =
  (Returned (descProvider_of env m layers descProvider), s).
Proof.
  revert descProvider. induction layers as [|layer layers IH];
    intros descProvider; simpl; [reflexivity|].
  rewrite bind_run. unfold Import_layer at 1. rewrite bind_run.
  rewrite or_return_run.
  destruct (descriptorProviderPair env m layer); [|reflexivity].
  apply IH.
Qed.

(** [Import], step by step. *)
Lemma Import_run (s : State) :
  Import env s =
  let m := st_m s in
  let s1 := after s [EvImportCache] in
  match env_ImportCache env (st_trace s) with
  | Err e => (Returned (Err e), s1)
  | Ok cacheConfig =>
      match descProvider_of env m (Layers cacheConfig) ∅ with
      | Err e => (Returned (Err e), s1)
      | Ok descProvider =>
          match env_ParseConfig env cacheConfig descProvider with
          | Some e => (Returned (Err e), s1)
          | None =>
              let chain := {| CacheChains_config := cacheConfig;
                              CacheChains_descProvider := descProvider |} in
              match env_NewCacheKeyStorage env chain
                      (Worker_ (manager_ManagerConfig m)) with
              | Err e => (Returned (Err e), s1)
              | Ok (keyStore, resultStore) =>
                  (Returned (Ok tt),
                   {| st_m := with_inner
                                (Some (imported_view m keyStore resultStore)) m;
                      st_trace := st_trace s1 |})
              end
          end
      end
  end.
Proof.
  unfold Import. rewrite bind_run. unfold call at 1.
  rewrite bind_run, or_return_run.
  destruct (env_ImportCache env (st_trace s)) as [cacheConfig|e];
    [|reflexivity].
  rewrite bind_run. unfold get_m at 1.
  rewrite bind_run, forEach_Import_layer. simpl.
  destruct (descProvider_of env (st_m s) (Layers cacheConfig) ∅)
    as [descProvider|e]; [|reflexivity].
  destruct (env_ParseConfig env cacheConfig descProvider); [reflexivity|].
  rewrite bind_run, or_return_run.
  destruct (env_NewCacheKeyStorage env _ _) as [[keyStore resultStore]|e];
    reflexivity.
Qed.

(** A layer that does not translate, after layers that do, is the
    error of the whole loop. *)
Lemma descProvider_of_error (m : manager) (before after_ : list CacheLayer)
    (layer : CacheLayer) (e : error)
    (descProvider : gmap Digest DescriptorProviderPair) :
  Forall (fun l => exists pair, descriptorProviderPair env m l = Ok pair)
         before ->
  descriptorProviderPair env m layer = Err e ->
  descProvider_of env m (before ++ layer :: after_) descProvider = Err e.
Proof.
  intros Hbefore Hlayer. revert descProvider.
  induction Hbefore as [|l before [pair Hl] _ IH]; intros descProvider; simpl.
  - rewrite Hlayer. reflexivity.
  - rewrite Hl. apply IH.
Qed.

(** The loop fails only on a layer that does not translate. *)
Lemma descProvider_of_Err_inv (m : manager) (layers : list CacheLayer)
    (e : error) (descProvider : gmap Digest DescriptorProviderPair) :
  descProvider_of env m layers descProvider = Err e ->
  exists layer, layer ∈ layers /\ descriptorProviderPair env m layer = Err e.
Proof.
  revert descProvider.
  induction layers as [|l layers IH]; intros descProvider; simpl; [done|].
  destruct (descriptorProviderPair env m l) as [pair|e'] eqn:Hl.
  - intros H. destruct (IH _ H) as (layer & Hin & Hlayer).
    exists layer. split; [apply elem_of_cons; by right|done].
  - intros [= ->]. exists l. split; [apply elem_of_cons; by left|done].
Qed.

End ImportSteps.

Section ImportClaims.

Variable env : Env.

(** C2.  [Import] always returns.  When a step fails (the
    [ImportCache] call, the translation of an advertised layer, the
    parsing of the configuration, the construction of the storage),
    it returns the error of that step and the manager, hence the view
    [inner] that [Query], [Records], [Load] and [Save] read, is as it
    was; the view is replaced only when every step succeeds. *)
Theorem Import_error_keeps_view (s : State) :
  exists r s',
    Import env s = (Returned r, s')
    /\ (forall e, r = Err e ->
          st_m s' = st_m s /\ inner (st_m s') = inner (st_m s))
    /\ (inner (st_m s') <> inner (st_m s) -> r = Ok tt)
    /\ (r = Ok tt ->
        exists cacheConfig descProvider keyStore resultStore,
          env_ImportCache env (st_trace s) = Ok cacheConfig
          /\ descProvider_of env (st_m s) (Layers cacheConfig) ∅
             = Ok descProvider
          /\ env_ParseConfig env cacheConfig descProvider = None
          /\ env_NewCacheKeyStorage env
               {| CacheChains_config := cacheConfig;
                  CacheChains_descProvider := descProvider |}
               (Worker_ (manager_ManagerConfig (st_m s)))
             = Ok (keyStore, resultStore)
          /\ inner (st_m s')
             = Some (imported_view (st_m s) keyStore resultStore))
    /\ (forall e, env_ImportCache env (st_trace s) = Err e -> r = Err e)
    /\ (forall cacheConfig before layer after_ e,
          env_ImportCache env (st_trace s) = Ok cacheConfig ->
          Layers cacheConfig = before ++ layer :: after_ ->
          Forall (fun l => exists pair,
                    descriptorProviderPair env (st_m s) l = Ok pair) before ->
          descriptorProviderPair env (st_m s) layer = Err e ->
          r = Err e)
    /\ (forall cacheConfig descProvider e,
          env_ImportCache env (st_trace s) = Ok cacheConfig ->
          descProvider_of env (st_m s) (Layers cacheConfig) ∅
          = Ok descProvider ->
          env_ParseConfig env cacheConfig descProvider = Some e ->
          r = Err e)
    /\ (forall cacheConfig descProvider e,
          env_ImportCache env (st_trace s) = Ok cacheConfig ->
          descProvider_of env (st_m s) (Layers cacheConfig) ∅
          = Ok descProvider ->
          env_ParseConfig env cacheConfig descProvider = None ->
          env_NewCacheKeyStorage env
            {| CacheChains_config := cacheConfig;
               CacheChains_descProvider := descProvider |}
            (Worker_ (manager_ManagerConfig (st_m s)))
          = Err e ->
          r = Err e).
Proof.
  assert (Hlayers : forall cacheConfig before layer after_ e r,
    descProvider_of env (st_m s) (Layers cacheConfig) ∅ = r ->
    Layers cacheConfig = before ++ layer :: after_ ->
    Forall (fun l => exists pair,
              descriptorProviderPair env (st_m s) l = Ok pair) before ->
    descriptorProviderPair env (st_m s) layer = Err e ->
    r = Err e).
  { intros ? ? ? ? ? ? <- -> ? ?. by apply descProvider_of_error. }
  rewrite Import_run. cbv zeta.
  destruct (env_ImportCache env (st_trace s)) as [cacheConfig|e0] eqn:Himp.
  2:{ eexists _, _. split; [reflexivity|]. simpl.
      repeat split; intros; simplify_eq; done. }
  destruct (descProvider_of env (st_m s) (Layers cacheConfig) ∅)
    as [descProvider|e0] eqn:Hdesc.
  2:{ eexists _, _. split; [reflexivity|]. simpl.
      repeat split; intros; simplify_eq; try done; try congruence.
      eapply Hlayers in Hdesc; eauto. congruence. }
  destruct (env_ParseConfig env cacheConfig descProvider) as [e0|] eqn:Hparse.
  { eexists _, _. split; [reflexivity|]. simpl.
    repeat split; intros; simplify_eq; try done; try congruence.
    exfalso. eapply Hlayers in Hdesc; eauto. done. }
  destruct (env_NewCacheKeyStorage env _ _) as [[keyStore resultStore]|e0]
    eqn:Hstore.
  2:{ eexists _, _. split; [reflexivity|]. simpl.
      repeat split; intros; simplify_eq; try done; try congruence.
      exfalso. eapply Hlayers in Hdesc; eauto. done. }
  eexists _, _. split; [reflexivity|]. simpl.
  split; [done|]. split; [done|]. split.
  { intros _. eexists _, _, _, _. repeat split; eauto. }
  repeat split; intros; simplify_eq; try congruence.
  exfalso. eapply Hlayers in Hdesc; eauto. done.
Qed.

(** The trace of [Import] grows by the one call to [ImportCache]. *)
Lemma Import_trace (s : State) :
  st_trace (snd (Import env s)) = st_trace s ++ [EvImportCache].
Proof.
  rewrite Import_run. cbv zeta.
  repeat (match goal with
          | |- context [match ?x with _ => _ end] => destruct x
          end; try reflexivity).
Qed.

End ImportClaims.

Section NewManagerClaims.

Variable env : Env.
Variable managerConfig : ManagerConfig.
Variable tr : Trace.

Let url := ServiceURL managerConfig.
Let getConfigReq :=
  {| GetConfigRequest_EngineID := EngineID managerConfig |}.
Let local :=
  NewCacheManager "local" (KeyStore managerConfig) (ResultStore managerConfig).

(** C3, as the code has it.  When the configuration that [GetConfig]
    returns at manager start has a zero [ImportPeriod], [ExportPeriod]
    or [ExportTimeout], [NewManager] fails with an error whose message
    contains "import/export periods must be non-zero", after the two
    calls that create the client and fetch the configuration: no
    import is made and no goroutine is started. *)
Theorem NewManager_rejects_zero_period (config : Config) :
  url <> "" ->
  env_newClient env tr url = None ->
  env_GetConfig env (tr ++ [EvNewClient url]) getConfigReq = Ok config ->
  ImportPeriod config = 0 \/ ExportPeriod config = 0
  \/ ExportTimeout config = 0 ->
  exists s,
    NewManager env managerConfig tr
    = (Returned (Err ("invalid cache config: " +:+ periods_message)), s)
    /\ st_trace s = tr ++ NewManager_calls managerConfig
    /\ Forall (fun ev => is_go ev = false) (NewManager_calls managerConfig).
Proof.
  intros Hurl Hclient Hconfig Hzero.
  unfold NewManager, NewManager_body. subst url getConfigReq.
  run. destruct (decide (ServiceURL managerConfig = "")) as [|_]; [done|].
  simpl. rewrite Hclient. simpl. rewrite Hconfig. simpl.
  assert ((ImportPeriod config =? 0) || (ExportPeriod config =? 0)
          || (ExportTimeout config =? 0) = true) as ->.
  { destruct Hzero as [ -> | [ -> | -> ] ]; simpl;
      rewrite ?orb_true_r; reflexivity. }
  eexists. split; [reflexivity|]. simpl. split.
  - rewrite <- app_assoc. reflexivity.
  - repeat constructor.
Qed.

(** C6.  With an empty [ServiceURL], [NewManager] returns a
    [defaultCacheManager] around the local cache without making any
    call or starting any goroutine; [Query], [Records], [Load] and
    [Save] on it are one call each, to the local cache; its
    [StartCacheMountSynchronization] and [Close] return nil and do
    nothing. *)
Theorem NewManager_empty_ServiceURL :
  url = "" ->
  let mgr := defaultCacheManager local in
  (exists s, NewManager env managerConfig tr = (Returned (Ok mgr), s)
             /\ st_trace s = tr)
  /\ (forall s args,
        Manager_Query env mgr args s
        = (Returned (env_Query env (st_trace s) local args),
           after s [EvQuery local args]))
  /\ (forall s ck,
        Manager_Records env mgr ck s
        = (Returned (env_Records env (st_trace s) local ck),
           after s [EvRecords local ck]))
  /\ (forall s rec,
        Manager_Load env mgr rec s
        = (Returned (env_Load env (st_trace s) local rec),
           after s [EvLoad local rec]))
  /\ (forall s args,
        Manager_Save env mgr args s
        = (Returned (env_Save env (st_trace s) local args),
           after s [EvSave local args]))
  /\ (forall s, default_StartCacheMountSynchronization s
                = (Returned (Ok None), s))
  /\ (forall s wake, Manager_Close mgr wake s = (Returned (Ok None), s)).
Proof.
  intros Hurl mgr. subst url. split; [|repeat split].
  - unfold NewManager, NewManager_body. run.
    destruct (decide (ServiceURL managerConfig = "")); [|done].
    eexists. split; reflexivity.
  - intros s args. simpl. unfold solver_Query.
    rewrite bind_run. unfold call. apply or_return_run.
  - intros s ck. simpl. unfold solver_Records.
    rewrite bind_run. unfold call. apply or_return_run.
  - intros s rec. simpl. unfold solver_Load.
    rewrite bind_run. unfold call. apply or_return_run.
  - intros s args. simpl. unfold solver_Save.
    rewrite bind_run. unfold call. apply or_return_run.
Qed.

(** C7.  With a non-empty [ServiceURL], a client and a configuration
    without a zero, when the initial [Import] returns an error,
    [NewManager] returns that error and no manager, and what it has
    done by then starts no goroutine. *)
Theorem NewManager_initial_Import_error (config : Config) (e : error)
    (s' : State) :
  url <> "" ->
  env_newClient env tr url = None ->
  env_GetConfig env (tr ++ [EvNewClient url]) getConfigReq = Ok config ->
  ImportPeriod config <> 0 ->
  ExportPeriod config <> 0 ->
  ExportTimeout config <> 0 ->
  Import env {| st_m := configured_manager managerConfig config;
                st_trace := tr ++ NewManager_calls managerConfig |}
  = (Returned (Err e), s') ->
  NewManager env managerConfig tr = (Returned (Err e), s')
  /\ exists evs, st_trace s' = tr ++ evs
                 /\ Forall (fun ev => is_go ev = false) evs.
Proof.
  intros Hurl Hclient Hconfig Hi He Ht Himport.
  rewrite (NewManager_reaches_Import env managerConfig tr config)
    by assumption.
  rewrite Himport. split; [reflexivity|].
  exists (NewManager_calls managerConfig ++ [EvImportCache]).
  pose proof (Import_trace env
    {| st_m := configured_manager managerConfig config;
       st_trace := tr ++ NewManager_calls managerConfig |}) as Htrace.
  rewrite Himport in Htrace. simpl in Htrace.
  rewrite Htrace, <- app_assoc. split; [reflexivity|].
  repeat constructor.
Qed.

End NewManagerClaims.

(** Against C3 as stated: a negative period is not strictly positive,
    and [NewManager] accepts it and starts its loops. *)
Lemma NewManager_accepts_negative_period :
  let config :=
    {| ImportPeriod := -1; ExportPeriod := 1; ExportTimeout := 1 |} in
  let env := Example.env config (Ok Example.imported) [] Example.all_ok in
  let managerConfig := Example.managerConfig "https://cache" in
  env_GetConfig env [EvNewClient "https://cache"]
    {| GetConfigRequest_EngineID := "engine-1" |} = Ok config
  /\ ~ (0 < ImportPeriod config)
  /\ fst (NewManager env managerConfig []) = Returned (Ok ptr_manager)
  /\ st_trace (snd (NewManager env managerConfig []))
     = [ EvNewClient "https://cache";
         EvGetConfig {| GetConfigRequest_EngineID := "engine-1" |};
         EvImportCache;
         EvGo cancelImportOnClose;
         EvGo (importLoop (-1));
         EvGo (exportLoop 1 1) ].
Proof.
  cbv zeta. split; [reflexivity|]. split; [simpl; lia|].
  split; vm_compute; reflexivity.
Qed.

(** ** Close *)

(** A call to [Close] on a manager whose [startCloseCh] is closed
    panics at its first statement and changes nothing. *)
Lemma Close_closed_panics (s : State) (wake : Wake) :
  startCloseCh (st_m s) = chan_closed ->
  Close wake s = (Panicked "close of closed channel", s).
Proof.
  intros Hclosed. unfold Close, close_startCloseCh. run.
  rewrite Hclosed. reflexivity.
Qed.

(** A call to [Close] on a manager whose [startCloseCh] is open closes
    it, whatever happens next, and does not panic. *)
Lemma Close_open_closes (s : State) (wake : Wake) :
  startCloseCh (st_m s) = chan_open ->
  startCloseCh (st_m (snd (Close wake s))) = chan_closed
  /\ forall msg, fst (Close wake s) <> Panicked msg.
Proof.
  intros Hopen. unfold Close, close_startCloseCh. run.
  rewrite Hopen. simpl.
  destruct (stopCacheMountSync (st_m s)) as [hook|]; simpl;
    destruct (doneCh (st_m s)), wake; simpl; split; done.
Qed.

(** C10.  [Close] on a service-backed manager is not idempotent.  The
    first call, made while [startCloseCh] is open, closes the channel
    and does not panic; a second call then panics with "close of closed
    channel", whatever would end its wait, and returns no error. *)
Theorem Close_twice_panics (s : State) (wake1 wake2 : Wake) :
  startCloseCh (st_m s) = chan_open ->
  let first := Manager_Close ptr_manager wake1 s in
  (forall msg, fst first <> Panicked msg)
  /\ startCloseCh (st_m (snd first)) = chan_closed
  /\ Manager_Close ptr_manager wake2 (snd first)
     = (Panicked "close of closed channel", snd first).
Proof.
  intros Hopen first. subst first. simpl.
  destruct (Close_open_closes s wake1 Hopen) as [Hclosed Hnopanic].
  split; [exact Hnopanic|]. split; [exact Hclosed|].
  by apply Close_closed_panics.
Qed.

(** ** Export: the upload of the requested records *)

Arguments emit : simpl never.
Arguments call : simpl never.
Arguments defer : simpl never.
Arguments or_return : simpl never.
Arguments after : simpl never.
Arguments mbind : simpl never.
Arguments mret : simpl never.

(** Two states that differ in how their traces are bracketed. *)
Ltac same_state :=
  unfold after; simpl; rewrite <- ?app_assoc; simpl; reflexivity.

Lemma after_nil (s : State) : after s [] = s.
Proof. destruct s. unfold after. simpl. rewrite app_nil_r. reflexivity. Qed.

Lemma after_after (s : State) (evs1 evs2 : list Event) :
  after (after s evs1) evs2 = after s (evs1 ++ evs2).
Proof. unfold after. simpl. rewrite app_assoc. reflexivity. Qed.

Section ExportUpload.

Variable env : Env.

(** [pushLayer] returns, and makes only upload calls. *)
Lemma pushLayer_returns (layer : Descriptor) (provider : Provider)
    (s : State) :
  exists r evs,
    pushLayer env layer provider s = (Returned r, after s evs)
    /\ Forall (fun ev => is_upload ev = true) evs.
Proof.
  unfold pushLayer. run.
  destruct (env_GetLayerUploadURL env (st_trace s) _) as [resp|e]; simpl.
  2:{ eexists _, [_]. split; [reflexivity|]. repeat constructor. }
  destruct (env_ReaderAt env _ provider layer) as [readerAt|e]; simpl.
  2:{ eexists _, [_; _]. rewrite <- app_assoc. split; [reflexivity|].
      repeat constructor. }
  destruct (env_NewRequest env "PUT" (URL resp)) as [e|]; simpl.
  { eexists _, [_; _; _]. rewrite <- !app_assoc. split; [reflexivity|].
    repeat constructor. }
  destruct (env_HTTPDo env _ _) as [resp'|e]; simpl.
  2:{ eexists _, [_; _; _; _]. rewrite <- !app_assoc.
      split; [reflexivity|]. repeat constructor. }
  destruct (decide (StatusCode resp' ≠ StatusOK)); simpl.
  - eexists _, [_; _; _; _; _]. rewrite <- !app_assoc.
    split; [reflexivity|]. repeat constructor.
  - eexists _, [_; _; _; _; _]. rewrite <- !app_assoc.
    split; [reflexivity|]. repeat constructor.
Qed.

(** A push returns nil only when the service gave an upload URL, the
    provider opened the blob, the request could be built and the PUT of
    the blob, with its size as content length, was answered 200. *)
Lemma pushLayer_Ok_inv (layer : Descriptor) (provider : Provider)
    (s s' : State) :
  pushLayer env layer provider s = (Returned (Ok tt), s') ->
  exists getURLResp readerAt,
    let getURLReq :=
      {| GetLayerUploadURLRequest_Digest := Descriptor_Digest layer |} in
    let req := {| Request_Method := "PUT";
                  Request_URL := URL getURLResp;
                  Request_Body := (provider, layer);
                  Request_ContentLength := ReaderAt_Size readerAt |} in
    env_GetLayerUploadURL env (st_trace s) getURLReq = Ok getURLResp
    /\ env_ReaderAt env (st_trace s ++ [EvGetLayerUploadURL getURLReq])
         provider layer = Ok readerAt
    /\ env_NewRequest env "PUT" (URL getURLResp) = None
    /\ env_HTTPDo env
         (st_trace s ++ [EvGetLayerUploadURL getURLReq;
                         EvReaderAt provider layer]) req
       = Ok {| StatusCode := StatusOK |}
    /\ s' = after s [ EvGetLayerUploadURL getURLReq;
                      EvReaderAt provider layer;
                      EvHTTPDo req; EvBodyClose req;
                      EvReaderClose provider layer ].
Proof.
  unfold pushLayer. run.
  destruct (env_GetLayerUploadURL env (st_trace s) _) as [resp|e] eqn:Hurl;
    simpl; [|discriminate].
  destruct (env_ReaderAt env _ provider layer) as [readerAt|e] eqn:Hreader;
    simpl; [|discriminate].
  destruct (env_NewRequest env "PUT" (URL resp)) as [e|] eqn:Hreq;
    simpl; [discriminate|].
  rewrite <- app_assoc in *. simpl in *.
  destruct (env_HTTPDo env _ _) as [[status]|e] eqn:Hdo; simpl;
    [|discriminate].
  destruct (decide (status ≠ StatusOK)) as [|Hstatus]; simpl; [discriminate|].
  apply dec_stable in Hstatus. subst status.
  intros [= <-]. exists resp, readerAt. cbv zeta.
  rewrite <- !app_assoc. simpl. done.
Qed.

(** The loop over the layers of a remote either pushes them all or
    stops at the first push that fails. *)
Lemma pushLayers_run (provider : Provider) (layers : list Descriptor)
    (s : State) :
  (exists s', layers_pushed env provider s layers s'
              /\ pushLayers env layers provider s = (Returned (Ok tt), s'))
  \/ (exists err s', layers_push_fails env provider s layers err s'
                     /\ pushLayers env layers provider s
                        = (Returned (Err err), s')).
Proof.
  unfold pushLayers. revert s.
  induction layers as [|layer layers IH]; intros s; simpl.
  - left. exists s. split; [constructor|reflexivity].
  - rewrite bind_run.
    destruct (pushLayer_returns layer provider s) as (r & evs & Hpush & _).
    rewrite Hpush. destruct r as [[]|err].
    + destruct (IH (after s evs)) as [(s' & Hrun & Heq)|(err & s' & Hrun & Heq)].
      * left. exists s'. split; [econstructor; eauto|exact Heq].
      * right. exists err, s'. split; [|exact Heq].
        eapply push_fails_later; eauto.
    + right. exists err, (after s evs). split; [|reflexivity].
      by apply push_fails_here.
Qed.

Lemma layers_pushed_events (provider : Provider) (s s' : State)
    (layers : list Descriptor) :
  layers_pushed env provider s layers s' ->
  exists evs, s' = after s evs /\ Forall (fun ev => is_upload ev = true) evs.
Proof.
  induction 1 as [s|s layer layers s1 s2 Hpush _ (evs2 & -> & Hevs2)].
  - exists []. by rewrite after_nil.
  - destruct (pushLayer_returns layer provider s) as (r & evs & Heq & Hevs).
    rewrite Heq in Hpush. injection Hpush as _ <-.
    exists (evs ++ evs2). rewrite after_after. split; [done|].
    by apply Forall_app.
Qed.

Lemma layers_push_fails_events (provider : Provider) (s s' : State)
    (layers : list Descriptor) (err : error) :
  layers_push_fails env provider s layers err s' ->
  exists evs, s' = after s evs /\ Forall (fun ev => is_upload ev = true) evs.
Proof.
  induction 1 as [s layer layers err s1 Hpush
                 |s layer layers err s1 s2 Hpush _ (evs2 & -> & Hevs2)].
  - destruct (pushLayer_returns layer provider s) as (r & evs & Heq & Hevs).
    rewrite Heq in Hpush. injection Hpush as _ <-. eauto.
  - destruct (pushLayer_returns layer provider s) as (r & evs & Heq & Hevs).
    rewrite Heq in Hpush. injection Hpush as _ <-.
    exists (evs ++ evs2). rewrite after_after. split; [done|].
    by apply Forall_app.
Qed.

End ExportUpload.

Section ExportRecords.

Variable env : Env.

Lemma defer_run {A} (cleanup : M unit) (body : M A) (s : State) :
  defer cleanup body s =
  match body s with
  | (Blocked, s') => (Blocked, s')
  | (r, s') => (r, snd (cleanup s'))
  end.
Proof. reflexivity. Qed.

Lemma emit_run (ev : Event) (s : State) :
  emit ev s = (Returned (Ok tt), after s [ev]).
Proof. reflexivity. Qed.

Lemma call_run {A} (answer : Trace -> A) (ev : Event) (s : State) :
  call answer ev s = (Returned (Ok (answer (st_trace s))), after s [ev]).
Proof. reflexivity. Qed.

Lemma layers_pushed_run (provider : Provider) (s s' : State)
    (layers : list Descriptor) :
  layers_pushed env provider s layers s' ->
  pushLayers env layers provider s = (Returned (Ok tt), s').
Proof.
  unfold pushLayers.
  induction 1 as [s|s layer layers s1 s2 Hpush _ IH]; simpl.
  - reflexivity.
  - rewrite bind_run, Hpush. exact IH.
Qed.

Lemma layers_push_fails_run (provider : Provider) (s s' : State)
    (layers : list Descriptor) (err : error) :
  layers_push_fails env provider s layers err s' ->
  pushLayers env layers provider s = (Returned (Err err), s').
Proof.
  unfold pushLayers.
  induction 1 as [s layer layers err s1 Hpush
                 |s layer layers err s1 s2 Hpush _ IH]; simpl.
  - rewrite bind_run, Hpush. reflexivity.
  - rewrite bind_run, Hpush. exact IH.
Qed.

Lemma Export_record_run (s s' : State) (record : ExportRecord)
    (o : record_outcome) (acc : list RecordLayers) :
  record_run env s record o s' ->
  Export_record env record acc s = (Returned (record_result acc o), s').
Proof.
  intros Hrun. unfold Export_record. rewrite bind_run, call_run.
  destruct Hrun as [s record err Hget
                   |s record cacheRef Hget Hremotes
                   |s record cacheRef remote remotes s' Hget Hremotes Hpush
                   |s record cacheRef err Hget Hremotes
                   |s record cacheRef remote remotes err s' Hget Hremotes Hpush];
    rewrite Hget; try reflexivity; cbv beta iota;
    rewrite defer_run, bind_run, call_run; cbv beta iota;
    unfold after at 1; cbn [st_trace];
    rewrite Hremotes, bind_run, or_return_run; cbv beta iota;
    rewrite after_after; cbn [app].
  - same_state.
  - apply layers_pushed_run in Hpush. rewrite bind_run, Hpush. reflexivity.
  - same_state.
  - apply layers_push_fails_run in Hpush. rewrite bind_run, Hpush.
    reflexivity.
Qed.

(** Every record is handled in one of the five ways. *)
Lemma record_run_total (s : State) (record : ExportRecord) :
  exists o s', record_run env s record o s'.
Proof.
  destruct (env_WorkerGet env (st_trace s) (Record_CacheRefID record))
    as [cacheRef|err] eqn:Hget.
  2:{ eexists _, _. by apply run_not_found. }
  destruct (env_GetRemotes env
              (st_trace s ++ [EvWorkerGet (Record_CacheRefID record)])
              cacheRef) as [[|remote remotes]|err] eqn:Hremotes.
  - eexists _, _. by eapply run_no_remotes.
  - destruct (pushLayers_run env (Remote_Provider remote)
                (Remote_Descriptors remote)
                (after s [EvWorkerGet (Record_CacheRefID record);
                          EvGetRemotes cacheRef]))
      as [(s1 & Hrun & _)|(err & s1 & Hrun & _)].
    + eexists _, _. by eapply run_uploaded.
    + eexists _, _. by eapply run_upload_failed.
  - eexists _, _. by eapply run_remotes_failed.
Qed.

(** The handling of a record makes only worker and upload calls. *)
Lemma record_run_events (s s' : State) (record : ExportRecord)
    (o : record_outcome) :
  record_run env s record o s' ->
  exists evs, s' = after s evs
              /\ Forall (fun ev => is_record_event ev = true) evs.
Proof.
  assert (Hup : forall evs, Forall (fun ev => is_upload ev = true) evs ->
                Forall (fun ev => is_record_event ev = true) evs).
  { intros evs H. eapply Forall_impl; [exact H|]. by intros []. }
  destruct 1 as [s record err Hget
                |s record cacheRef Hget Hremotes
                |s record cacheRef remote remotes s' Hget Hremotes Hpush
                |s record cacheRef err Hget Hremotes
                |s record cacheRef remote remotes err s' Hget Hremotes Hpush].
  - eexists. split; [reflexivity|]. repeat constructor.
  - eexists. split; [reflexivity|]. repeat constructor.
  - apply layers_pushed_events in Hpush as (evs & -> & Hevs).
    eexists. rewrite !after_after. split; [reflexivity|].
    repeat (apply Forall_app; split); try (by apply Hup);
      repeat constructor.
  - eexists. split; [reflexivity|]. repeat constructor.
  - apply layers_push_fails_events in Hpush as (evs & -> & Hevs).
    eexists. rewrite !after_after. split; [reflexivity|].
    repeat (apply Forall_app; split); try (by apply Hup);
      repeat constructor.
Qed.

Lemma forEach_records_run (s s' : State) (records : list ExportRecord)
    (os : list record_outcome) (acc : list RecordLayers) :
  records_run env s records os s' ->
  forEach records (Export_record env) acc s
  = (Returned (records_result acc os), s').
Proof.
  intros Hrun. revert acc.
  induction Hrun as [s|s record records o os s1 s2 Hrecord Hok _ IH
                    |s record records err s1 Hrecord]; intros acc; simpl.
  - unfold records_result. simpl. rewrite app_nil_r. reflexivity.
  - rewrite bind_run, (Export_record_run _ _ _ _ acc Hrecord).
    destruct o as [err| |layers|err]; simpl in *; try discriminate;
      rewrite IH; try reflexivity.
    unfold records_result, failure_of. simpl.
    rewrite <- app_assoc. reflexivity.
  - rewrite bind_run, (Export_record_run _ _ _ _ acc Hrecord). reflexivity.
Qed.

Lemma records_run_total (s : State) (records : list ExportRecord) :
  exists os s', records_run env s records os s'.
Proof.
  revert s. induction records as [|record records IH]; intros s.
  - eexists _, _. constructor.
  - destruct (record_run_total s record) as (o & s1 & Hrecord).
    destruct (is_failed o) eqn:Hfailed.
    + destruct o; try discriminate. eexists _, _.
      by eapply records_stop.
    + destruct (IH s1) as (os & s2 & Hrun).
      eexists _, _. by eapply records_next.
Qed.

Lemma records_run_events (s s' : State) (records : list ExportRecord)
    (os : list record_outcome) :
  records_run env s records os s' ->
  exists evs, s' = after s evs
              /\ Forall (fun ev => is_record_event ev = true) evs.
Proof.
  induction 1 as [s|s record records o os s1 s2 Hrecord Hok _ IH
                 |s record records err s1 Hrecord].
  - exists []. by rewrite after_nil.
  - apply record_run_events in Hrecord as (evs1 & -> & Hevs1).
    destruct IH as (evs2 & -> & Hevs2).
    exists (evs1 ++ evs2). rewrite after_after. split; [done|].
    by apply Forall_app.
  - by apply record_run_events in Hrecord.
Qed.

(** Every record has its outcome, unless the loop stopped before it. *)
Lemma records_run_length (s s' : State) (records : list ExportRecord)
    (os : list record_outcome) :
  records_run env s records os s' ->
  failure_of os = None -> length os = length records.
Proof.
  induction 1 as [s|s record records o os s1 s2 Hrecord Hok _ IH
                 |s record records err s1 Hrecord]; simpl.
  - done.
  - intros Hnone. rewrite IH; [done|].
    destruct o; simpl in *; try discriminate; exact Hnone.
  - discriminate.
Qed.

End ExportRecords.

Section Deterministic.

Variable env : Env.

(** A record is handled in one way only. *)
Lemma record_run_deterministic (s s1 s2 : State) (record : ExportRecord)
    (o1 o2 : record_outcome) :
  record_run env s record o1 s1 -> record_run env s record o2 s2 ->
  o1 = o2 /\ s1 = s2.
Proof.
  intros H1 H2.
  pose proof (Export_record_run env _ _ _ _ [] H1) as E1.
  pose proof (Export_record_run env _ _ _ _ [] H2) as E2.
  rewrite E1 in E2. injection E2 as Hresult <-. split; [|reflexivity].
  destruct H1 as [s record err Hget
                 |s record cacheRef Hget Hremotes
                 |s record cacheRef remote remotes s' Hget Hremotes Hpush
                 |s record cacheRef err Hget Hremotes
                 |s record cacheRef remote remotes err s' Hget Hremotes Hpush];
    inversion H2; subst; simplify_eq; try reflexivity;
    simpl in Hresult; simplify_eq; try reflexivity; congruence.
Qed.

(** The records are handled in one way only. *)
Lemma records_run_deterministic (s s1 s2 : State)
    (records : list ExportRecord) (os1 os2 : list record_outcome) :
  records_run env s records os1 s1 -> records_run env s records os2 s2 ->
  os1 = os2 /\ s1 = s2.
Proof.
  intros H1. revert os2 s2.
  induction H1 as [s|s record records o os sa sb Hrecord Hok _ IH
                  |s record records err sa Hrecord]; intros os2 s2 H2.
  - by inversion H2.
  - inversion H2 as [|? ? ? o' os' sa' sb' Hrecord' Hok' Hrest'
                    |? ? ? err' sa' Hrecord']; subst.
    + destruct (record_run_deterministic _ _ _ _ _ _ Hrecord Hrecord')
        as [-> ->].
      destruct (IH _ _ Hrest') as [-> ->]. done.
    + destruct (record_run_deterministic _ _ _ _ _ _ Hrecord Hrecord')
        as [-> _]. discriminate.
  - inversion H2 as [|? ? ? o' os' sa' sb' Hrecord' Hok' Hrest'
                    |? ? ? err' sa' Hrecord']; subst.
    + destruct (record_run_deterministic _ _ _ _ _ _ Hrecord Hrecord')
        as [<- _]. discriminate.
    + destruct (record_run_deterministic _ _ _ _ _ _ Hrecord Hrecord')
        as [[= ->] ->]. done.
Qed.

End Deterministic.

(** ** Export: the walk of the local key store *)

Lemma mret_run {A} (a : A) (s : State) :
  @mret M M_ret A a s = (Returned (Ok a), s).
Proof. reflexivity. Qed.

Lemma bind_mret {A} (c : M A) (s : State) : (c ≫= mret) s = c s.
Proof. rewrite bind_run. by destruct (c s) as [[[]| |] ?]. Qed.

(** A store that does not fail walks like a loop. *)
Lemma walk_clean {A S} (store : list A * option error) (fn : A -> S -> M S)
    (acc : S) (s : State) :
  snd store = None -> walk store fn acc s = forEach (fst store) fn acc s.
Proof.
  intros Hclean. unfold walk. rewrite Hclean.
  rewrite bind_run. by destruct (forEach _ _ _ _) as [[[]| |] ?].
Qed.

Section ExportWalk.

Variable env : Env.

Lemma forEach_backlinks (id : string)
    (backlinks : list (string * CacheInfoLink)) (links : list Link)
    (s : State) :
  forEach backlinks (Export_backlink id) links s
  = (Returned (Ok (links ++ map (Link_of id) backlinks)), s).
Proof.
  revert links. induction backlinks as [|[linkedID linkInfo] backlinks IH];
    intros links; simpl.
  - by rewrite app_nil_r.
  - rewrite bind_run. unfold Export_backlink at 1. cbv beta iota.
    rewrite mret_run. cbv beta iota.
    rewrite IH, <- app_assoc. reflexivity.
Qed.

(** The visit of the results of a key never fails, and appends to the
    key the results that its run exports. *)
Lemma forEach_results_run (id : string) (crs : list CacheResult)
    (cacheKey : CacheKey) (s : State) :
  exists rs s',
    results_run env s crs rs s'
    /\ forEach crs (Export_result env id) cacheKey s
       = (Returned (Ok {| CacheKey_ID := CacheKey_ID cacheKey;
                          CacheKey_Results :=
                            CacheKey_Results cacheKey ++ rs |}), s').
Proof.
  revert cacheKey s. induction crs as [|cacheResult crs IH];
    intros cacheKey s; simpl.
  - exists [], s. split; [constructor|].
    rewrite app_nil_r. by destruct cacheKey.
  - rewrite bind_run. unfold Export_result at 1.
    rewrite bind_run, call_run. cbv beta iota.
    destruct (env_ResultStoreLoad env (st_trace s) cacheResult)
      as [res|err] eqn:Hload.
    + rewrite defer_run.
      destruct (SolverResult_Sys res) as [workerRef|] eqn:Hsys.
      * rewrite mret_run. cbv beta iota.
        rewrite emit_run, after_after. cbn [snd app].
        edestruct IH as (rs & s' & Hrun & Heq). rewrite Heq.
        exists (Result_of workerRef cacheResult :: rs), s'.
        split; [by eapply results_exported|].
        cbn [CacheKey_ID CacheKey_Results]. rewrite <- app_assoc.
        reflexivity.
      * rewrite mret_run. cbv beta iota.
        rewrite emit_run, after_after. cbn [snd app].
        edestruct IH as (rs & s' & Hrun & Heq). rewrite Heq.
        exists rs, s'. split; [by eapply results_not_worker_ref|done].
    + rewrite mret_run. cbv beta iota.
      edestruct IH as (rs & s' & Hrun & Heq). rewrite Heq.
      exists rs, s'. split; [by eapply results_load_failed|done].
Qed.

(** The closure of the walk, on one key of a store that does not
    fail. *)
Lemma Export_key_run (ks : CacheKeyStorage) (id : string)
    (cacheKeys : list CacheKey) (links : list Link) (s : State) :
  snd (KeyStore_WalkBacklinks ks id) = None ->
  snd (KeyStore_WalkResults ks id) = None ->
  exists rs s',
    results_run env s (fst (KeyStore_WalkResults ks id)) rs s'
    /\ Export_key env ks id (cacheKeys, links) s
       = (Returned
            (Ok (cacheKeys ++ [ {| CacheKey_ID := id;
                                   CacheKey_Results := rs |} ],
                 links ++ map (Link_of id)
                              (fst (KeyStore_WalkBacklinks ks id)))), s').
Proof.
  intros Hbacklinks Hresults. unfold Export_key.
  rewrite bind_run, walk_clean, forEach_backlinks by apply Hbacklinks.
  rewrite bind_run, walk_clean by apply Hresults.
  destruct (forEach_results_run id (fst (KeyStore_WalkResults ks id))
              {| CacheKey_ID := id; CacheKey_Results := [] |} s)
    as (rs & s1 & Hrun & ->).
  rewrite mret_run. exists rs, s1. split; [exact Hrun|reflexivity].
Qed.

(** The walk of a store that does not fail visits every key, and
    returns one key per key of the store and one link per backlink. *)
Lemma forEach_keys_run (ks : CacheKeyStorage) (ids : list string)
    (cacheKeys : list CacheKey) (links : list Link) (s : State) :
  (forall id, snd (KeyStore_WalkBacklinks ks id) = None) ->
  (forall id, snd (KeyStore_WalkResults ks id) = None) ->
  exists keys s',
    keys_run env ks s ids keys s'
    /\ forEach ids (Export_key env ks) (cacheKeys, links) s
       = (Returned (Ok (cacheKeys ++ keys, links ++ links_of ks ids)), s').
Proof.
  intros Hbacklinks Hresults. revert cacheKeys links s.
  induction ids as [|id ids IH]; intros cacheKeys links s; cbn [forEach].
  - exists [], s. split; [constructor|]. by rewrite !app_nil_r.
  - rewrite bind_run.
    destruct (Export_key_run ks id cacheKeys links s)
      as (rs & s1 & Hrun & ->); [done|done|].
    destruct (IH (cacheKeys ++ [ {| CacheKey_ID := id;
                                    CacheKey_Results := rs |} ])
                 (links ++ map (Link_of id)
                               (fst (KeyStore_WalkBacklinks ks id))) s1)
      as (keys & s2 & Hkeys & ->).
    eexists _, s2. split; [by eapply keys_next|].
    rewrite <- !app_assoc. reflexivity.
Qed.

Lemma results_run_events (s s' : State) (crs : list CacheResult)
    (rs : list Result) :
  results_run env s crs rs s' ->
  exists evs, s' = after s evs
              /\ Forall (fun ev => is_result_event ev = true) evs.
Proof.
  induction 1 as [s
                 |s cacheResult crs rs s' err Hload _ (evs & -> & Hevs)
                 |s cacheResult crs rs s' res Hload Hsys _ (evs & -> & Hevs)
                 |s cacheResult crs rs s' res workerRef Hload Hsys _
                    (evs & -> & Hevs)].
  - exists []. by rewrite after_nil.
  - eexists. rewrite after_after. split; [reflexivity|].
    apply Forall_app. split; [repeat constructor|done].
  - eexists. rewrite after_after. split; [reflexivity|].
    apply Forall_app. split; [repeat constructor|done].
  - eexists. rewrite after_after. split; [reflexivity|].
    apply Forall_app. split; [repeat constructor|done].
Qed.

Lemma keys_run_events (ks : CacheKeyStorage) (s s' : State)
    (ids : list string) (keys : list CacheKey) :
  keys_run env ks s ids keys s' ->
  exists evs, s' = after s evs
              /\ Forall (fun ev => is_result_event ev = true) evs.
Proof.
  induction 1 as [s|s id ids results cacheKeys s1 s2 Hresults _
                    (evs2 & -> & Hevs2)].
  - exists []. by rewrite after_nil.
  - apply results_run_events in Hresults as (evs1 & -> & Hevs1).
    exists (evs1 ++ evs2). rewrite after_after. split; [done|].
    by apply Forall_app.
Qed.



End ExportWalk.

(** ** The events of a computation *)

Section Emits.

Context {A : Type} (P : Event -> bool).

Lemma emits_mret (a : A) : emits P (mret a : M A).
Proof. intros s. exists []. by rewrite after_nil. Qed.

Lemma emits_fail (e : error) : emits P (fail e : M A).
Proof. intros s. exists []. by rewrite after_nil. Qed.

Lemma emits_or_return (r : result A) : emits P (or_return r).
Proof. intros s. exists []. rewrite or_return_run. by rewrite after_nil. Qed.

Lemma emits_call (answer : Trace -> A) (ev : Event) :
  P ev = true -> emits P (call answer ev).
Proof. intros Hev s. exists [ev]. split; [reflexivity|]. by constructor. Qed.

Lemma emits_bind {B} (c : M B) (k : B -> M A) :
  emits P c -> (forall b, emits P (k b)) -> emits P (c ≫= k).
Proof.
  intros Hc Hk s. rewrite bind_run.
  destruct (Hc s) as (evs1 & Heq1 & Hevs1).
  destruct (c s) as [[[b|e]|msg|] s1]; simpl in Heq1; subst s1; eauto.
  destruct (Hk b (after s evs1)) as (evs2 & Heq2 & Hevs2).
  exists (evs1 ++ evs2). rewrite Heq2, after_after. split; [done|].
  by apply Forall_app.
Qed.

Lemma emits_defer (cleanup : M unit) (body : M A) :
  emits P cleanup -> emits P body -> emits P (defer cleanup body).
Proof.
  intros Hcleanup Hbody s. rewrite defer_run.
  destruct (Hbody s) as (evs1 & Heq1 & Hevs1).
  destruct (body s) as [o s1]; simpl in Heq1; subst s1.
  destruct (Hcleanup (after s evs1)) as (evs2 & Heq2 & Hevs2).
  destruct o as [r|msg|]; simpl; eauto.
  - exists (evs1 ++ evs2). rewrite Heq2, after_after. split; [done|].
    by apply Forall_app.
  - exists (evs1 ++ evs2). rewrite Heq2, after_after. split; [done|].
    by apply Forall_app.
Qed.

End Emits.

Lemma emits_emit (P : Event -> bool) (ev : Event) :
  P ev = true -> emits P (emit ev).
Proof. intros Hev s. exists [ev]. split; [reflexivity|]. by constructor. Qed.

Lemma emits_get_m (P : Event -> bool) : emits P get_m.
Proof. intros s. exists []. by rewrite after_nil. Qed.

Lemma emits_forEach {A S} (P : Event -> bool) (items : list A)
    (fn : A -> S -> M S) (acc : S) :
  (forall x acc, emits P (fn x acc)) -> emits P (forEach items fn acc).
Proof.
  intros Hfn. revert acc. induction items as [|x items IH]; intros acc.
  - apply emits_mret.
  - cbn [forEach]. apply emits_bind; [apply Hfn|]. intros acc'. apply IH.
Qed.

Lemma emits_walk {A S} (P : Event -> bool) (store : list A * option error)
    (fn : A -> S -> M S) (acc : S) :
  (forall x acc, emits P (fn x acc)) -> emits P (walk store fn acc).
Proof.
  intros Hfn. unfold walk. apply emits_bind; [by apply emits_forEach|].
  intros acc'. destruct (snd store); [apply emits_fail|apply emits_mret].
Qed.

(** The walk of the local key store only loads and releases results,
    whatever the store holds and however the walk ends. *)
Lemma Export_walk_emits (env : Env) : emits is_result_event (Export_walk env).
Proof.
  unfold Export_walk. apply emits_bind; [apply emits_get_m|]. intros m.
  apply emits_walk. intros id [cacheKeys links]. unfold Export_key.
  apply emits_bind.
  { apply emits_walk. intros [linkedID linkInfo] acc. apply emits_mret. }
  intros links'. apply emits_bind; [|intros; apply emits_mret].
  apply emits_walk. intros cacheResult cacheKey. unfold Export_result.
  apply emits_bind; [by apply emits_call|]. intros [res|err].
  - apply emits_defer; [by apply emits_emit|].
    destruct (SolverResult_Sys res); apply emits_mret.
  - apply emits_mret.
Qed.

(** ** Export: what the walk returns *)

Section ExportWalkClaims.

Variable env : Env.






End ExportWalkClaims.

(** ** Export: what is uploaded and what is committed *)

Lemma UpdateCacheLayers_calls_none (P : Event -> bool) (evs : list Event) :
  (forall req, P (EvUpdateCacheLayers req) = false) ->
  Forall (fun ev => P ev = true) evs ->
  UpdateCacheLayers_calls evs = [].
Proof.
  intros HP. induction 1 as [|ev evs Hev _ IH]; [reflexivity|].
  unfold UpdateCacheLayers_calls in *.
  destruct ev; simpl; try exact IH. by rewrite HP in Hev.
Qed.

Lemma UpdateCacheLayers_calls_app (evs1 evs2 : list Event) :
  UpdateCacheLayers_calls (evs1 ++ evs2)
  = UpdateCacheLayers_calls evs1 ++ UpdateCacheLayers_calls evs2.
Proof. apply omap_app. Qed.

Lemma failure_of_None (os : list record_outcome) :
  failure_of os = None <-> Forall (fun o => is_failed o = false) os.
Proof.
  unfold failure_of. induction os as [|o os IH]; simpl.
  - split; [constructor|done].
  - destruct o; simpl; rewrite ?IH; split;
      try (intros H; by constructor);
      try (intros H; by inversion H); done.
Qed.

Lemma elem_of_reported (os : list record_outcome) (layers : RecordLayers) :
  layers ∈ reported os <-> uploaded layers ∈ os.
Proof.
  unfold reported. rewrite list_elem_of_omap. split.
  - intros ([] & Hin & Heq); try discriminate. by injection Heq as ->.
  - intros Hin. by exists (uploaded layers).
Qed.

Lemma reported_skipped (os : list record_outcome) :
  Forall (fun o => is_skipped o = true) os -> reported os = [].
Proof.
  unfold reported. induction 1 as [|o os Ho _ IH]; [reflexivity|].
  destruct o; try discriminate; simpl; exact IH.
Qed.

Lemma skipped_not_failed (os : list record_outcome) :
  Forall (fun o => is_skipped o = true) os -> failure_of os = None.
Proof.
  intros H. apply failure_of_None. eapply Forall_impl; [exact H|].
  by intros [].
Qed.

(** A failure among the outcomes is the failure that stopped the loop. *)
Lemma records_run_failed (env : Env) (s s' : State)
    (records : list ExportRecord) (os : list record_outcome) (err : error) :
  records_run env s records os s' ->
  failed err ∈ os -> failure_of os = Some err.
Proof.
  unfold failure_of.
  induction 1 as [s|s record records o os s1 s2 Hrecord Hok _ IH
                 |s record records err' s1 Hrecord]; intros Hfailed.
  - by apply elem_of_nil in Hfailed.
  - apply elem_of_cons in Hfailed as [<-|Hin]; [discriminate|].
    destruct o; try discriminate; simpl; by apply IH.
  - apply list_elem_of_singleton in Hfailed. by injection Hfailed as ->.
Qed.

Section ExportClaims.

Variable env : Env.
Variable s : State.
Variable cacheKeys : list CacheKey.
Variable links : list Link.
Variable s1 : State.
Variable resp : UpdateCacheRecordsResponse.

Let req := {| CacheKeys := cacheKeys; Links := links |}.
Let s2 := after s1 [EvUpdateCacheRecords req].
Let records := ExportRecords resp.

Hypothesis Hwalk :
  Export_walk env s = (Returned (Ok (cacheKeys, links)), s1).
Hypothesis Hannounce :
  env_UpdateCacheRecords env (st_trace s1) req = Ok resp.

(** [Export] when the service asks for nothing. *)
Lemma Export_run_empty :
  records = [] -> Export env s = (Returned (Ok tt), s2).
Proof using Hwalk Hannounce.
  intros Hempty. unfold Export. rewrite bind_run, Hwalk. cbv beta iota.
  rewrite bind_run, call_run. cbv beta iota. fold req.
  rewrite Hannounce, bind_run, or_return_run. cbv beta iota.
  fold records. rewrite Hempty. reflexivity.
Qed.

(** [Export] when the service asks for records, by the way the
    records are handled. *)
Lemma Export_run (os : list record_outcome) (s3 : State) :
  records <> [] ->
  records_run env s2 records os s3 ->
  Export env s =
  match failure_of os with
  | Some err => (Returned (Err err), s3)
  | None =>
      let commit := {| UpdatedRecords := reported os |} in
      (Returned match env_UpdateCacheLayers env (st_trace s3) commit with
                | Some err => Err err
                | None => Ok tt
                end,
       after s3 [EvUpdateCacheLayers commit])
  end.
Proof using Hwalk Hannounce.
  intros Hnonempty Hrun. unfold Export. rewrite bind_run, Hwalk.
  cbv beta iota. rewrite bind_run, call_run. cbv beta iota. fold req.
  rewrite Hannounce, bind_run, or_return_run. cbv beta iota.
  fold records. fold s2.
  destruct (decide (length records = 0%nat)) as [Hlen|_].
  { destruct records; [done|discriminate]. }
  rewrite bind_run, (forEach_records_run env _ _ _ _ [] Hrun).
  unfold records_result. destruct (failure_of os); [reflexivity|].
  cbn [app]. rewrite bind_run, call_run. cbv beta iota.
  by destruct (env_UpdateCacheLayers env (st_trace s3) _).
Qed.

(** The events up to the announcement. *)
Lemma Export_announce_events :
  exists evs, s2 = after s evs
              /\ Forall (fun ev => is_upload ev = false) evs
              /\ UpdateCacheLayers_calls evs = [].
Proof using Hwalk.
  destruct (Export_walk_emits env s) as (evs & Heq & Hevs).
  rewrite Hwalk in Heq. simpl in Heq. subst s2. rewrite Heq, after_after.
  eexists. split; [reflexivity|]. split.
  - apply Forall_app. split; [|repeat constructor].
    eapply Forall_impl; [exact Hevs|]. by intros [].
  - rewrite UpdateCacheLayers_calls_app.
    by rewrite (UpdateCacheLayers_calls_none is_result_event evs).
Qed.

(** The events up to the end of the handling of the records. *)
Lemma Export_records_events (os : list record_outcome) (s3 : State) :
  records_run env s2 records os s3 ->
  exists evs, s3 = after s evs /\ UpdateCacheLayers_calls evs = [].
Proof using Hwalk.
  intros Hrun.
  destruct Export_announce_events as (evs1 & Heq1 & _ & Hcalls1).
  apply records_run_events in Hrun as (evs2 & -> & Hevs2).
  rewrite Heq1, after_after. eexists. split; [reflexivity|].
  rewrite UpdateCacheLayers_calls_app, Hcalls1.
  by rewrite (UpdateCacheLayers_calls_none is_record_event evs2).
Qed.

(** C1.  Let the walk of [Export] succeed and the service answer the
    announcement with the records it wants.  When it wants none,
    [Export] returns nil at once: no layer is uploaded and
    [UpdateCacheLayers] is not called.  Otherwise, when [Export]
    returns nil, every record was handled without failure, and
    [UpdateCacheLayers] was called once, last, with the entries of
    exactly the records whose layers were all pushed: none for a
    record skipped because its ref was not found or had no remotes.
    When the handling of a record fails, [Export] returns the error
    and [UpdateCacheLayers] is not called at all. *)
Theorem Export_reports_uploaded_records :
  (records = [] ->
     Export env s = (Returned (Ok tt), s2)
     /\ exists evs, s2 = after s evs
                    /\ Forall (fun ev => is_upload ev = false) evs
                    /\ UpdateCacheLayers_calls evs = [])
  /\ (forall s',
        records <> [] ->
        Export env s = (Returned (Ok tt), s') ->
        exists os s3 evs,
          records_run env s2 records os s3
          /\ length os = length records
          /\ Forall (fun o => is_failed o = false) os
          /\ (forall layers, layers ∈ reported os <-> uploaded layers ∈ os)
          /\ s3 = after s evs
          /\ UpdateCacheLayers_calls evs = []
          /\ s' = after s3 [EvUpdateCacheLayers
                              {| UpdatedRecords := reported os |}])
  /\ (forall os s3 err,
        records <> [] ->
        records_run env s2 records os s3 ->
        failed err ∈ os ->
        Export env s = (Returned (Err err), s3)
        /\ exists evs, s3 = after s evs
                       /\ UpdateCacheLayers_calls evs = []).
Proof using Hwalk Hannounce.
  split; [|split].
  - intros Hempty. split; [by apply Export_run_empty|].
    apply Export_announce_events.
  - intros s' Hnonempty Hexport.
    destruct (records_run_total env s2 records) as (os & s3 & Hrun).
    rewrite (Export_run os s3 Hnonempty Hrun) in Hexport.
    destruct (failure_of os) eqn:Hfailure; [discriminate|].
    destruct (Export_records_events os s3 Hrun) as (evs & Hs3 & Hcalls).
    exists os, s3, evs. split; [exact Hrun|].
    split; [by eapply records_run_length|].
    split; [by apply failure_of_None|].
    split; [apply elem_of_reported|].
    split; [exact Hs3|]. split; [exact Hcalls|].
    by injection Hexport as _ <-.
  - intros os s3 err Hnonempty Hrun Hfailed.
    rewrite (Export_run os s3 Hnonempty Hrun).
    rewrite (records_run_failed env _ _ _ _ err Hrun Hfailed).
    split; [reflexivity|]. by eapply Export_records_events.
Qed.

(** C9.  When the service asks for records and every one of them is
    skipped, because its ref cannot be fetched or has no remotes,
    [Export] still calls [UpdateCacheLayers], with an empty list of
    updated records, and returns what that call returns: nil when
    the call succeeds. *)
Theorem Export_all_skipped_commits (os : list record_outcome)
    (s3 : State) :
  records <> [] ->
  records_run env s2 records os s3 ->
  Forall (fun o => is_skipped o = true) os ->
  let commit := {| UpdatedRecords := [] |} in
  length os = length records
  /\ snd (Export env s) = after s3 [EvUpdateCacheLayers commit]
  /\ (exists evs, s3 = after s evs /\ UpdateCacheLayers_calls evs = [])
  /\ fst (Export env s)
     = Returned match env_UpdateCacheLayers env (st_trace s3) commit with
                | Some err => Err err
                | None => Ok tt
                end
  /\ (env_UpdateCacheLayers env (st_trace s3) commit = None ->
      Export env s = (Returned (Ok tt), after s3 [EvUpdateCacheLayers commit])).
Proof using Hwalk Hannounce.
  intros Hnonempty Hrun Hskipped commit.
  rewrite (Export_run os s3 Hnonempty Hrun).
  rewrite (skipped_not_failed os Hskipped), (reported_skipped os Hskipped).
  cbv zeta. fold commit.
  split; [eapply records_run_length; eauto using skipped_not_failed|].
  split; [reflexivity|].
  split; [by eapply Export_records_events|].
  split; [reflexivity|].
  by intros ->.
Qed.

End ExportClaims.

(** ** The view under the reader-writer lock *)

Lemma pc_of_goto (c : shared) (t t' : nat) (p : pc) :
  pc_of (goto t p c) t' = if decide (t = t') then p else pc_of c t'.
Proof.
  unfold pc_of, goto. simpl. destruct (decide (t = t')) as [->|Hne].
  - by rewrite lookup_insert_eq.
  - by rewrite lookup_insert_ne.
Qed.

Lemma pc_of_set_writer (c : shared) (w : option nat) (t : nat) :
  pc_of (set_writer w c) t = pc_of c t.
Proof. reflexivity. Qed.

Lemma pc_of_set_readers (c : shared) (r : gset nat) (t : nat) :
  pc_of (set_readers r c) t = pc_of c t.
Proof. reflexivity. Qed.

Lemma pc_of_set_inner (c : shared) (i : cell) (t : nat) :
  pc_of (set_inner i c) t = pc_of c t.
Proof. reflexivity. Qed.

Lemma pc_of_produce (c : shared) (v : CacheManager) (t : nat) :
  pc_of (produce v c) t = pc_of c t.
Proof. reflexivity. Qed.

Lemma mu_inv_init (view0 : CacheManager) : mu_inv view0 (mu_init view0).
Proof.
  split; unfold pc_of; simpl; intros; rewrite ?lookup_empty in *;
    simpl in *; try done.
  simplify_eq. apply elem_of_cons. by left.
Qed.

(** While a goroutine holds the lock for reading, or for writing
    outside a store, the field is whole. *)
Lemma mu_inv_whole_for (view0 : CacheManager) (c : shared) (t : nat) :
  mu_inv view0 c ->
  (holds_read (pc_of c t) = true
   \/ (holds_write (pc_of c t) = true /\ is_storing (pc_of c t) = false)) ->
  exists view, sh_inner c = whole view.
Proof.
  intros Hinv Hholds. destruct (sh_inner c) as [view|old new] eqn:Hinner;
    [eauto|exfalso].
  destruct (inv_torn _ _ Hinv old new Hinner) as (t' & Hstoring).
  assert (sh_writer c = Some t') as Hwriter.
  { apply (inv_writer _ _ Hinv). by destruct (pc_of c t'). }
  destruct Hholds as [Hread|[Hwrite Hnot]].
  - apply (inv_readers _ _ Hinv) in Hread.
    rewrite (inv_exclusive _ _ Hinv) in Hread by congruence.
    by apply elem_of_empty in Hread.
  - apply (inv_writer _ _ Hinv) in Hwrite. simplify_eq. congruence.
Qed.

Arguments pc_of : simpl never.

Ltac mu_simpl :=
  rewrite ?pc_of_goto, ?pc_of_set_writer, ?pc_of_set_readers,
    ?pc_of_set_inner, ?pc_of_produce;
  unfold goto, set_writer, set_readers, set_inner, produce;
  cbn [sh_inner sh_writer sh_readers sh_produced].

Lemma seen_of_holds (p : pc) (seen : cell) :
  seen_of p = Some seen -> holds_read p = true \/ holds_write p = true.
Proof. destruct p; simpl; intros; try discriminate; auto. Qed.

Lemma begin_store_torn (i : cell) (v : CacheManager) :
  exists old, begin_store i v = torn old v.
Proof. destruct i; simpl; eauto. Qed.

Lemma mu_inv_step (view0 : CacheManager) (c c' : shared) (t : nat) :
  mu_inv view0 c -> mu_step c t c' -> mu_inv view0 c'.
Proof.
  intros Hinv Hstep.
  pose proof (mu_inv_whole_for view0 c t Hinv) as Hwhole.
  destruct Hinv as [Hw Hr Hex Htorn Hseen Hwh Hb].
  pose proof (Hw t) as Hwt. pose proof (Hr t) as Hrt.
  pose proof (Hseen t) as Hseent. pose proof (Hb t) as Hbt.
  destruct Hstep as [c t v H|c t v H Hnw Hnr|c t v H|c t v H|c t H
                    |c t o H|c t o H Hnw|c t o H|c t o seen H|c t o seen H
                    |c t H|c t H Hnw Hnr|c t H|c t seen H|c t H];
    rewrite H in Hwt, Hrt, Hwhole, Hseent, Hbt;
    simpl in Hwt, Hrt, Hwhole, Hseent, Hbt;
    (split;
     [ (* inv_writer *)
       intros t0; pose proof (Hw t0) as Hw0; mu_simpl; case_decide; subst;
       simpl; clear Hseen Hwh Hb Htorn Hseent Hbt Hwhole Hr Hrt Hex Hw; naive_solver
     | (* inv_readers *)
       intros t0; pose proof (Hr t0) as Hr0; mu_simpl; case_decide; subst;
       simpl; clear Hseen Hwh Hb Htorn Hseent Hbt Hwhole Hw Hwt Hex Hr; set_solver
     | (* inv_exclusive *)
       mu_simpl;
       first [ exact Hex | done | intros Hne; rewrite (Hex Hne); set_solver
             | intros _; set_solver ]
     | (* inv_torn *)
       intros old new Hin;
       cbn [sh_inner goto set_writer set_readers set_inner produce] in Hin;
       first
         [ discriminate Hin
         | exists t; rewrite pc_of_goto; case_decide; [reflexivity|done]
         | destruct (Htorn old new Hin) as [t' Ht']; exists t';
           rewrite pc_of_goto; case_decide;
           [subst; rewrite H in Ht'; discriminate Ht'|exact Ht'] ]
     | (* inv_seen *)
       intros t0 seen0; rewrite pc_of_goto; case_decide;
       [ subst; simpl; intros Hs; try discriminate Hs;
         try (injection Hs as <-); mu_simpl;
         first [ by apply Hseent
               | destruct Hwhole as [view Hview]; [by auto|];
                 rewrite Hview; by eauto ]
       | intros Hs; mu_simpl;
         first [ by apply (Hseen t0)
               | exfalso; destruct (seen_of_holds _ _ Hs) as [Hrd|Hwr];
                 [ apply Hr in Hrd; rewrite Hex in Hrd;
                   [by apply elem_of_empty in Hrd|];
                   destruct Hwt as [Hwt' _]; by rewrite Hwt'
                 | apply Hw in Hwr; destruct Hwt as [Hwt' _];
                   rewrite Hwt' in Hwr by done; congruence ] ] ]
     | (* inv_whole *)
       mu_simpl; intros view Hview;
       first [ apply Hwh in Hview; set_solver
             | destruct (sh_inner c); discriminate Hview
             | injection Hview as <-; apply elem_of_cons; right;
               by apply Hbt ]
     | (* inv_building *)
       intros t0 view; rewrite pc_of_goto; case_decide;
       [ subst; simpl; intros Hbd; try discriminate Hbd; mu_simpl;
         first [ by apply Hbt
               | injection Hbd as <-; apply elem_of_cons; by left ]
       | intros Hbd; apply Hb in Hbd; mu_simpl;
         first [ exact Hbd | apply elem_of_cons; by right ] ] ]).
Qed.

Lemma mu_inv_reachable (view0 : CacheManager) (c : shared) :
  rtc mu_steps (mu_init view0) c -> mu_inv view0 c.
Proof.
  revert c. apply rtc_ind_r.
  - apply mu_inv_init.
  - intros c1 c2 _ [t Hstep] IH. by eapply mu_inv_step.
Qed.

(** C8.  At every moment of every interleaving of imports, readers and
    saves that starts from the manager [NewManager] returns: a step
    that changes the field [inner] is a step of the goroutine that
    holds the lock for writing, while no goroutine holds it for
    reading; and the view that a reader, under the read lock, has read
    and is using is a whole view, never a mixture of two, is still the
    installed view, and is the view of the initial import or the view
    built by one later import. *)
Theorem inner_swapped_under_write_lock (view0 : CacheManager) (c : shared) :
  rtc mu_steps (mu_init view0) c ->
  (forall t c',
     mu_step c t c' -> sh_inner c' <> sh_inner c ->
     sh_writer c = Some t /\ sh_readers c = ∅)
  /\ (forall t o seen,
        pc_of c t = read_call o seen \/ pc_of c t = read_RUnlock o seen ->
        t ∈ sh_readers c /\ sh_writer c = None
        /\ exists view,
             seen = whole view /\ sh_inner c = whole view
             /\ view ∈ view0 :: sh_produced c).
Proof.
  intros Hreach. apply mu_inv_reachable in Hreach as Hinv. split.
  - intros t c' Hstep Hchanged.
    assert (holds_write (pc_of c t) = true) as Hholds.
    { destruct Hstep as [c t v H|c t v H Hnw Hnr|c t v H|c t v H|c t H
                        |c t o H|c t o H Hnw|c t o H|c t o seen H
                        |c t o seen H|c t H|c t H Hnw Hnr|c t H
                        |c t seen H|c t H];
        try (by rewrite H); by destruct Hchanged. }
    apply (inv_writer _ _ Hinv) in Hholds. split; [exact Hholds|].
    apply (inv_exclusive _ _ Hinv). congruence.
  - intros t o seen Hpc.
    assert (holds_read (pc_of c t) = true) as Hholds.
    { by destruct Hpc as [-> | ->]. }
    assert (seen_of (pc_of c t) = Some seen) as Hseen.
    { by destruct Hpc as [-> | ->]. }
    apply (inv_readers _ _ Hinv) in Hholds.
    split; [exact Hholds|]. split.
    + destruct (sh_writer c) eqn:Hwriter; [|done].
      rewrite (inv_exclusive _ _ Hinv) in Hholds by congruence.
      by apply elem_of_empty in Hholds.
    + destruct (inv_seen _ _ Hinv t seen Hseen) as (-> & view & Hview).
      exists view. split; [done|]. split; [done|].
      by apply (inv_whole _ _ Hinv).
Qed.

(** * The properties on the example *)

(** C5 at the layer [layer1]: a descriptor is produced. *)
Lemma descriptorProviderPair_spec_witness :
  exists pair,
    descriptorProviderPair Example.env_ok Example.m Example.layer1 = Ok pair.
Proof.
  destruct (descriptorProviderPair_spec Example.env_ok Example.m
              Example.layer1) as (_ & _ & _ & Hproduced).
  eapply Hproduced; [reflexivity|discriminate|].
  intros _. eexists. reflexivity.
Defined.

(** C2 on a service whose [ImportCache] fails. *)
Lemma Import_error_keeps_view_witness :
  env_ImportCache Example.env_import_fails (st_trace Example.s0)
  = Err "import failed"
  /\ exists s',
       Import Example.env_import_fails Example.s0
       = (Returned (Err "import failed"), s')
       /\ inner (st_m s') = inner (st_m Example.s0).
Proof.
  split; [reflexivity|].
  destruct (Import_error_keeps_view Example.env_import_fails Example.s0)
    as (r & s' & Heq & Herr & _ & _ & Hfails & _).
  specialize (Hfails "import failed" eq_refl). subst r.
  exists s'. split; [exact Heq|]. by apply (Herr "import failed").
Defined.

(** C3 on a service that answers a zero export period. *)
Lemma NewManager_rejects_zero_period_witness :
  ExportPeriod Example.config_zero = 0
  /\ exists s,
       NewManager Example.env_zero (Example.managerConfig "https://cache") []
       = (Returned (Err ("invalid cache config: " +:+ periods_message)), s)
       /\ st_trace s
          = [] ++ NewManager_calls (Example.managerConfig "https://cache")
       /\ Forall (fun ev => is_go ev = false)
                 (NewManager_calls (Example.managerConfig "https://cache")).
Proof.
  split; [reflexivity|].
  apply (NewManager_rejects_zero_period Example.env_zero
           (Example.managerConfig "https://cache") [] Example.config_zero).
  - discriminate.
  - reflexivity.
  - reflexivity.
  - right. left. reflexivity.
Defined.

(** C6 on a configuration without a service URL. *)
Lemma NewManager_empty_ServiceURL_witness :
  exists s,
    NewManager Example.env_ok (Example.managerConfig "") []
    = (Returned (Ok (defaultCacheManager
                       (NewCacheManager "local" Example.keyStore "results"))),
       s)
    /\ st_trace s = [].
Proof.
  destruct (NewManager_empty_ServiceURL Example.env_ok
              (Example.managerConfig "") [] eq_refl) as [Hnew _].
  exact Hnew.
Defined.

(** C7 on a service whose [ImportCache] fails. *)
Lemma NewManager_initial_Import_error_witness :
  fst (NewManager Example.env_import_fails
         (Example.managerConfig "https://cache") [])
  = Returned (Err "import failed")
  /\ st_trace (snd (NewManager Example.env_import_fails
                      (Example.managerConfig "https://cache") []))
     = [ EvNewClient "https://cache";
         EvGetConfig {| GetConfigRequest_EngineID := "engine-1" |};
         EvImportCache ].
Proof.
  destruct (NewManager_initial_Import_error Example.env_import_fails
              (Example.managerConfig "https://cache") [] Example.config
              "import failed"
              (snd (Import Example.env_import_fails
                      {| st_m := configured_manager
                                   (Example.managerConfig "https://cache")
                                   Example.config;
                         st_trace := [] ++ NewManager_calls
                                       (Example.managerConfig "https://cache")
                      |})))
    as [Hnew _].
  - discriminate.
  - reflexivity.
  - reflexivity.
  - discriminate.
  - discriminate.
  - discriminate.
  - reflexivity.
  - rewrite Hnew. split; reflexivity.
Defined.

(** C10 on the manager of the example. *)
Lemma Close_twice_panics_witness :
  startCloseCh (st_m Example.s0) = chan_open
  /\ fst (Manager_Close ptr_manager wake_ctxDone
            (snd (Manager_Close ptr_manager wake_doneCh Example.s0)))
     = Panicked "close of closed channel".
Proof.
  split; [reflexivity|].
  destruct (Close_twice_panics Example.s0 wake_doneCh wake_ctxDone eq_refl)
    as (_ & _ & Hsecond).
  rewrite Hsecond. reflexivity.
Defined.


(** C1 on a service that asks for [R1], [R2] and [R3]. *)
Lemma Export_reports_uploaded_records_witness :
  Export_walk Example.env_ok Example.s0
  = (Returned (Ok (Example.walked_keys, Example.walked_links)), Example.s1)
  /\ env_UpdateCacheRecords Example.env_ok (st_trace Example.s1)
       Example.announce
     = Ok {| ExportRecords := [Example.R1; Example.R2; Example.R3] |}
  /\ exists os s3,
       records_run Example.env_ok Example.s2
         [Example.R1; Example.R2; Example.R3] os s3
       /\ length os = 3%nat
       /\ snd (Export Example.env_ok Example.s0)
          = after s3 [EvUpdateCacheLayers
                        {| UpdatedRecords := reported os |}].
Proof.
  split; [reflexivity|]. split; [reflexivity|].
  destruct (Export_reports_uploaded_records Example.env_ok Example.s0
              Example.walked_keys Example.walked_links Example.s1
              {| ExportRecords := [Example.R1; Example.R2; Example.R3] |}
              eq_refl eq_refl) as (_ & Hok & _).
  destruct (Hok (snd (Export Example.env_ok Example.s0)))
    as (os & s3 & evs & Hrun & Hlen & _ & _ & _ & _ & Hs');
    [discriminate|vm_compute; reflexivity|].
  exists os, s3. split; [exact Hrun|]. split; [exact Hlen|exact Hs'].
Defined.

(** C9 on a service that asks for [R2] and [R3]. *)
Lemma Export_all_skipped_commits_witness :
  records_run Example.env_skipped Example.s2 [Example.R2; Example.R3]
    [skipped_no_remotes; skipped_not_found "not found"] Example.s3
  /\ Export Example.env_skipped Example.s0
     = (Returned (Ok tt),
        after Example.s3 [EvUpdateCacheLayers {| UpdatedRecords := [] |}]).
Proof.
  assert (records_run Example.env_skipped Example.s2 [Example.R2; Example.R3]
            [skipped_no_remotes; skipped_not_found "not found"] Example.s3)
    as Hrun.
  { eapply records_next with
      (s1 := after Example.s2 [EvWorkerGet "ref2"; EvGetRemotes Example.ref2;
                               EvRefRelease Example.ref2]).
    - by apply (run_no_remotes Example.env_skipped Example.s2 Example.R2
                  Example.ref2).
    - reflexivity.
    - eapply records_next; [|reflexivity|apply records_done].
      exact (run_not_found Example.env_skipped _ Example.R3 "not found"
               eq_refl). }
  split; [exact Hrun|].
  destruct (Export_all_skipped_commits Example.env_skipped Example.s0
              Example.walked_keys Example.walked_links Example.s1
              {| ExportRecords := [Example.R2; Example.R3] |}
              eq_refl eq_refl
              [skipped_no_remotes; skipped_not_found "not found"] Example.s3)
    as (_ & _ & _ & _ & Hsuccess).
  - discriminate.
  - exact Hrun.
  - repeat constructor.
  - apply Hsuccess. reflexivity.
Defined.

(** C8 on a reader that holds the read lock. *)
Lemma inner_swapped_under_write_lock_witness :
  rtc mu_steps (mu_init Example.view0) Example.reading
  /\ sh_inner Example.reading = whole Example.view0
  /\ sh_writer Example.reading = None.
Proof.
  assert (rtc mu_steps (mu_init Example.view0) Example.reading) as Hreach.
  { apply rtc_l with Example.waiting.
    { exists 1%nat.
      exact (step_read_called (mu_init Example.view0) 1 op_Query eq_refl). }
    apply rtc_l with Example.locked.
    { exists 1%nat.
      exact (step_read_RLock Example.waiting 1 op_Query eq_refl eq_refl). }
    apply rtc_once. exists 1%nat.
    exact (step_read_inner Example.locked 1 op_Query eq_refl). }
  split; [exact Hreach|].
  destruct (inner_swapped_under_write_lock Example.view0 Example.reading
              Hreach) as [_ Hreader].
  destruct (Hreader 1%nat op_Query (whole Example.view0))
    as (_ & Hwriter & view & Hseen & Hinner & _); [by left|].
  split; [|exact Hwriter]. rewrite Hinner. by rewrite Hseen.
Defined.

(** * More properties of the manager *)

(** ** Computations that return *)

Section Returns.

Context {A : Type} (P : Event -> bool).

Lemma returns_mret (a : A) : returns P (mret a : M A).
Proof. intros s. exists (Ok a), []. by rewrite after_nil. Qed.

Lemma returns_fail (e : error) : returns P (fail e : M A).
Proof. intros s. exists (Err e), []. by rewrite after_nil. Qed.

Lemma returns_or_return (r : result A) : returns P (or_return r).
Proof. intros s. exists r, []. by rewrite or_return_run, after_nil. Qed.

Lemma returns_call (answer : Trace -> A) (ev : Event) :
  P ev = true -> returns P (call answer ev).
Proof.
  intros Hev s. exists (Ok (answer (st_trace s))), [ev].
  split; [reflexivity|]. by constructor.
Qed.

Lemma returns_bind {B} (c : M B) (k : B -> M A) :
  returns P c -> (forall b, returns P (k b)) -> returns P (c ≫= k).
Proof.
  intros Hc Hk s. rewrite bind_run.
  destruct (Hc s) as ([b|e] & evs1 & -> & Hevs1); [|by eauto].
  destruct (Hk b (after s evs1)) as (r & evs2 & -> & Hevs2).
  exists r, (evs1 ++ evs2). rewrite after_after. split; [done|].
  by apply Forall_app.
Qed.

Lemma returns_defer (cleanup : M unit) (body : M A) :
  returns P cleanup -> returns P body -> returns P (defer cleanup body).
Proof.
  intros Hcleanup Hbody s. rewrite defer_run.
  destruct (Hbody s) as (r & evs1 & -> & Hevs1).
  destruct (Hcleanup (after s evs1)) as (r' & evs2 & -> & Hevs2).
  exists r, (evs1 ++ evs2). cbn [snd]. rewrite after_after.
  split; [done|]. by apply Forall_app.
Qed.

Lemma returns_weaken (Q : Event -> bool) (c : M A) :
  (forall ev, Q ev = true -> P ev = true) -> returns Q c -> returns P c.
Proof.
  intros HQP Hc s. destruct (Hc s) as (r & evs & Heq & Hevs).
  exists r, evs. split; [done|]. eapply Forall_impl; [exact Hevs|].
  exact HQP.
Qed.

End Returns.

Lemma returns_emit (P : Event -> bool) (ev : Event) :
  P ev = true -> returns P (emit ev).
Proof.
  intros Hev s. exists (Ok tt), [ev]. split; [reflexivity|]. by constructor.
Qed.

Lemma returns_get_m (P : Event -> bool) : returns P get_m.
Proof. intros s. exists (Ok (st_m s)), []. by rewrite after_nil. Qed.

Lemma returns_forEach {A S} (P : Event -> bool) (items : list A)
    (fn : A -> S -> M S) (acc : S) :
  (forall x acc, returns P (fn x acc)) -> returns P (forEach items fn acc).
Proof.
  intros Hfn. revert acc. induction items as [|x items IH]; intros acc.
  - apply returns_mret.
  - cbn [forEach]. apply returns_bind; [apply Hfn|]. intros acc'. apply IH.
Qed.

Lemma returns_walk {A S} (P : Event -> bool) (store : list A * option error)
    (fn : A -> S -> M S) (acc : S) :
  (forall x acc, returns P (fn x acc)) -> returns P (walk store fn acc).
Proof.
  intros Hfn. unfold walk. apply returns_bind; [by apply returns_forEach|].
  intros acc'. destruct (snd store); [apply returns_fail|apply returns_mret].
Qed.

Lemma returns_logged {A} (P : Event -> bool) (c : M A) :
  returns P c -> returns P (logged c).
Proof.
  intros Hc s. unfold logged. destruct (Hc s) as (r & evs & -> & Hevs).
  by exists (Ok tt), evs.
Qed.

Section ManagerReturns.

Variable env : Env.

Lemma Export_walk_returns : returns is_result_event (Export_walk env).
Proof.
  unfold Export_walk. apply returns_bind; [apply returns_get_m|]. intros m.
  apply returns_walk. intros id [cacheKeys links]. unfold Export_key.
  apply returns_bind.
  { apply returns_walk. intros [linkedID linkInfo] acc. apply returns_mret. }
  intros links'. apply returns_bind; [|intros; apply returns_mret].
  apply returns_walk. intros cacheResult cacheKey. unfold Export_result.
  apply returns_bind; [by apply returns_call|]. intros [res|err].
  - apply returns_defer; [by apply returns_emit|].
    destruct (SolverResult_Sys res); apply returns_mret.
  - apply returns_mret.
Qed.

Lemma pushLayer_returns' (layer : Descriptor) (provider : Provider) :
  returns is_upload (pushLayer env layer provider).
Proof. intros s. apply pushLayer_returns. Qed.

Lemma Export_record_returns (record : ExportRecord)
    (acc : list RecordLayers) :
  returns is_record_event (Export_record env record acc).
Proof.
  intros s. destruct (record_run_total env s record) as (o & s' & Hrun).
  rewrite (Export_record_run env _ _ _ _ acc Hrun).
  apply record_run_events in Hrun as (evs & -> & Hevs). eauto.
Qed.

Lemma Export_runs : returns is_export_event (Export env).
Proof.
  unfold Export. apply returns_bind.
  { eapply returns_weaken; [|apply Export_walk_returns].
    intros ev Hev. by destruct ev. }
  intros [cacheKeys links]. apply returns_bind; [by apply returns_call|].
  intros r. apply returns_bind; [apply returns_or_return|]. intros resp.
  destruct (decide _); [apply returns_mret|].
  apply returns_bind.
  { apply returns_forEach. intros record acc.
    eapply returns_weaken; [|apply Export_record_returns].
    intros ev Hev. destruct ev; try done; simpl in *; by rewrite ?Hev. }
  intros updatedRecords. apply returns_bind; [by apply returns_call|].
  intros [err|]; [apply returns_fail|apply returns_mret].
Qed.


End ManagerReturns.

Lemma st_trace_after (s : State) (evs : list Event) :
  st_trace (after s evs) = st_trace s ++ evs.
Proof. reflexivity. Qed.

Lemma st_m_after (s : State) (evs : list Event) : st_m (after s evs) = st_m s.
Proof. reflexivity. Qed.

(** ** pushLayer *)

Section PushLayer.

Variable env : Env.
Variable layer : Descriptor.
Variable provider : Provider.
Variable s : State.

Let getURLReq :=
  {| GetLayerUploadURLRequest_Digest := Descriptor_Digest layer |}.

(** X2: when the service gives no upload URL, [pushLayer] returns that
    error and opens nothing; when the provider cannot open the blob, it
    returns that error and sends no request.  Once the blob is open,
    [pushLayer] closes its reader exactly once, as the last thing it
    does: after a request that cannot be built, after a PUT that
    fails, and after a PUT that is answered, in which case the body of
    the response is closed first.  An answer with the status 200 makes
    it return nil, and any other status the error "unexpected status
    code" followed by the status in decimal. *)
Theorem pushLayer_closes_reader :
  match env_GetLayerUploadURL env (st_trace s) getURLReq with
  | Err e =>
      pushLayer env layer provider s
      = (Returned (Err e), after s [EvGetLayerUploadURL getURLReq])
  | Ok getURLResp =>
      let opened :=
        [EvGetLayerUploadURL getURLReq; EvReaderAt provider layer] in
      match env_ReaderAt env (st_trace s ++ [EvGetLayerUploadURL getURLReq])
              provider layer with
      | Err e => pushLayer env layer provider s = (Returned (Err e), after s opened)
      | Ok readerAt =>
          let req := {| Request_Method := "PUT";
                        Request_URL := URL getURLResp;
                        Request_Body := (provider, layer);
                        Request_ContentLength := ReaderAt_Size readerAt |} in
          match env_NewRequest env "PUT" (URL getURLResp) with
          | Some e =>
              pushLayer env layer provider s
              = (Returned (Err e),
                 after s (opened ++ [EvReaderClose provider layer]))
          | None =>
              match env_HTTPDo env (st_trace s ++ opened) req with
              | Err e =>
                  pushLayer env layer provider s
                  = (Returned (Err e),
                     after s (opened ++ [EvHTTPDo req;
                                         EvReaderClose provider layer]))
              | Ok resp =>
                  pushLayer env layer provider s
                  = (Returned
                       (if decide (StatusCode resp = StatusOK) then Ok tt
                        else Err ("unexpected status code "
                                  +:+ pretty (StatusCode resp))),
                     after s (opened ++ [EvHTTPDo req; EvBodyClose req;
                                         EvReaderClose provider layer]))
              end
          end
      end
  end.
Proof.
  subst getURLReq. unfold pushLayer. run.
  destruct (env_GetLayerUploadURL env (st_trace s) _) as [resp|e]; simpl;
    [|reflexivity].
  destruct (env_ReaderAt env _ provider layer) as [readerAt|e]; simpl.
  2:{ by rewrite <- app_assoc. }
  destruct (env_NewRequest env "PUT" (URL resp)) as [e|]; simpl.
  { by rewrite <- !app_assoc. }
  rewrite <- app_assoc. simpl.
  destruct (env_HTTPDo env _ _) as [resp'|e]; simpl.
  2:{ by rewrite <- !app_assoc. }
  destruct (decide (StatusCode resp' ≠ StatusOK)) as [Hne|Heq];
    destruct (decide (StatusCode resp' = StatusOK)) as [Heq'|Hne'];
    try done; simpl; by rewrite <- !app_assoc.
Qed.

End PushLayer.

(** ** The handling of a record *)

Section ExportRecordMore.

Variable env : Env.
Variable record : ExportRecord.
Variable acc : list RecordLayers.
Variable s : State.

Let id := Record_CacheRefID record.

(** X3: a ref that the worker does not hand out is never released; a
    ref that it hands out is released exactly once, as the last thing
    the handling of the record does, whether the remotes cannot be
    computed, there are none, a push fails or all succeed.  Between the
    two, only upload calls are made. *)
Theorem Export_record_releases_ref :
  match env_WorkerGet env (st_trace s) id with
  | Err _ =>
      Export_record env record acc s
      = (Returned (Ok acc), after s [EvWorkerGet id])
  | Ok cacheRef =>
      exists r evs,
        Export_record env record acc s
        = (Returned r,
           after s ([EvWorkerGet id; EvGetRemotes cacheRef]
                    ++ evs ++ [EvRefRelease cacheRef]))
        /\ Forall (fun ev => is_upload ev = true) evs
  end.
Proof.
  subst id. unfold Export_record. rewrite bind_run, call_run.
  destruct (env_WorkerGet env (st_trace s) (Record_CacheRefID record))
    as [cacheRef|e]; [|reflexivity].
  cbv beta iota. rewrite defer_run, bind_run, call_run. cbv beta iota.
  rewrite bind_run, or_return_run, after_after. cbn [app].
  destruct (env_GetRemotes env _ cacheRef) as [[|remote remotes]|e].
  - exists (Ok acc), []. rewrite mret_run, emit_run, after_after.
    split; [reflexivity|done].
  - rewrite bind_run.
    destruct (pushLayers_run env (Remote_Provider remote)
                (Remote_Descriptors remote)
                (after s [EvWorkerGet (Record_CacheRefID record);
                          EvGetRemotes cacheRef]))
      as [(s' & Hrun & ->)|(err & s' & Hrun & ->)].
    + apply layers_pushed_events in Hrun as (evs & -> & Hevs).
      rewrite mret_run, emit_run. cbn [snd]. rewrite !after_after.
      eexists _, evs. split; [|exact Hevs]. same_state.
    + apply layers_push_fails_events in Hrun as (evs & -> & Hevs).
      rewrite emit_run. cbn [snd]. rewrite !after_after.
      eexists _, evs. split; [|exact Hevs]. same_state.
  - exists (Err e), []. rewrite emit_run, after_after.
    split; [reflexivity|done].
Qed.

(** X4: of the remotes of a ref only the first is used: its layers are
    the ones pushed, with its provider, and the ones reported; the
    other remotes change nothing. *)
Theorem Export_record_first_remote (cacheRef : ImmutableRef)
    (remote : Remote) (remotes : list Remote) :
  env_WorkerGet env (st_trace s) id = Ok cacheRef ->
  env_GetRemotes env (st_trace s ++ [EvWorkerGet id]) cacheRef
  = Ok (remote :: remotes) ->
  exists r s',
    pushLayers env (Remote_Descriptors remote) (Remote_Provider remote)
      (after s [EvWorkerGet id; EvGetRemotes cacheRef])
    = (Returned r, s')
    /\ Export_record env record acc s
       = (Returned
            match r with
            | Ok _ =>
                Ok (acc ++
                    [ {| RecordLayers_RecordDigest := Record_Digest record;
                         RecordLayers_Layers := Remote_Descriptors remote |} ])
            | Err e => Err e
            end,
          after s' [EvRefRelease cacheRef]).
Proof.
  subst id. intros Hget Hremotes.
  unfold Export_record. rewrite bind_run, call_run, Hget.
  cbv beta iota. rewrite defer_run, bind_run, call_run. cbv beta iota.
  rewrite st_trace_after, Hremotes.
  rewrite bind_run, or_return_run, after_after. cbn [app].
  rewrite bind_run.
  destruct (pushLayers_run env (Remote_Provider remote)
              (Remote_Descriptors remote)
              (after s [EvWorkerGet (Record_CacheRefID record);
                        EvGetRemotes cacheRef]))
    as [(s' & _ & ->)|(err & s' & _ & ->)].
  - eexists (Ok tt), s'. split; [reflexivity|].
    by rewrite mret_run, emit_run.
  - eexists (Err err), s'. split; [reflexivity|]. by rewrite emit_run.
Qed.

End ExportRecordMore.

(** ** The errors of Export *)

Section ExportErrors.

Variable env : Env.
Variable s : State.

Let ks := KeyStore (manager_ManagerConfig (st_m s)).

(** The closure of the walk, on a key whose backlinks the store fails
    to walk: the error, and nothing is loaded. *)
Lemma Export_key_backlinks_error (id : string) (acc : list CacheKey * list Link)
    (e : error) (t : State) :
  snd (KeyStore_WalkBacklinks ks id) = Some e ->
  Export_key env ks id acc t = (Returned (Err e), t).
Proof.
  intros Hfail. destruct acc as [cacheKeys links]. unfold Export_key.
  rewrite bind_run. unfold walk. rewrite bind_run, forEach_backlinks.
  cbv beta iota. rewrite Hfail. reflexivity.
Qed.

(** X5: when the store fails to walk the backlinks of a key, [Export]
    returns that error: the keys before it have been visited, the
    results of that key and the keys after it are not loaded, and the
    service is not called. *)
Theorem Export_backlinks_error (before rest : list string) (id : string)
    (e : error) :
  fst (KeyStore_Walk ks) = before ++ id :: rest ->
  (forall id', snd (KeyStore_WalkBacklinks ks id') = None \/ id' = id) ->
  (forall id', snd (KeyStore_WalkResults ks id') = None) ->
  id ∉ before ->
  snd (KeyStore_WalkBacklinks ks id) = Some e ->
  exists cacheKeys s',
    keys_run env ks s before cacheKeys s'
    /\ Export env s = (Returned (Err e), s').
Proof.
  intros Hids Hbacklinks Hresults Hnotin Hfail.
  assert (forall ids acc t,
            id ∉ ids ->
            exists keys t',
              keys_run env ks t ids keys t'
              /\ forEach (ids ++ id :: rest) (Export_key env ks) acc t
                 = (Returned (Err e), t')) as Hloop.
  { induction ids as [|id' ids IH]; intros [cacheKeys links] t Hnot;
      cbn [app forEach].
    - exists [], t. split; [constructor|].
      by rewrite bind_run, (Export_key_backlinks_error id _ e).
    - apply not_elem_of_cons in Hnot as [Hne Hnot].
      rewrite bind_run.
      destruct (Export_key_run env ks id' cacheKeys links t)
        as (rs & t1 & Hrun & ->); [|done|].
      { destruct (Hbacklinks id') as [?|?]; [done|congruence]. }
      destruct (IH (cacheKeys ++ [ {| CacheKey_ID := id';
                                      CacheKey_Results := rs |} ],
                    links ++ map (Link_of id')
                                 (fst (KeyStore_WalkBacklinks ks id')))
                   t1 Hnot) as (keys & t' & Hkeys & ->).
      eexists _, t'. split; [by eapply keys_next|reflexivity]. }
  destruct (Hloop before ([], []) s Hnotin) as (keys & s' & Hkeys & Heq).
  exists keys, s'. split; [exact Hkeys|].
  unfold Export, Export_walk. rewrite !bind_run. unfold get_m at 1.
  cbv beta iota. fold ks. unfold walk. rewrite bind_run, Hids, Heq.
  reflexivity.
Qed.

(** X6: when the store ends the walk of its keys with an error of its
    own, [Export] returns that error after the visit of every key, and
    the service is not called. *)
Theorem Export_walk_error (e : error) :
  snd (KeyStore_Walk ks) = Some e ->
  (forall id, snd (KeyStore_WalkBacklinks ks id) = None) ->
  (forall id, snd (KeyStore_WalkResults ks id) = None) ->
  exists cacheKeys s',
    keys_run env ks s (fst (KeyStore_Walk ks)) cacheKeys s'
    /\ Export env s = (Returned (Err e), s').
Proof.
  intros Hfail Hbacklinks Hresults.
  destruct (forEach_keys_run env ks (fst (KeyStore_Walk ks)) [] [] s
              Hbacklinks Hresults) as (keys & s' & Hkeys & Heq).
  exists keys, s'. split; [exact Hkeys|].
  unfold Export, Export_walk. rewrite !bind_run. unfold get_m at 1.
  cbv beta iota. fold ks. unfold walk. rewrite bind_run, Heq.
  cbv beta iota. rewrite Hfail. reflexivity.
Qed.

(** X7: [Export] returns the error of [UpdateCacheRecords] without
    fetching any ref or uploading anything, and the error of
    [UpdateCacheLayers] after the records have been handled. *)
Theorem Export_service_errors (cacheKeys : list CacheKey)
    (links : list Link) (s1 : State) :
  Export_walk env s = (Returned (Ok (cacheKeys, links)), s1) ->
  let req := {| CacheKeys := cacheKeys; Links := links |} in
  let s2 := after s1 [EvUpdateCacheRecords req] in
  (forall e,
     env_UpdateCacheRecords env (st_trace s1) req = Err e ->
     Export env s = (Returned (Err e), s2))
  /\ (forall resp os s3 e,
        env_UpdateCacheRecords env (st_trace s1) req = Ok resp ->
        ExportRecords resp <> [] ->
        records_run env s2 (ExportRecords resp) os s3 ->
        failure_of os = None ->
        env_UpdateCacheLayers env (st_trace s3)
          {| UpdatedRecords := reported os |} = Some e ->
        Export env s
        = (Returned (Err e),
           after s3 [EvUpdateCacheLayers
                       {| UpdatedRecords := reported os |}])).
Proof.
  intros Hwalk req s2. split.
  - intros e Hannounce. unfold Export. rewrite bind_run, Hwalk.
    cbv beta iota. rewrite bind_run, call_run. cbv beta iota. fold req.
    rewrite Hannounce, bind_run, or_return_run. reflexivity.
  - intros resp os s3 e Hannounce Hnonempty Hrun Hok Hcommit.
    rewrite (Export_run env s cacheKeys links s1 resp Hwalk Hannounce os s3
               Hnonempty Hrun).
    rewrite Hok. cbv zeta. by rewrite Hcommit.
Qed.

End ExportErrors.

(** ** NewManager: the other ways out *)

Section NewManagerMore.

Variable env : Env.
Variable managerConfig : ManagerConfig.
Variable tr : Trace.

Let url := ServiceURL managerConfig.
Let getConfigReq :=
  {| GetConfigRequest_EngineID := EngineID managerConfig |}.

(** X8: with a service URL, [NewManager] returns the error of
    [newClient] after that one call, and the error of [GetConfig]
    after these two calls: in both cases no import is made and no
    goroutine is started. *)
Theorem NewManager_client_errors :
  url <> "" ->
  (forall e,
     env_newClient env tr url = Some e ->
     NewManager env managerConfig tr
     = (Returned (Err e),
        {| st_m := initial_manager managerConfig;
           st_trace := tr ++ [EvNewClient url] |}))
  /\ (forall e,
        env_newClient env tr url = None ->
        env_GetConfig env (tr ++ [EvNewClient url]) getConfigReq = Err e ->
        exists s,
          NewManager env managerConfig tr = (Returned (Err e), s)
          /\ st_trace s = tr ++ NewManager_calls managerConfig
          /\ inner (st_m s) = None).
Proof.
  intros Hurl. subst url getConfigReq. split.
  - intros e Hclient. unfold NewManager, NewManager_body. run.
    destruct (decide (ServiceURL managerConfig = "")) as [|_]; [done|].
    simpl. rewrite Hclient. reflexivity.
  - intros e Hclient Hconfig. unfold NewManager, NewManager_body. run.
    destruct (decide (ServiceURL managerConfig = "")) as [|_]; [done|].
    simpl. rewrite Hclient. simpl. rewrite Hconfig. simpl.
    eexists. split; [reflexivity|]. simpl.
    split; [by rewrite <- app_assoc|reflexivity].
Qed.

(** X9: with a service URL, a client, a configuration without a zero
    and an initial import that succeeds, [NewManager] returns the
    manager and starts, in this order, the goroutine that cancels the
    imports at shutdown, the import loop with the import period and the
    export loop with the export period and timeout.  The manager it
    returns serves the view of the initial import over the local cache,
    has the configuration of the service, and has both channels open. *)
Theorem NewManager_success (config : Config) (s' : State) :
  url <> "" ->
  env_newClient env tr url = None ->
  env_GetConfig env (tr ++ [EvNewClient url]) getConfigReq = Ok config ->
  ImportPeriod config <> 0 ->
  ExportPeriod config <> 0 ->
  ExportTimeout config <> 0 ->
  Import env {| st_m := configured_manager managerConfig config;
                st_trace := tr ++ NewManager_calls managerConfig |}
  = (Returned (Ok tt), s') ->
  NewManager env managerConfig tr
  = (Returned (Ok ptr_manager),
     after s' [ EvGo cancelImportOnClose;
                EvGo (importLoop (ImportPeriod config));
                EvGo (exportLoop (ExportPeriod config)
                                 (ExportTimeout config)) ])
  /\ st_trace s' = tr ++ NewManager_calls managerConfig ++ [EvImportCache]
  /\ serving (st_m s')
  /\ localCache (st_m s')
     = NewCacheManager "local" (KeyStore managerConfig)
                       (ResultStore managerConfig)
  /\ runtimeConfig (st_m s') = config
  /\ cacheClient (st_m s') = Some (client url)
  /\ startCloseCh (st_m s') = chan_open
  /\ doneCh (st_m s') = chan_open.
Proof.
  intros Hurl Hclient Hconfig Hi He Ht Himport.
  rewrite (NewManager_reaches_Import env managerConfig tr config)
    by assumption.
  rewrite Himport. split; [reflexivity|].
  rewrite Import_run in Himport. cbv zeta in Himport.
  destruct (env_ImportCache env _) as [cacheConfig|]; [|discriminate].
  destruct (descProvider_of env _ _ _) as [descProvider|]; [|discriminate].
  destruct (env_ParseConfig env _ _); [discriminate|].
  destruct (env_NewCacheKeyStorage env _ _) as [[keyStore resultStore]|];
    [|discriminate].
  injection Himport as <-. simpl.
  split; [by rewrite <- app_assoc|].
  split; [by exists keyStore, resultStore|]. done.
Qed.

End NewManagerMore.

(** ** The solver-facing operations of the manager *)

Section SolverFacing.

Variable env : Env.

(** What the four operations do, by the view [inner] holds. *)
Lemma inner_operations (s : State) :
  match inner (st_m s) with
  | Some view =>
      (forall args,
         Query env args s
         = (Returned (env_Query env (st_trace s) view args),
            after s [EvQuery view args]))
      /\ (forall ck,
            Records env ck s
            = (Returned (env_Records env (st_trace s) view ck),
               after s [EvRecords view ck]))
      /\ (forall rec,
            Load env rec s
            = (Returned (env_Load env (st_trace s) view rec),
               after s [EvLoad view rec]))
      /\ (forall args,
            Save env args s
            = (Returned (env_Save env (st_trace s) view args),
               after s [EvSave view args]))
  | None =>
      (forall args, Query env args s = (Panicked nil_dereference, s))
      /\ (forall ck, Records env ck s = (Panicked nil_dereference, s))
      /\ (forall rec, Load env rec s = (Panicked nil_dereference, s))
      /\ (forall args, Save env args s = (Panicked nil_dereference, s))
  end.
Proof.
  unfold Query, Records, Load, Save.
  destruct (inner (st_m s)) as [view|] eqn:Hinner.
  - repeat split; intros; rewrite bind_run; unfold get_m at 1;
      cbv beta iota; rewrite Hinner, bind_run, call_run;
      cbv beta iota; apply or_return_run.
  - repeat split; intros; rewrite bind_run; unfold get_m at 1;
      cbv beta iota; by rewrite Hinner.
Qed.

(** [Import] returns, and either leaves the manager as it was or
    installs a view over its local cache. *)
Lemma Import_cases (s : State) :
  exists r m',
    Import env s = (Returned r, {| st_m := m';
                                   st_trace := st_trace s ++ [EvImportCache] |})
    /\ match r with
       | Err _ => m' = st_m s
       | Ok _ =>
           exists keyStore resultStore,
             m' = with_inner
                    (Some (imported_view (st_m s) keyStore resultStore))
                    (st_m s)
       end.
Proof.
  rewrite Import_run. cbv zeta.
  destruct (env_ImportCache env _) as [cacheConfig|e];
    [|by exists (Err e), (st_m s)].
  destruct (descProvider_of env _ _ _) as [descProvider|e];
    [|by exists (Err e), (st_m s)].
  destruct (env_ParseConfig env _ _) as [e|]; [by exists (Err e), (st_m s)|].
  destruct (env_NewCacheKeyStorage env _ _) as [[keyStore resultStore]|e];
    [|by exists (Err e), (st_m s)].
  eexists (Ok tt), _. split; [reflexivity|]. by exists keyStore, resultStore.
Qed.

(** X10: the operations of the solver that follow an [Import] are
    answered by the view that import built when the import succeeded,
    and by the view that was installed before when the import failed:
    each of [Query], [Records], [Load] and [Save] is then one call of
    the same operation on that view and returns what the call
    returns. *)
Theorem operations_after_Import (s : State) (view : CacheManager) :
  inner (st_m s) = Some view ->
  exists r s1 view',
    Import env s = (Returned r, s1)
    /\ match r with
       | Err _ => view' = view
       | Ok _ =>
           exists keyStore resultStore,
             view' = imported_view (st_m s) keyStore resultStore
       end
    /\ (forall args,
          Query env args s1
          = (Returned (env_Query env (st_trace s1) view' args),
             after s1 [EvQuery view' args]))
    /\ (forall ck,
          Records env ck s1
          = (Returned (env_Records env (st_trace s1) view' ck),
             after s1 [EvRecords view' ck]))
    /\ (forall rec,
          Load env rec s1
          = (Returned (env_Load env (st_trace s1) view' rec),
             after s1 [EvLoad view' rec]))
    /\ (forall args,
          Save env args s1
          = (Returned (env_Save env (st_trace s1) view' args),
             after s1 [EvSave view' args])).
Proof.
  intros Hview. destruct (Import_cases s) as (r & m' & Heq & Hm).
  pose proof (inner_operations
                {| st_m := m';
                   st_trace := st_trace s ++ [EvImportCache] |}) as Hops.
  cbn [st_m] in Hops. destruct r as [[]|e].
  - destruct Hm as (keyStore & resultStore & ->).
    cbn [inner with_inner] in Hops.
    eexists (Ok tt), _, _. split; [exact Heq|].
    split; [by exists keyStore, resultStore|exact Hops].
  - subst m'. rewrite Hview in Hops.
    eexists (Err e), _, view. split; [exact Heq|]. split; [done|exact Hops].
Qed.

End SolverFacing.

(** ** The loops of NewManager *)

Section Loops.

Variable env : Env.

Lemma logged_Export (s : State) :
  logged (Export env) s = (Returned (Ok tt), snd (Export env s))
  /\ st_m (snd (Export env s)) = st_m s.
Proof.
  unfold logged. destruct (Export_runs env s) as (r & evs & -> & _). done.
Qed.

Lemma exports_m (n : nat) (s : State) : st_m (exports env n s) = st_m s.
Proof.
  revert s. induction n as [|n IH]; intros s; [reflexivity|].
  simpl. rewrite IH. apply logged_Export.
Qed.

Lemma exports_S (n : nat) (s : State) :
  exports env (S n) s = snd (Export env (exports env n s)).
Proof.
  revert s. induction n as [|n IH]; intros s; [reflexivity|].
  change (exports env (S (S n)) s)
    with (exports env (S n) (snd (Export env s))).
  rewrite IH. reflexivity.
Qed.

Lemma select_fired_run (race : Fired) (s : State) :
  select_fired race s
  = (Returned (Ok match startCloseCh (st_m s) with
                  | chan_open => fired_timer
                  | chan_closed => race
                  end), s).
Proof.
  unfold select_fired. rewrite bind_run. unfold get_m at 1. cbv beta iota.
  by destruct (startCloseCh (st_m s)).
Qed.

(** The export loop while [startCloseCh] is open. *)
Lemma export_loop_open (races : list Fired) (s : State) :
  startCloseCh (st_m s) = chan_open ->
  export_loop env races s = (Blocked, exports env (length races) s)
  /\ st_m (exports env (length races) s) = st_m s.
Proof.
  intros Hopen. split; [|apply exports_m].
  unfold export_loop. rewrite defer_run.
  assert (export_loop_for env races s
          = (Blocked, exports env (length races) s)) as ->; [|reflexivity].
  revert s Hopen. induction races as [|race races IH]; intros s Hopen;
    [reflexivity|].
  cbn [export_loop_for length]. rewrite bind_run, select_fired_run, Hopen.
  cbv beta iota zeta. rewrite bind_run.
  destruct (logged_Export s) as [-> Hm]. cbv beta iota.
  rewrite IH by congruence. reflexivity.
Qed.

(** The export loop from a closed [startCloseCh]. *)
Lemma export_loop_closing (n : nat) (rest : list Fired) (s : State) :
  startCloseCh (st_m s) = chan_closed ->
  doneCh (st_m s) = chan_open ->
  export_loop env (replicate n fired_timer ++ fired_startCloseCh :: rest) s
  = (Returned (Ok tt), done (exports env (S n) s)).
Proof.
  intros Hclosed Hdone. unfold export_loop. rewrite defer_run.
  assert (export_loop_for env
            (replicate n fired_timer ++ fired_startCloseCh :: rest) s
          = (Returned (Ok tt), exports env (S n) s)) as ->.
  { revert s Hclosed Hdone. induction n as [|n IH]; intros s Hclosed Hdone.
    - cbn [replicate app export_loop_for].
      rewrite bind_run, select_fired_run, Hclosed. cbv beta iota zeta.
      rewrite bind_run. destruct (logged_Export s) as [-> _]. reflexivity.
    - cbn [replicate app export_loop_for].
      rewrite bind_run, select_fired_run, Hclosed. cbv beta iota zeta.
      rewrite bind_run. destruct (logged_Export s) as [-> Hm].
      cbv beta iota. rewrite IH by congruence. reflexivity. }
  unfold close_doneCh. rewrite bind_run. unfold get_m at 1. cbv beta iota.
  rewrite exports_m, Hdone. unfold done. by rewrite exports_m.
Qed.

(** X11: while [startCloseCh] is open, the export loop exports once per
    tick of its timer, whatever the exports return, and does not
    return.  Once [startCloseCh] is closed it may still take ticks,
    with an export each; when it takes the closed channel it exports
    exactly once more, whatever that export returns, then closes
    [doneCh] and returns.  Until then [doneCh] stays open. *)
Theorem export_loop_final_export (n : nat) (races rest : list Fired)
    (s : State) :
  doneCh (st_m s) = chan_open ->
  (startCloseCh (st_m s) = chan_open ->
   export_loop env races s = (Blocked, exports env (length races) s))
  /\ (startCloseCh (st_m s) = chan_closed ->
      export_loop env (replicate n fired_timer ++ fired_startCloseCh :: rest) s
      = (Returned (Ok tt), done (exports env (S n) s)))
  /\ doneCh (st_m (exports env n s)) = chan_open.
Proof.
  intros Hdone. split; [|split].
  - intros Hopen. by apply export_loop_open.
  - intros Hclosed. by apply export_loop_closing.
  - by rewrite exports_m.
Qed.

Lemma logged_Import (s : State) :
  logged (Import env) s = (Returned (Ok tt), snd (Import env s)).
Proof.
  unfold logged. destruct (Import_cases env s) as (r & m' & -> & _). done.
Qed.

Lemma imports_channels (n : nat) (s : State) :
  startCloseCh (st_m (imports env n s)) = startCloseCh (st_m s)
  /\ doneCh (st_m (imports env n s)) = doneCh (st_m s).
Proof.
  revert s. induction n as [|n IH]; intros s; [done|].
  cbn [imports]. destruct (IH (snd (Import env s))) as [-> ->].
  destruct (Import_cases env s) as ([[]|e] & m' & -> & Hm); cbn [snd st_m].
  - by destruct Hm as (? & ? & ->).
  - by subst m'.
Qed.

(** X12: while [startCloseCh] is open, the import loop imports once per
    tick of its timer, drops the error of an import that fails, and
    does not return.  Once [startCloseCh] is closed it may still take
    ticks, with an import each; when it takes the closed channel it
    returns at once, without a last import.  It never closes
    [doneCh]. *)
Theorem import_loop_no_final_import (n : nat) (races rest : list Fired)
    (s : State) :
  (startCloseCh (st_m s) = chan_open ->
   import_loop env races s = (Blocked, imports env (length races) s))
  /\ (startCloseCh (st_m s) = chan_closed ->
      import_loop env (replicate n fired_timer ++ fired_startCloseCh :: rest) s
      = (Returned (Ok tt), imports env n s))
  /\ doneCh (st_m (imports env n s)) = doneCh (st_m s).
Proof.
  split; [|split; [|apply imports_channels]].
  - revert s. induction races as [|race races IH]; intros s Hopen;
      [reflexivity|].
    cbn [import_loop length imports].
    rewrite bind_run, select_fired_run, Hopen. cbv beta iota.
    rewrite bind_run, logged_Import. cbv beta iota. apply IH.
    pose proof (proj1 (imports_channels 1 s)) as Hch. cbn [imports] in Hch.
    congruence.
  - revert s. induction n as [|n IH]; intros s Hclosed.
    + cbn [replicate app import_loop imports].
      by rewrite bind_run, select_fired_run, Hclosed.
    + cbn [replicate app import_loop imports].
      rewrite bind_run, select_fired_run, Hclosed. cbv beta iota.
      rewrite bind_run, logged_Import. cbv beta iota. apply IH.
      pose proof (proj1 (imports_channels 1 s)) as Hch. cbn [imports] in Hch.
    congruence.
Qed.

(** ** What every sequence of calls keeps *)





End Loops.

(** * Properties of the router *)

Section RouterProperties.

Context {G : router.Graphql}.

(** [Add], by what [Merge] and [compile] answer. *)
Lemma Add_cases (r : router.Router) (name : string)
    (schema : router.ExecutableSchema) :
  (exists err, router.Add r name schema = (Some err, r))
  \/ (exists merged s,
        router.Merge ((router.range (router.Router_schemas r)).*2 ++ [schema])
        = Ok merged
        /\ router.compile merged = Ok s
        /\ router.Add r name schema
           = (None,
              {| router.Router_schemas :=
                   <[name := schema]> (router.Router_schemas r);
                 router.Router_s := Some s;
                 router.Router_h :=
                   Some {| router.Handler_Schema := s;
                           router.Handler_Pretty := true;
                           router.Handler_Playground := true |} |})).
Proof.
  unfold router.Add.
  destruct (router.Merge _) as [merged|err] eqn:Hm; [|left; by exists err].
  destruct (router.compile merged) as [s|err] eqn:Hc; [|left; by exists err].
  right. by exists merged, s.
Qed.

(** X15: an [Add] that returns an error, because the schemas do not
    merge or the merged schema does not compile, leaves the router as
    it was: its schemas, its compiled schema and its handler. *)
Theorem Add_error_keeps_router (r : router.Router) (name : string)
    (schema : router.ExecutableSchema) (err : error) :
  fst (router.Add r name schema) = Some err ->
  snd (router.Add r name schema) = r
  /\ (router.Merge ((router.range (router.Router_schemas r)).*2 ++ [schema])
      = Err err
      \/ exists merged,
           router.Merge
             ((router.range (router.Router_schemas r)).*2 ++ [schema])
           = Ok merged
           /\ router.compile merged = Err err).
Proof.
  unfold router.Add.
  destruct (router.Merge _) as [merged|e] eqn:Hm; simpl.
  - destruct (router.compile merged) as [s|e] eqn:Hc; simpl; [done|].
    intros [= ->]. split; [done|]. right. by exists merged.
  - intros [= ->]. split; [done|]. by left.
Qed.

(** X16: after an [Add] that succeeds, [Get] returns the added schema
    for its name, also when another schema was registered under that
    name, and returns for every other name what it returned before. *)
Theorem Get_after_Add (r : router.Router) (name : string)
    (schema : router.ExecutableSchema) :
  fst (router.Add r name schema) = None ->
  let r' := snd (router.Add r name schema) in
  router.Get r' name = Some schema
  /\ forall name', name' <> name -> router.Get r' name' = router.Get r name'.
Proof.
  intros Hok r'. subst r'.
  destruct (Add_cases r name schema) as [(err & Heq)|(merged & s & _ & _ & Heq)];
    rewrite Heq in Hok |- *; [discriminate|].
  unfold router.Get. simpl. split.
  - apply lookup_insert_eq.
  - intros name' Hne. by apply lookup_insert_ne.
Qed.

(** X17: the schema and the handler that a successful [Add] installs are
    compiled from the merge of every schema registered before, in some
    order, followed by the added schema: a schema registered under the
    same name is merged too, although the added schema takes its place
    in the router.  The handler has [Pretty] and [Playground] on. *)
Theorem Add_merges_all (r : router.Router) (name : string)
    (schema : router.ExecutableSchema) :
  fst (router.Add r name schema) = None ->
  let r' := snd (router.Add r name schema) in
  exists registered merged s,
    registered ≡ₚ (map_to_list (router.Router_schemas r)).*2
    /\ length registered = size (router.Router_schemas r)
    /\ (forall old, router.Get r name = Some old -> old ∈ registered)
    /\ router.Merge (registered ++ [schema]) = Ok merged
    /\ router.compile merged = Ok s
    /\ router.Router_s r' = Some s
    /\ router.Router_h r'
       = Some {| router.Handler_Schema := s;
                 router.Handler_Pretty := true;
                 router.Handler_Playground := true |}.
Proof.
  intros Hok r'. subst r'.
  destruct (Add_cases r name schema)
    as [(err & Heq)|(merged & s & Hmerge & Hcompile & Heq)];
    rewrite Heq in Hok |- *; [discriminate|].
  exists ((router.range (router.Router_schemas r)).*2), merged, s.
  assert ((router.range (router.Router_schemas r)).*2
          ≡ₚ (map_to_list (router.Router_schemas r)).*2) as Hperm.
  { apply fmap_Permutation, router.range_entries. }
  split; [exact Hperm|]. split.
  { rewrite Hperm, length_fmap. apply length_map_to_list. }
  split; [|done].
  intros old Hold. rewrite Hperm. apply list_elem_of_fmap.
  exists (name, old). split; [done|]. by apply elem_of_map_to_list.
Qed.

(** X18: [New] merges and compiles the root schema alone.  It panics
    with the error when that fails, and otherwise returns a router in
    which [Get] finds the root schema under "root" and nothing under
    any other name. *)
Theorem New_root :
  match router.New with
  | Returned (Ok r) =>
      router.Get r "root" = Some router.rootSchema
      /\ (forall name, name <> "root" -> router.Get r name = None)
      /\ exists merged s,
           router.Merge [router.rootSchema] = Ok merged
           /\ router.compile merged = Ok s
           /\ router.Router_s r = Some s
  | Panicked err =>
      router.Merge [router.rootSchema] = Err err
      \/ exists merged,
           router.Merge [router.rootSchema] = Ok merged
           /\ router.compile merged = Err err
  | _ => False
  end.
Proof.
  unfold router.New, router.Add. simpl.
  assert (router.range (∅ : gmap string router.ExecutableSchema) = [])
    as ->.
  { apply Permutation_nil_r. rewrite router.range_entries.
    by rewrite map_to_list_empty. }
  simpl. destruct (router.Merge [router.rootSchema]) as [merged|err] eqn:Hm;
    [|by left].
  destruct (router.compile merged) as [s|err] eqn:Hc.
  - unfold router.Get. simpl. split; [apply lookup_insert_eq|].
    split; [|by exists merged, s].
    intros name Hne. rewrite lookup_insert_ne by done. apply lookup_empty.
  - right. by exists merged.
Qed.

(** X19: no sequence of adds, failed ones included, removes a name from
    the router: a name that [Get] finds is still found afterwards, and
    what [Get] finds under a name afterwards is what it found before or
    a schema that was added under that name. *)
Theorem Add_all_keeps_names (r : router.Router)
    (adds : list (string * router.ExecutableSchema)) (name : string) :
  (is_Some (router.Get r name) ->
   is_Some (router.Get (router.Add_all r adds) name))
  /\ (forall schema,
        router.Get (router.Add_all r adds) name = Some schema ->
        router.Get r name = Some schema \/ (name, schema) ∈ adds).
Proof.
  unfold router.Add_all. revert r.
  induction adds as [|[name' schema'] adds IH]; intros r; simpl.
  - split; [done|]. intros schema Hget. by left.
  - destruct (IH (snd (router.Add r name' schema'))) as [IHfound IHfrom].
    destruct (Add_cases r name' schema')
      as [(err & Heq)|(merged & s & _ & _ & Heq)];
      rewrite Heq in IHfound, IHfrom |- *; simpl in *.
    + split; [exact IHfound|]. intros schema Hget.
      destruct (IHfrom schema Hget) as [?|?]; [by left|].
      right. apply elem_of_cons. by right.
    + unfold router.Get in *. simpl in *. split.
      * intros Hfound. apply IHfound.
        destruct (decide (name' = name)) as [->|Hne].
        -- rewrite lookup_insert_eq. by eexists.
        -- by rewrite lookup_insert_ne.
      * intros schema Hget.
        destruct (IHfrom schema Hget) as [Hnow|Hin].
        -- destruct (decide (name' = name)) as [->|Hne].
           ++ rewrite lookup_insert_eq in Hnow. injection Hnow as ->.
              right. apply elem_of_cons. by left.
           ++ rewrite lookup_insert_ne in Hnow by done. by left.
        -- right. apply elem_of_cons. by right.
Qed.

(** X20: in a router that [New] returned, after any sequence of adds,
    failed ones included, the handler is set: it serves the compiled
    schema of the router, with [Pretty] and [Playground] on, so that
    [ServeHTTP] never calls a nil handler. *)
Theorem Add_all_handler (r0 : router.Router)
    (adds : list (string * router.ExecutableSchema)) :
  router.New = Returned (Ok r0) ->
  exists s,
    router.Router_s (router.Add_all r0 adds) = Some s
    /\ router.Router_h (router.Add_all r0 adds)
       = Some {| router.Handler_Schema := s;
                 router.Handler_Pretty := true;
                 router.Handler_Playground := true |}.
Proof.
  intros Hnew.
  assert (exists s,
            router.Router_s r0 = Some s
            /\ router.Router_h r0
               = Some {| router.Handler_Schema := s;
                         router.Handler_Pretty := true;
                         router.Handler_Playground := true |}) as Hinv.
  { unfold router.New in Hnew.
    destruct (Add_cases
                {| router.Router_schemas := ∅; router.Router_s := None;
                   router.Router_h := None |} "root" router.rootSchema)
      as [(err & Heq)|(merged & s & _ & _ & Heq)];
      rewrite Heq in Hnew; [discriminate|].
    injection Hnew as <-. by exists s. }
  clear Hnew. unfold router.Add_all. revert r0 Hinv.
  induction adds as [|[name schema] adds IH]; intros r Hinv; simpl; [done|].
  apply IH.
  destruct (Add_cases r name schema)
    as [(err & Heq)|(merged & s & _ & _ & Heq)]; rewrite Heq; simpl;
    [done|]. by exists s.
Qed.

End RouterProperties.

(** X21: a [singleConnListener] hands out its connection to the first
    [Accept] and answers [io.ErrClosedPipe] to every later one; a
    listener without a connection answers [io.ErrClosedPipe] at once.
    [Close] returns nil and does not end this: the listener is as it
    was. *)
Theorem Accept_once {Conn : Type} (n : nat) (c : Conn) :
  router.Accepts (S n) {| router.conn := Some c |}
  = Ok c :: replicate n (Err router.ErrClosedPipe)
  /\ router.Accepts n {| router.conn := (None : option Conn) |}
     = replicate n (Err router.ErrClosedPipe)
  /\ router.Close {| router.conn := Some c |} = None
  /\ router.Addr {| router.conn := Some c |} = None.
Proof.
  assert (forall k, router.Accepts k {| router.conn := (None : option Conn) |}
                    = replicate k (Err router.ErrClosedPipe)) as Hnone.
  { induction k as [|k IH]; [reflexivity|]. simpl. by rewrite IH. }
  split; [|split; [apply Hnone|done]].
  simpl. by rewrite Hnone.
Qed.

(** * Properties of the project configuration *)

Section ConfigProperties.

Context {sys : config.System}.

(** The names of the entries that a [range] visits are distinct. *)
Lemma range_NoDup (m : gmap string (option config.Action)) :
  NoDup (config.range m).*1.
Proof.
  rewrite (fmap_Permutation fst _ _ (config.range_entries m)).
  apply NoDup_fst_map_to_list.
Qed.

Lemma elem_of_range (m : gmap string (option config.Action)) name action :
  (name, action) ∈ config.range m <-> m !! name = Some action.
Proof. rewrite config.range_entries. apply elem_of_map_to_list. Qed.

(** The loop of [ParseFile] panics when it meets a nil action. *)
Lemma ParseFile_loop_nil f ctx entries actions name :
  (name, None) ∈ entries ->
  config.ParseFile_loop f ctx entries actions = Panicked nil_dereference.
Proof.
  revert actions. induction entries as [|[n [a|]] entries IH];
    intros actions Hin; simpl.
  - by apply elem_of_nil in Hin.
  - apply elem_of_cons in Hin as [[=]|Hin]. by apply IH.
  - done.
Qed.

(** Without one, it changes the action under each name it visits, once,
    and no other. *)
Lemma ParseFile_loop_actions f ctx entries actions :
  NoDup entries.*1 ->
  (forall name, (name, None) ∉ entries) ->
  exists actions',
    config.ParseFile_loop f ctx entries actions = Returned (Ok actions')
    /\ forall name,
         (forall a, (name, Some a) ∈ entries ->
                    actions' !! name
                    = Some (Some (config.ParseFile_action f ctx a)))
         /\ (name ∉ entries.*1 -> actions' !! name = actions !! name).
Proof.
  revert actions. induction entries as [|[n [a|]] entries IH];
    intros actions Hnodup Hnonil; simpl.
  - exists actions. split; [done|]. intros name. split; [|done].
    intros a Hin. by apply elem_of_nil in Hin.
  - apply NoDup_cons in Hnodup as [Hfresh Hnodup]. simpl in Hfresh.
    destruct (IH (<[n := Some (config.ParseFile_action f ctx a)]> actions)
                Hnodup) as (actions' & Hrun & Hlookup).
    { intros name Hin. apply (Hnonil name). apply elem_of_cons. by right. }
    exists actions'. split; [exact Hrun|]. intros name. split.
    + intros a' [[= -> ->]|Hin]%elem_of_cons.
      * rewrite (proj2 (Hlookup n)) by done. apply lookup_insert_eq.
      * by apply (Hlookup name).
    + intros [Hne Hnotin]%not_elem_of_cons.
      rewrite (proj2 (Hlookup name)) by done. by apply lookup_insert_ne.
  - exfalso. apply (Hnonil n). apply elem_of_cons. by left.
Qed.

Lemma has_nil_lookup (m : gmap string (option config.Action)) :
  config.has_nil m <-> exists name, m !! name = Some None.
Proof.
  unfold config.has_nil. rewrite bool_decide_spec, map_Exists_lookup. split.
  - intros (name & action & Hm & ->). by exists name.
  - intros (name & Hm). by exists name, None.
Qed.

(** The loop of [ParseFile] over the entries of a map, in any order. *)
Lemma ParseFile_loop_range f ctx (m : gmap string (option config.Action)) :
  config.ParseFile_loop f ctx (config.range m) m
  = if config.has_nil m then Panicked nil_dereference
    else Returned (Ok (fmap (M:=option) (config.ParseFile_action f ctx) <$> m)).
Proof.
  destruct (config.has_nil m) eqn:Hnil.
  - apply Is_true_true, has_nil_lookup in Hnil as (name & Hnil).
    apply ParseFile_loop_nil with name. by apply elem_of_range.
  - apply Is_true_false, (not_iff_compat (has_nil_lookup m)) in Hnil.
    rename Hnil into Hnonil.
    destruct (ParseFile_loop_actions f ctx (config.range m) m
                (range_NoDup m)) as (actions' & -> & Hlookup).
    { intros name Hin%elem_of_range. apply Hnonil. by exists name. }
    do 2 f_equal. apply map_eq. intros name. rewrite lookup_fmap.
    destruct (m !! name) as [[a|]|] eqn:Hm; simpl.
    + apply (Hlookup name). by apply elem_of_range.
    + exfalso. apply Hnonil. by exists name.
    + rewrite (proj2 (Hlookup name)); [done|].
      intros ([n a] & -> & Hin%elem_of_range)%list_elem_of_fmap.
      simpl in Hm. congruence.
Qed.

(** [ParseFile], by what the three calls it makes answer. *)
Lemma ParseFile_run (f : string) :
  config.ParseFile f
  = match config.ReadFile f with
    | Err err => (Returned (Err err), [])
    | Ok data =>
        match config.Unmarshal data with
        | Err err => (Returned (Err err), [])
        | Ok parsed =>
            if config.has_nil (config.Config_Actions parsed)
            then (Panicked nil_dereference, [])
            else
              match config.Marshal (config.parsed_config f parsed) with
              | Err err => (Returned (Err err), [])
              | Ok loaded =>
                  (Returned (Ok (config.parsed_config f parsed)),
                   [config.Loading loaded])
              end
        end
    end.
Proof.
  unfold config.ParseFile.
  destruct (config.ReadFile f) as [data|err]; [|done].
  destruct (config.Unmarshal data) as [parsed|err]; [|done].
  rewrite ParseFile_loop_range. by destruct (config.has_nil _).
Qed.

Lemma ParseFile_Ok (f : string) (cfg : config.Config) (out : list string) :
  config.ParseFile f = (Returned (Ok cfg), out) ->
  exists data parsed loaded,
    config.ReadFile f = Ok data
    /\ config.Unmarshal data = Ok parsed
    /\ (forall name, config.Config_Actions parsed !! name <> Some None)
    /\ cfg = config.parsed_config f parsed
    /\ config.Marshal cfg = Ok loaded
    /\ out = [config.Loading loaded].
Proof.
  rewrite ParseFile_run.
  destruct (config.ReadFile f) as [data|err] eqn:Hread; [|done].
  destruct (config.Unmarshal data) as [parsed|err] eqn:Hun; [|done].
  destruct (config.has_nil _) eqn:Hnonil; [done|].
  apply Is_true_false, (not_iff_compat (has_nil_lookup _)) in Hnonil.
  destruct (config.Marshal _) as [loaded|err] eqn:Hm; [|done].
  intros [= <- <-]. exists data, parsed, loaded.
  split; [done|]. split; [done|]. split; [|done].
  intros name Hnil. apply Hnonil. by exists name.
Qed.

(** The configurations that [ParseFile] returns have an empty action
    "core" and no nil action. *)
Lemma ParseFile_includes_core_nonil (f : string) (cfg : config.Config)
    (out : list string) :
  config.ParseFile f = (Returned (Ok cfg), out) ->
  config.Config_Actions cfg !! "core" = Some (Some config.emptyAction)
  /\ forall name, config.Config_Actions cfg !! name <> Some None.
Proof.
  intros (data & parsed & loaded & Hread & Hun & Hnonil & -> & Hm & ->)
    %ParseFile_Ok.
  split; [apply lookup_insert_eq|].
  intros name. simpl. destruct (decide (name = "core")) as [->|Hne].
  - by rewrite lookup_insert_eq.
  - rewrite lookup_insert_ne, lookup_fmap by done.
    specialize (Hnonil name).
    by destruct (config.Config_Actions parsed !! name) as [[a|]|].
Qed.

(** X22: every configuration that [ParseFile] returns has an action
    "core", and that action is empty, whatever the file declares under
    that name; no action of it is nil; its path and its context are
    those of the decoded file; and what [ParseFile] has written to the
    standard error is the encoding of the configuration it returns, the
    action "core" included. *)
Theorem ParseFile_includes_core (f : string) (cfg : config.Config)
    (out : list string) :
  config.ParseFile f = (Returned (Ok cfg), out) ->
  config.Config_Actions cfg !! "core" = Some (Some config.emptyAction)
  /\ (forall name, config.Config_Actions cfg !! name <> Some None)
  /\ (exists loaded,
        config.Marshal cfg = Ok loaded /\ out = [config.Loading loaded])
  /\ exists data parsed,
       config.ReadFile f = Ok data
       /\ config.Unmarshal data = Ok parsed
       /\ config.Config_Context cfg = config.Config_Context parsed
       /\ config.Config_Path cfg = config.Config_Path parsed.
Proof.
  intros (data & parsed & loaded & Hread & Hun & Hnonil & -> & Hm & ->)
    %ParseFile_Ok.
  split; [apply lookup_insert_eq|]. split; [|split].
  - intros name. simpl. destruct (decide (name = "core")) as [->|Hne].
    + by rewrite lookup_insert_eq.
    + rewrite lookup_insert_ne, lookup_fmap by done.
      specialize (Hnonil name).
      by destruct (config.Config_Actions parsed !! name) as [[a|]|].
  - by exists loaded.
  - by exists data, parsed.
Qed.

(** X23: in the configuration that [ParseFile] returns, an action other
    than "core" that has no local directory is as the file declares
    it.  An action with a local directory has that directory joined to
    the context of the configuration, and has as its context the
    directory of the file joined to its own context, or to the context
    of the configuration when it declares none; its image is as
    declared.  No action is added but "core", and none is dropped;
    this does not depend on the order in which the actions are
    visited. *)
Theorem ParseFile_actions (f : string) (cfg : config.Config)
    (out : list string) :
  config.ParseFile f = (Returned (Ok cfg), out) ->
  exists data parsed,
    config.ReadFile f = Ok data
    /\ config.Unmarshal data = Ok parsed
    /\ forall name,
         name <> "core" ->
         match config.Config_Actions parsed !! name with
         | None => config.Config_Actions cfg !! name = None
         | Some None => False
         | Some (Some declared) =>
             exists action,
               config.Config_Actions cfg !! name = Some (Some action)
               /\ config.Action_Image action = config.Action_Image declared
               /\ if decide (config.Action_Local declared = "") then
                    action = declared
                  else
                    config.Action_Local action
                    = config.Join (config.Config_Context parsed)
                                  (config.Action_Local declared)
                    /\ config.Action_Context action
                       = config.Join (config.Dir f)
                           (if decide (config.Action_Context declared = "")
                            then config.Config_Context parsed
                            else config.Action_Context declared)
         end.
Proof.
  intros (data & parsed & loaded & Hread & Hun & Hnonil & -> & Hm & ->)
    %ParseFile_Ok.
  exists data, parsed. split; [done|]. split; [done|].
  intros name Hne. simpl. rewrite lookup_insert_ne by done.
  rewrite lookup_fmap. specialize (Hnonil name).
  destruct (config.Config_Actions parsed !! name) as [[declared|]|]; simpl;
    [|done|done].
  eexists. split; [reflexivity|]. unfold config.ParseFile_action.
  destruct (decide (config.Action_Local declared = "")) as [Hlocal|Hlocal].
  - destruct (decide (config.Action_Local declared ≠ "")); done.
  - destruct (decide (config.Action_Local declared ≠ "")); done.
Qed.

(** X24: [ParseFile] returns an error exactly when the file cannot be
    read, its content cannot be decoded, or, no declared action being
    nil, the resulting configuration cannot be encoded; the error is
    that of the failing step, and nothing is written to the standard
    error. *)
Theorem ParseFile_errors (f : string) (err : error) (out : list string) :
  config.ParseFile f = (Returned (Err err), out) <->
  out = []
  /\ (config.ReadFile f = Err err
      \/ (exists data,
            config.ReadFile f = Ok data /\ config.Unmarshal data = Err err)
      \/ (exists data parsed,
            config.ReadFile f = Ok data
            /\ config.Unmarshal data = Ok parsed
            /\ (forall name,
                  config.Config_Actions parsed !! name <> Some None)
            /\ config.Marshal
                 {| config.Config_Path := config.Config_Path parsed;
                    config.Config_Actions :=
                      <["core" := Some config.emptyAction]>
                        (fmap (M:=option)
                           (config.ParseFile_action f
                              (config.Config_Context parsed))
                         <$> config.Config_Actions parsed);
                    config.Config_Context := config.Config_Context parsed |}
               = Err err)).
Proof.
  rewrite ParseFile_run. split.
  - destruct (config.ReadFile f) as [data|e] eqn:Hread;
      [|intros [= -> <-]; split; [done|by left]].
    destruct (config.Unmarshal data) as [parsed|e] eqn:Hun.
    2:{ intros [= -> <-]. split; [done|]. right. left. by exists data. }
    destruct (config.has_nil _) eqn:Hnonil; [done|].
    apply Is_true_false, (not_iff_compat (has_nil_lookup _)) in Hnonil.
    destruct (config.Marshal _) as [loaded|e] eqn:Hm; [done|].
    intros [= -> <-]. split; [done|]. right. right. exists data, parsed.
    split; [done|]. split; [done|]. split; [|done].
    intros name Hnil. apply Hnonil. by exists name.
  - intros [-> [Hread|[(data & Hread & Hun)
                      |(data & parsed & Hread & Hun & Hnonil & Hm)]]].
    + by rewrite Hread.
    + by rewrite Hread, Hun.
    + rewrite Hread, Hun. destruct (config.has_nil _) eqn:Hnil.
      * apply Is_true_true, has_nil_lookup in Hnil as (name & Hnil).
        by destruct (Hnonil name).
      * unfold config.parsed_config. by rewrite Hm.
Qed.

(** X25: [ParseFile] panics exactly when the file is read and decoded
    and some action of the decoded configuration is nil: also when the
    nil action is the one declared as "core", which a return would have
    replaced.  The panic is that of a nil dereference, and nothing is
    written to the standard error. *)
Theorem ParseFile_nil_action (f : string) (msg : string) (out : list string) :
  config.ParseFile f = (Panicked msg, out) <->
  msg = nil_dereference /\ out = []
  /\ exists data parsed name,
       config.ReadFile f = Ok data
       /\ config.Unmarshal data = Ok parsed
       /\ config.Config_Actions parsed !! name = Some None.
Proof.
  rewrite ParseFile_run. split.
  - destruct (config.ReadFile f) as [data|e] eqn:Hread; [|done].
    destruct (config.Unmarshal data) as [parsed|e] eqn:Hun; [|done].
    destruct (config.has_nil _) eqn:Hnil.
    + apply Is_true_true, has_nil_lookup in Hnil as (name & Hnil).
      intros [= <- <-]. split; [done|]. split; [done|].
      by exists data, parsed, name.
    + by destruct (config.Marshal _).
  - intros (-> & -> & data & parsed & name & Hread & Hun & Hnil).
    rewrite Hread, Hun. destruct (config.has_nil _) eqn:Hnonil; [done|].
    apply Is_true_false in Hnonil. exfalso. apply Hnonil, has_nil_lookup.
    by exists name.
Qed.

(** The loop of [LocalDirs] panics when it meets a nil action. *)
Lemma LocalDirs_loop_nil entries acc name :
  (name, None) ∈ entries ->
  config.LocalDirs_loop entries acc = Panicked nil_dereference.
Proof.
  revert acc. induction entries as [|[n [a|]] entries IH];
    intros acc Hin; simpl.
  - by apply elem_of_nil in Hin.
  - apply elem_of_cons in Hin as [[=]|Hin]. destruct (decide _); by apply IH.
  - done.
Qed.

(** Without one, over any list of entries and from a map in which every
    key is mapped to itself, it returns such a map. *)
Lemma LocalDirs_loop_dirs entries (acc : gmap string string) :
  (forall name, (name, None) ∉ entries) ->
  (forall k v, acc !! k = Some v -> v = k) ->
  exists dirs,
    config.LocalDirs_loop entries acc = Returned (Ok dirs)
    /\ forall k v,
         dirs !! k = Some v <->
         (exists name action,
            (name, Some action) ∈ entries
            /\ config.Action_Local action <> ""
            /\ config.Action_Context action = k /\ v = k)
         \/ acc !! k = Some v.
Proof.
  revert acc. induction entries as [|[n [a|]] entries IH];
    intros acc Hnonil Hdiag; simpl.
  - exists acc. split; [done|]. intros k v. split; [by right|].
    intros [(name & action & Hin & _)|Hacc]; [by apply elem_of_nil in Hin|done].
  - assert (forall name, (name, None) ∉ entries) as Hnonil'.
    { intros name Hin. apply (Hnonil name). apply elem_of_cons. by right. }
    destruct (decide (config.Action_Local a = "")) as [Hl|Hl].
    + destruct (IH acc Hnonil' Hdiag) as (dirs & Hrun & Hdirs).
      exists dirs. split; [exact Hrun|]. intros k v. rewrite Hdirs. split.
      * intros [(name & action & Hin & Hrest)|Hacc]; [|by right].
        left. exists name, action. split; [apply elem_of_cons; by right|done].
      * intros [(name & action & [[= -> ->]|Hin]%elem_of_cons & Hl' & Hrest)
               |Hacc]; [done| |by right].
        left. by exists name, action.
    + destruct (IH (<[config.Action_Context a := config.Action_Context a]> acc)
                  Hnonil') as (dirs & Hrun & Hdirs).
      { intros k v.
        destruct (decide (config.Action_Context a = k)) as [->|Hne].
        - rewrite lookup_insert_eq. congruence.
        - rewrite lookup_insert_ne by done. apply Hdiag. }
      exists dirs. split; [exact Hrun|]. intros k v. rewrite Hdirs. split.
      * intros [(name & action & Hin & Hrest)|Hacc].
        -- left. exists name, action.
           split; [apply elem_of_cons; by right|done].
        -- destruct (decide (config.Action_Context a = k)) as [Hc|Hne].
           ++ subst k. rewrite lookup_insert_eq in Hacc. injection Hacc as <-.
              left. exists n, a. split; [apply elem_of_cons; by left|done].
           ++ rewrite lookup_insert_ne in Hacc by done. by right.
      * intros [(name & action & [[= -> ->]|Hin]%elem_of_cons & Hl' & Hc & ->)
               |Hacc].
        -- right. subst k. apply lookup_insert_eq.
        -- left. by exists name, action.
        -- right.
           destruct (decide (config.Action_Context a = k)) as [Hc|Hne].
           ++ subst k. rewrite lookup_insert_eq. f_equal. symmetry.
              by apply Hdiag.
           ++ by rewrite lookup_insert_ne.
  - exfalso. apply (Hnonil n). apply elem_of_cons. by left.
Qed.

(** [LocalDirs] on a configuration without a nil action. *)
Lemma LocalDirs_run (c : config.Config) :
  (forall name, config.Config_Actions c !! name <> Some None) ->
  exists dirs,
    config.LocalDirs c = Returned (Ok dirs)
    /\ forall k v,
         dirs !! k = Some v <->
         v = k
         /\ exists name action,
              config.Config_Actions c !! name = Some (Some action)
              /\ config.Action_Local action <> ""
              /\ config.Action_Context action = k.
Proof.
  intros Hnonil. unfold config.LocalDirs.
  destruct (LocalDirs_loop_dirs (config.range (config.Config_Actions c)) ∅)
    as (dirs & Hrun & Hdirs).
  { intros name Hin%elem_of_range. by apply (Hnonil name). }
  { intros k v. by rewrite lookup_empty. }
  exists dirs. split; [exact Hrun|]. intros k v. rewrite Hdirs, lookup_empty.
  split.
  - intros [(name & action & Hin%elem_of_range & Hl & Hc & ->)|?]; [|done].
    split; [done|]. by exists name, action.
  - intros (-> & name & action & Hlookup%elem_of_range & Hl & Hc). left.
    by exists name, action.
Qed.

(** X26: [LocalDirs] panics with a nil dereference on a configuration
    that has a nil action.  On any other configuration it returns a map
    that maps each key to itself; its keys are the contexts of the
    actions that have a local directory, and no others, whatever the
    order in which the actions are visited. *)
Theorem LocalDirs_contexts (c : config.Config) :
  (forall name,
     config.Config_Actions c !! name = Some None ->
     config.LocalDirs c = Panicked nil_dereference)
  /\ ((forall name, config.Config_Actions c !! name <> Some None) ->
      exists dirs,
        config.LocalDirs c = Returned (Ok dirs)
        /\ forall k v,
             dirs !! k = Some v <->
             v = k
             /\ exists name action,
                  config.Config_Actions c !! name = Some (Some action)
                  /\ config.Action_Local action <> ""
                  /\ config.Action_Context action = k).
Proof.
  split; [|apply LocalDirs_run].
  intros name Hnil. unfold config.LocalDirs.
  apply LocalDirs_loop_nil with name. by apply elem_of_range.
Qed.

(** X27: [LocalDirs] returns on every configuration that [ParseFile]
    returned, and the local directories are all inside the directory
    of the file: each is the directory of the file joined to the
    context an action declares, or to the context of the
    configuration; the action "core" never contributes one. *)
Theorem LocalDirs_of_ParseFile (f : string) (cfg : config.Config)
    (out : list string) :
  config.ParseFile f = (Returned (Ok cfg), out) ->
  exists dirs,
    config.LocalDirs cfg = Returned (Ok dirs)
    /\ forall k v,
         dirs !! k = Some v ->
         v = k
         /\ exists data parsed name declared,
              config.ReadFile f = Ok data
              /\ config.Unmarshal data = Ok parsed
              /\ name <> "core"
              /\ config.Config_Actions parsed !! name = Some (Some declared)
              /\ config.Action_Local declared <> ""
              /\ k = config.Join (config.Dir f)
                       (if decide (config.Action_Context declared = "")
                        then config.Config_Context parsed
                        else config.Action_Context declared).
Proof.
  intros (data & parsed & loaded & Hread & Hun & Hnonil & -> & Hm & ->)
    %ParseFile_Ok.
  destruct (LocalDirs_run (config.parsed_config f parsed)) as (dirs & Hrun & Hdirs).
  { intros name. simpl. destruct (decide (name = "core")) as [->|Hne].
    - by rewrite lookup_insert_eq.
    - rewrite lookup_insert_ne, lookup_fmap by done.
      specialize (Hnonil name).
      by destruct (config.Config_Actions parsed !! name) as [[a|]|]. }
  exists dirs. split; [exact Hrun|]. intros k v Hdir.
  apply Hdirs in Hdir as (-> & name & action & Hin & Hl & Hc).
  split; [done|]. simpl in Hin.
  destruct (decide (name = "core")) as [->|Hne].
  { rewrite lookup_insert_eq in Hin. by injection Hin as <-. }
  rewrite lookup_insert_ne, lookup_fmap in Hin by done.
  destruct (config.Config_Actions parsed !! name) as [[declared|]|] eqn:Hdecl;
    [|done|done].
  simpl in Hin. injection Hin as <-.
  exists data, parsed, name, declared.
  unfold config.ParseFile_action in Hl, Hc.
  destruct (decide (config.Action_Local declared ≠ "")) as [Hlocal|Hlocal].
  - simpl in Hc. done.
  - done.
Qed.

End ConfigProperties.

(** * Properties of the loading of the extensions *)

Section LoadExtensionsProperties.

Context {dag : config.Dagger}.

Lemma finished_NoDup (m : gmap string (option config.Action)) :
  NoDup (config.finished m).*1.
Proof.
  rewrite (fmap_Permutation fst _ _ (config.finished_entries m)).
  apply NoDup_fst_map_to_list.
Qed.

Lemma elem_of_finished (m : gmap string (option config.Action)) name action :
  (name, action) ∈ config.finished m <-> m !! name = Some action.
Proof. rewrite config.finished_entries. apply elem_of_map_to_list. Qed.

(** The goroutine of an entry, by the import it makes. *)
Lemma LoadExtensions_go_import localDirs name action :
  config.LoadExtensions_go localDirs name action
  = match config.import_of localDirs name action with
    | Some (Err err) => Returned (Err (config.error_importing name err))
    | Some (Ok imported) =>
        match action with
        | None => Panicked nil_dereference
        | Some a => Returned (Ok (Some (config.with_extension imported a)))
        end
    | None =>
        match action with
        | None => Panicked nil_dereference
        | Some a => Returned (Ok (Some a))
        end
    end.
Proof.
  unfold config.LoadExtensions_go, config.import_of.
  destruct (decide (name = "core")) as [->|Hne].
  - by destruct config.importCore.
  - destruct action as [a|]; [|done].
    destruct (decide (config.Action_Local a = "")) as [Hl|Hl];
      destruct (decide (config.Action_Local a ≠ "")); done.
Qed.

Lemma LoadExtensions_go_panics localDirs name action :
  config.panicking localDirs name action = true ->
  config.LoadExtensions_go localDirs name action = Panicked nil_dereference.
Proof.
  unfold config.panicking. rewrite LoadExtensions_go_import.
  destruct action as [a|]; [done|].
  by destruct (config.import_of localDirs name None) as [[imported|err]|].
Qed.

Lemma LoadExtensions_go_returns localDirs name action :
  config.panicking localDirs name action = false ->
  config.LoadExtensions_go localDirs name action
  = match config.import_of localDirs name action with
    | Some (Err err) => Returned (Err (config.error_importing name err))
    | Some (Ok imported) =>
        Returned (Ok (config.with_extension imported <$> action))
    | None => Returned (Ok action)
    end.
Proof.
  unfold config.panicking. rewrite LoadExtensions_go_import.
  destruct action as [a|].
  - by destruct (config.import_of localDirs name (Some a)) as [[?|?]|].
  - by destruct (config.import_of localDirs name None) as [[?|?]|].
Qed.

(** What the goroutine of an entry leaves of its action. *)
Lemma Wait_panics localDirs entries actions first name action :
  (name, action) ∈ entries ->
  config.panicking localDirs name action = true ->
  fst (config.LoadExtensions_Wait localDirs entries actions first)
  = Panicked nil_dereference.
Proof.
  intros Hin Hpanics. revert actions first.
  induction entries as [|[n oa] entries IH]; intros actions first.
  { by apply elem_of_nil in Hin. }
  cbn [config.LoadExtensions_Wait].
  apply elem_of_cons in Hin as [[= <- <-]|Hin].
  { by rewrite (LoadExtensions_go_panics _ _ _ Hpanics). }
  rewrite LoadExtensions_go_import.
  destruct (config.import_of localDirs n oa) as [[imported|err]|];
    [destruct oa| |destruct oa]; try done; by apply IH.
Qed.

Lemma Wait_returns localDirs entries actions first :
  NoDup entries.*1 ->
  (forall name action,
     (name, action) ∈ entries ->
     config.panicking localDirs name action = false) ->
  exists r actions',
    config.LoadExtensions_Wait localDirs entries actions first
    = (Returned r, actions')
    /\ (forall name,
          (forall action,
             (name, action) ∈ entries ->
             actions' !! name
             = match config.import_of localDirs name action with
               | Some (Ok imported) =>
                   Some (config.with_extension imported <$> action)
               | Some (Err _) => actions !! name
               | None => Some action
               end)
          /\ (name ∉ entries.*1 -> actions' !! name = actions !! name))
    /\ (r = Ok tt <->
        first = None
        /\ forall name action err,
             (name, action) ∈ entries ->
             config.import_of localDirs name action <> Some (Err err))
    /\ (forall e,
          r = Err e ->
          first = Some e
          \/ exists name action err,
               (name, action) ∈ entries
               /\ config.import_of localDirs name action = Some (Err err)
               /\ e = config.error_importing name err).
Proof.
  revert actions first.
  induction entries as [|[n oa] entries IH]; intros actions first Hnodup Hnot.
  { cbn [config.LoadExtensions_Wait].
    exists (match first with Some err => Err err | None => Ok tt end), actions.
    split; [by destruct first|]. split; [|split].
    - intros name. split; [|done]. intros action Hin.
      by apply elem_of_nil in Hin.
    - destruct first as [e|]; split; try done.
      + by intros [? _].
      + intros _. split; [done|]. intros name action err Hin.
        by apply elem_of_nil in Hin.
    - intros e. destruct first as [e'|]; [|done]. intros [= ->]. by left. }
  apply NoDup_cons in Hnodup as [Hfresh Hnodup]. simpl in Hfresh.
  assert (forall name action,
            (name, action) ∈ entries ->
            config.panicking localDirs name action = false) as Hnot'.
  { intros name action Hin. apply Hnot. apply elem_of_cons. by right. }
  cbn [config.LoadExtensions_Wait].
  rewrite (LoadExtensions_go_returns localDirs n oa)
    by (apply Hnot; apply elem_of_cons; by left).
  destruct (config.import_of localDirs n oa) as [[imported|err]|] eqn:Himport.
  - destruct (IH (<[n := config.with_extension imported <$> oa]> actions)
                first Hnodup Hnot')
      as (r & actions' & Hrun & Hlookup & Hok & Herr).
    exists r, actions'. split; [exact Hrun|]. split; [|split].
    + intros name. split.
      * intros action [[= -> ->]|Hin]%elem_of_cons.
        -- rewrite (proj2 (Hlookup n)) by done. rewrite Himport.
           apply lookup_insert_eq.
        -- rewrite (proj1 (Hlookup name) action Hin).
           destruct (config.import_of localDirs name action) as [[?|?]|];
             try done.
           apply lookup_insert_ne. intros ->. apply Hfresh.
           apply list_elem_of_fmap. by exists (name, action).
      * intros [Hne Hnotin]%not_elem_of_cons.
        rewrite (proj2 (Hlookup name)) by done. by apply lookup_insert_ne.
    + rewrite Hok. split.
      * intros [-> Hall]. split; [done|].
        intros name action err [[= -> ->]|Hin]%elem_of_cons.
        -- by rewrite Himport.
        -- by apply Hall.
      * intros [-> Hall]. split; [done|]. intros name action err Hin.
        apply Hall. apply elem_of_cons. by right.
    + intros e He. destruct (Herr e He) as [?|(name & action & err & Hin & ?)];
        [by left|].
      right. exists name, action, err. split; [|done].
      apply elem_of_cons. by right.
  - destruct (IH actions (match first with
                          | Some _ => first
                          | None => Some (config.error_importing n err)
                          end) Hnodup Hnot')
      as (r & actions' & Hrun & Hlookup & Hok & Herr).
    exists r, actions'. split; [exact Hrun|]. split; [|split].
    + intros name. split.
      * intros action [[= -> ->]|Hin]%elem_of_cons.
        -- rewrite (proj2 (Hlookup n)) by done. by rewrite Himport.
        -- by rewrite (proj1 (Hlookup name) action Hin).
      * intros [Hne Hnotin]%not_elem_of_cons.
        by rewrite (proj2 (Hlookup name)).
    + rewrite Hok. split.
      * intros [Hfirst _]. by destruct first.
      * intros [_ Hall]. exfalso. apply (Hall n oa err); [|done].
        apply elem_of_cons. by left.
    + intros e He. destruct (Herr e He) as [Hfirst|(name & action & err' & Hin & ?)].
      * destruct first as [e'|]; [by left|]. injection Hfirst as <-.
        right. exists n, oa, err. split; [|done]. apply elem_of_cons. by left.
      * right. exists name, action, err'. split; [|done].
        apply elem_of_cons. by right.
  - destruct (IH (<[n := oa]> actions) first Hnodup Hnot')
      as (r & actions' & Hrun & Hlookup & Hok & Herr).
    exists r, actions'. split; [exact Hrun|]. split; [|split].
    + intros name. split.
      * intros action [[= -> ->]|Hin]%elem_of_cons.
        -- rewrite (proj2 (Hlookup n)) by done. rewrite Himport.
           apply lookup_insert_eq.
        -- rewrite (proj1 (Hlookup name) action Hin).
           destruct (config.import_of localDirs name action) as [[?|?]|];
             try done.
           apply lookup_insert_ne. intros ->. apply Hfresh.
           apply list_elem_of_fmap. by exists (name, action).
      * intros [Hne Hnotin]%not_elem_of_cons.
        rewrite (proj2 (Hlookup name)) by done. by apply lookup_insert_ne.
    + rewrite Hok. split.
      * intros [-> Hall]. split; [done|].
        intros name action err [[= -> ->]|Hin]%elem_of_cons.
        -- by rewrite Himport.
        -- by apply Hall.
      * intros [-> Hall]. split; [done|]. intros name action err Hin.
        apply Hall. apply elem_of_cons. by right.
    + intros e He. destruct (Herr e He) as [?|(name & action & err & Hin & ?)];
        [by left|].
      right. exists name, action, err. split; [|done].
      apply elem_of_cons. by right.
Qed.

(** A configuration has an entry whose goroutine panics. *)
Lemma panicking_lookup localDirs (m : gmap string (option config.Action)) :
  map_Exists (fun name action =>
                config.panicking localDirs name action = true) m
  <-> exists name,
        m !! name = Some None
        /\ (name = "core" -> exists imported, config.importCore = Ok imported).
Proof.
  rewrite map_Exists_lookup. unfold config.panicking, config.import_of.
  split.
  - intros (name & [a|] & Hm & Hp); [done|]. exists name. split; [done|].
    intros ->. simpl in Hp. destruct config.importCore as [imported|err];
      [by exists imported|done].
  - intros (name & Hm & Hcore). exists name, None. split; [done|].
    destruct (decide (name = "core")) as [Heq|Hne]; [|done].
    by destruct (Hcore Heq) as (imported & ->).
Qed.

(** [LoadExtensions], by whether the goroutine of an entry panics. *)
Lemma LoadExtensions_run (c : config.Config) (localDirs : gmap string config.FSID) :
  if decide (map_Exists (fun name action =>
                           config.panicking localDirs name action = true)
               (config.Config_Actions c)) then
    fst (config.LoadExtensions c localDirs) = Panicked nil_dereference
  else
    exists r,
      config.LoadExtensions c localDirs
      = (Returned r,
         {| config.Config_Path := config.Config_Path c;
            config.Config_Actions :=
              map_imap (fun name action =>
                          Some (config.loaded localDirs name action))
                (config.Config_Actions c);
            config.Config_Context := config.Config_Context c |})
      /\ (r = Ok tt <->
          forall name action err,
            config.Config_Actions c !! name = Some action ->
            config.import_of localDirs name action <> Some (Err err))
      /\ (forall e,
            r = Err e ->
            exists name action err,
              config.Config_Actions c !! name = Some action
              /\ config.import_of localDirs name action = Some (Err err)
              /\ e = config.error_importing name err).
Proof.
  unfold config.LoadExtensions.
  destruct (decide _) as [Hpanics|Hnot].
  - apply map_Exists_lookup in Hpanics as (name & action & Hm & Hp).
    apply elem_of_finished in Hm.
    pose proof (Wait_panics localDirs _ (config.Config_Actions c) None
                  name action Hm Hp) as Hwait.
    by destruct (config.LoadExtensions_Wait _ _ _ _).
  - destruct (Wait_returns localDirs
                (config.finished (config.Config_Actions c))
                (config.Config_Actions c) None (finished_NoDup _))
      as (r & actions' & -> & Hlookup & Hok & Herr).
    { intros name action Hin%elem_of_finished.
      destruct (config.panicking localDirs name action) eqn:Hp; [|done].
      destruct Hnot. apply map_Exists_lookup. by exists name, action. }
    exists r. split; [|split].
    + do 2 f_equal. apply map_eq. intros name. rewrite map_lookup_imap.
      destruct (config.Config_Actions c !! name) as [action|] eqn:Hm; simpl.
      * assert ((name, action) ∈ config.finished (config.Config_Actions c))
          as Hin.
        { apply elem_of_finished. exact Hm. }
        rewrite (proj1 (Hlookup name) action Hin).
        unfold config.loaded. rewrite Hm. unfold mbind, option_bind.
        by destruct (config.import_of localDirs name action) as [[?|?]|].
      * rewrite (proj2 (Hlookup name)); [done|].
        intros ([n a] & -> & Hin%elem_of_finished)%list_elem_of_fmap.
        simpl in Hm. congruence.
    + rewrite Hok. split.
      * intros [_ Hall] name action err Hm. apply Hall.
        by apply elem_of_finished.
      * intros Hall. split; [done|]. intros name action err Hin.
        apply Hall. by apply elem_of_finished.
    + intros e He. destruct (Herr e He) as [?|(name & action & err & Hin & ?)];
        [done|].
      exists name, action, err. split; [|done]. by apply elem_of_finished.
Qed.

(** X28: [LoadExtensions] panics with a nil dereference exactly when
    some action is nil, unless the nil action is the one of "core" and
    the import of the core fails.  It returns nil exactly when no
    action is nil and no import fails.  An error it returns is the
    error of the import of one of the entries, after "error importing",
    the name of the entry and a colon; the import of "core" is the
    import of the core, whatever the action declares, and the import of
    another action with a local directory is that of its Dockerfile in
    the filesystem given for its context. *)
Theorem LoadExtensions_outcome (c : config.Config)
    (localDirs : gmap string config.FSID) :
  let actions := config.Config_Actions c in
  let r := fst (config.LoadExtensions c localDirs) in
  (r = Panicked nil_dereference <->
   exists name,
     actions !! name = Some None
     /\ (name = "core" -> exists imported, config.importCore = Ok imported))
  /\ (r = Returned (Ok tt) <->
      (forall name, actions !! name <> Some None)
      /\ forall name action err,
           actions !! name = Some action ->
           config.import_of localDirs name action <> Some (Err err))
  /\ (forall e,
        r = Returned (Err e) ->
        exists name action err,
          actions !! name = Some action
          /\ config.import_of localDirs name action = Some (Err err)
          /\ e = config.error_importing name err)
  /\ (forall msg, r = Panicked msg -> msg = nil_dereference)
  /\ r <> Blocked.
Proof.
  intros actions r. subst actions r.
  pose proof (LoadExtensions_run c localDirs) as Hrun.
  destruct (decide _) as [Hpanics|Hnot].
  - rewrite Hrun. pose proof Hpanics as Hnil%panicking_lookup.
    split; [done|]. split; [|split; [done|split; [by intros msg [= <-]|done]]].
    split; [done|]. intros [Hnonil _]. destruct Hnil as (name & Hnil & _).
    by destruct (Hnonil name).
  - destruct Hrun as (r & -> & Hok & Herr). cbn [fst].
    rewrite panicking_lookup in Hnot. split; [done|].
    split; [|split; [|done]].
    + split.
      * intros [= ->]. pose proof (proj1 Hok eq_refl) as Hall.
        split; [|exact Hall]. intros name Hnil. apply Hnot. exists name.
        split; [done|]. intros ->.
        specialize (Hall "core" None). unfold config.import_of in Hall.
        simpl in Hall. destruct config.importCore as [imported|err];
          [by exists imported|].
        by destruct (Hall err Hnil).
      * intros [_ Hall]. f_equal. by apply Hok.
    + intros e [= ->]. by apply Herr.
Qed.

(** X29: when [LoadExtensions] returns, with or without an error, the
    path, the context and the names of the actions are as before, and
    every action whose import succeeded has the imported schema and
    operations, its other fields being unchanged: an error of one
    import does not undo or prevent the others.  The actions whose
    import failed, and the actions without an import, are as before.
    This does not depend on the order in which the goroutines end. *)
Theorem LoadExtensions_actions (c : config.Config)
    (localDirs : gmap string config.FSID) (r : result unit) :
  fst (config.LoadExtensions c localDirs) = Returned r ->
  let c' := snd (config.LoadExtensions c localDirs) in
  config.Config_Path c' = config.Config_Path c
  /\ config.Config_Context c' = config.Config_Context c
  /\ forall name,
       match config.Config_Actions c !! name with
       | None => config.Config_Actions c' !! name = None
       | Some action =>
           config.Config_Actions c' !! name
           = Some match config.import_of localDirs name action with
                  | Some (Ok (schema, operations)) =>
                      (fun a =>
                         {| config.Action_Local := config.Action_Local a;
                            config.Action_Image := config.Action_Image a;
                            config.Action_Context := config.Action_Context a;
                            config.Action_schema := schema;
                            config.Action_operations := operations |})
                      <$> action
                  | _ => action
                  end
       end.
Proof.
  intros Hr c'. subst c'.
  pose proof (LoadExtensions_run c localDirs) as Hrun.
  destruct (decide _) as [Hpanics|Hnot]; [congruence|].
  destruct Hrun as (r' & -> & _). cbn [snd config.Config_Path
    config.Config_Context config.Config_Actions].
  split; [done|]. split; [done|]. intros name. rewrite map_lookup_imap.
  destruct (config.Config_Actions c !! name) as [action|]; [|done].
  unfold mbind, option_bind, config.loaded.
  by destruct (config.import_of localDirs name action)
    as [[[schema operations]|?]|].
Qed.

End LoadExtensionsProperties.

Section LoadExtensionsOfParseFile.

Context {sys : config.System} {dag : config.Dagger}.

(** X30: on a configuration that [ParseFile] returned, with a filesystem
    for every local directory that [LocalDirs] names, [LoadExtensions]
    returns.  The action "core" then has the schema and the operations
    of the core when that import succeeds, and is empty otherwise; and
    for every other action with a local directory the filesystem of its
    context is found, and the action has what the import of its
    Dockerfile in that filesystem gives, when it succeeds. *)
Theorem LoadExtensions_of_ParseFile (f : string) (cfg : config.Config)
    (out : list string) (dirs : gmap string string)
    (fsids : gmap string config.FSID) :
  config.ParseFile f = (Returned (Ok cfg), out) ->
  config.LocalDirs cfg = Returned (Ok dirs) ->
  (forall k, is_Some (dirs !! k) -> is_Some (fsids !! k)) ->
  exists r cfg',
    config.LoadExtensions cfg fsids = (Returned r, cfg')
    /\ config.Config_Actions cfg' !! "core"
       = Some (Some match config.importCore with
                    | Ok imported =>
                        config.with_extension imported config.emptyAction
                    | Err _ => config.emptyAction
                    end)
    /\ forall name action,
         name <> "core" ->
         config.Config_Actions cfg !! name = Some (Some action) ->
         config.Action_Local action <> "" ->
         exists fsid,
           fsids !! config.Action_Context action = Some fsid
           /\ config.Config_Actions cfg' !! name
              = Some (Some match config.importLocal name fsid
                                   (config.path_Join
                                      (config.Action_Local action)
                                      "Dockerfile") with
                           | Ok imported =>
                               config.with_extension imported action
                           | Err _ => action
                           end).
Proof.
  intros Hparse Hdirs Hfs.
  assert (forall name, config.Config_Actions cfg !! name <> Some None)
    as Hnonil.
  { by destruct (ParseFile_includes_core_nonil f cfg out Hparse). }
  assert (config.Config_Actions cfg !! "core"
          = Some (Some config.emptyAction)) as Hcore.
  { by destruct (ParseFile_includes_core_nonil f cfg out Hparse). }
  destruct (LocalDirs_run cfg Hnonil) as (dirs' & Hdirs' & Hkeys).
  rewrite Hdirs in Hdirs'. injection Hdirs' as <-.
  pose proof (LoadExtensions_run cfg fsids) as Hrun.
  destruct (decide _) as [Hpanics|_].
  { apply panicking_lookup in Hpanics as (name & Hnil & _).
    by destruct (Hnonil name). }
  destruct Hrun as (r & -> & _). eexists r, _. split; [reflexivity|].
  cbn [config.Config_Actions]. split.
  - rewrite map_lookup_imap, Hcore. unfold mbind, option_bind, config.loaded.
    unfold config.import_of. simpl. by destruct config.importCore.
  - intros name action Hne Haction Hlocal.
    destruct (Hfs (config.Action_Context action)) as [fsid Hfsid].
    { exists (config.Action_Context action). apply Hkeys. split; [done|].
      by exists name, action. }
    exists fsid. split; [exact Hfsid|].
    rewrite map_lookup_imap, Haction.
    unfold mbind, option_bind, config.loaded, config.import_of.
    destruct (decide (name = "core")); [done|].
    destruct (decide (config.Action_Local action = "")); [done|].
    unfold config.FSID in *. rewrite Hfsid. simpl.
    by destruct (config.importLocal _ _ _).
Qed.

End LoadExtensionsOfParseFile.

(** * The further properties on the examples *)

(** X2, on an example: the upload of the layer [d2] is answered with 500. *)
Lemma pushLayer_closes_reader_witness :
  pushLayer Example.env_upload_fails Example.d2 (workerProvider 0) Example.s0
  = (Returned (Err "unexpected status code 500"),
     after Example.s0
       [ EvGetLayerUploadURL
           {| GetLayerUploadURLRequest_Digest := "sha256:l2" |};
         EvReaderAt (workerProvider 0) Example.d2;
         EvHTTPDo {| Request_Method := "PUT";
                     Request_URL := "https://cache/sha256:l2";
                     Request_Body := (workerProvider 0, Example.d2);
                     Request_ContentLength := 20 |};
         EvBodyClose {| Request_Method := "PUT";
                        Request_URL := "https://cache/sha256:l2";
                        Request_Body := (workerProvider 0, Example.d2);
                        Request_ContentLength := 20 |};
         EvReaderClose (workerProvider 0) Example.d2 ]).
Proof.
  exact (pushLayer_closes_reader Example.env_upload_fails Example.d2
           (workerProvider 0) Example.s0).
Defined.

(** X4, on an example: the record [R1] when [ref1] has two remotes: the layer of the first
    is pushed and reported, the layer of the second is not. *)
Lemma Export_record_first_remote_witness :
  exists s',
    pushLayers MoreExamples.env_two_remotes [Example.d1] (workerProvider 0)
      (after Example.s0 [EvWorkerGet "ref1"; EvGetRemotes Example.ref1])
    = (Returned (Ok tt), s')
    /\ Export_record MoreExamples.env_two_remotes Example.R1 [] Example.s0
       = (Returned (Ok [ {| RecordLayers_RecordDigest := "sha256:rec1";
                            RecordLayers_Layers := [Example.d1] |} ]),
          after s' [EvRefRelease Example.ref1]).
Proof.
  destruct (Export_record_first_remote MoreExamples.env_two_remotes
              Example.R1 [] Example.s0 Example.ref1 MoreExamples.remoteA
              [MoreExamples.remoteB] eq_refl eq_refl)
    as (r & s' & Hpush & Hrecord).
  exists s'. assert (r = Ok tt) as ->.
  { vm_compute in Hpush. by injection Hpush as <- _. }
  split; [exact Hpush|exact Hrecord].
Defined.

(** X5, on an example: the store fails on the backlinks of [k2]: [k1] is visited, [k3] is
    not. *)
Lemma Export_backlinks_error_witness :
  exists cacheKeys s',
    keys_run Example.env_ok MoreExamples.store_backlinks_fail
      (MoreExamples.on_store MoreExamples.store_backlinks_fail)
      ["k1"] cacheKeys s'
    /\ Export Example.env_ok
         (MoreExamples.on_store MoreExamples.store_backlinks_fail)
       = (Returned (Err "backlinks: i/o error"), s').
Proof.
  apply (Export_backlinks_error Example.env_ok
           (MoreExamples.on_store MoreExamples.store_backlinks_fail)
           ["k1"] ["k3"] "k2" "backlinks: i/o error").
  - reflexivity.
  - intros id'. simpl. case_decide; [by right|by left].
  - intros id'. simpl. by case_decide.
  - by intros [[=]|[]%elem_of_nil]%elem_of_cons.
  - reflexivity.
Defined.

(** X6, on an example: the store ends the walk of its keys with an error. *)
Lemma Export_walk_error_witness :
  exists cacheKeys s',
    keys_run Example.env_ok MoreExamples.store_walk_fails
      (MoreExamples.on_store MoreExamples.store_walk_fails)
      ["k1"] cacheKeys s'
    /\ Export Example.env_ok
         (MoreExamples.on_store MoreExamples.store_walk_fails)
       = (Returned (Err "walk: i/o error"), s').
Proof.
  apply (Export_walk_error Example.env_ok
           (MoreExamples.on_store MoreExamples.store_walk_fails)
           "walk: i/o error").
  - reflexivity.
  - intros id. reflexivity.
  - intros id. simpl. by case_decide.
Defined.

(** X7, on an example: the service refuses the announcement. *)
Lemma Export_service_errors_witness :
  Export MoreExamples.env_announce_fails Example.s0
  = (Returned (Err "unavailable"), Example.s2).
Proof.
  destruct (Export_service_errors MoreExamples.env_announce_fails Example.s0
              Example.walked_keys Example.walked_links Example.s1 eq_refl)
    as [Hannounce _].
  by apply Hannounce.
Defined.

(** X8, on an example: no client can be made. *)
Lemma NewManager_client_errors_witness :
  NewManager MoreExamples.env_no_client
    (Example.managerConfig "https://cache") []
  = (Returned (Err "invalid URL"),
     {| st_m := initial_manager (Example.managerConfig "https://cache");
        st_trace := [EvNewClient "https://cache"] |}).
Proof.
  destruct (NewManager_client_errors MoreExamples.env_no_client
              (Example.managerConfig "https://cache") [])
    as [Hclient _]; [discriminate|].
  by apply Hclient.
Defined.

(** X9, on an example: the manager of the example. *)
Lemma NewManager_success_witness :
  exists s',
    NewManager Example.env_ok (Example.managerConfig "https://cache") []
    = (Returned (Ok ptr_manager),
       after s' [ EvGo cancelImportOnClose; EvGo (importLoop 60);
                  EvGo (exportLoop 120 30) ])
    /\ serving (st_m s')
    /\ startCloseCh (st_m s') = chan_open
    /\ doneCh (st_m s') = chan_open.
Proof.
  eexists.
  destruct (NewManager_success Example.env_ok
              (Example.managerConfig "https://cache") [] Example.config
              _ ltac:(discriminate) eq_refl eq_refl ltac:(discriminate)
              ltac:(discriminate) ltac:(discriminate) eq_refl)
    as (Hnew & _ & Hserving & _ & _ & _ & Hstart & Hdone).
  split; [exact Hnew|]. split; [exact Hserving|]. split; assumption.
Defined.

(** X10, on an example: an import that fails on the manager of the example: the query that
    follows is answered by the view it had. *)
Lemma operations_after_Import_witness :
  exists view s1,
    inner (st_m Example.s0) = Some view
    /\ Import Example.env_import_fails Example.s0
       = (Returned (Err "import failed"), s1)
    /\ forall args,
         Query Example.env_import_fails args s1
         = (Returned (env_Query Example.env_import_fails (st_trace s1)
                        view args),
            after s1 [EvQuery view args]).
Proof.
  eexists. 
  destruct (operations_after_Import Example.env_import_fails Example.s0 _
              eq_refl) as (r & s1 & view' & Himport & Hview & Hquery & _).
  exists s1. split; [reflexivity|].
  assert (r = Err "import failed") as ->.
  { vm_compute in Himport. by injection Himport as <- _. }
  subst view'. split; [exact Himport|exact Hquery].
Defined.

(** X11, on an example: the export loop on the manager of the example, before and after
    [Close]. *)
Lemma export_loop_final_export_witness :
  export_loop Example.env_ok [fired_timer; fired_startCloseCh] Example.s0
  = (Blocked, exports Example.env_ok 2 Example.s0)
  /\ export_loop Example.env_ok
       [fired_timer; fired_startCloseCh; fired_timer] MoreExamples.closing
     = (Returned (Ok tt),
        done (exports Example.env_ok 2 MoreExamples.closing)).
Proof.
  split.
  - destruct (export_loop_final_export Example.env_ok 0
                [fired_timer; fired_startCloseCh] [] Example.s0 eq_refl)
      as [Hopen _].
    by apply Hopen.
  - destruct (export_loop_final_export Example.env_ok 1 [] [fired_timer]
                MoreExamples.closing eq_refl) as (_ & Hclosed & _).
    by apply Hclosed.
Defined.

(** X12, on an example: the import loop on the manager of the example, before and after
    [Close]. *)
Lemma import_loop_no_final_import_witness :
  import_loop Example.env_ok [fired_timer; fired_startCloseCh] Example.s0
  = (Blocked, imports Example.env_ok 2 Example.s0)
  /\ import_loop Example.env_ok [fired_timer; fired_startCloseCh; fired_timer]
       MoreExamples.closing
     = (Returned (Ok tt), imports Example.env_ok 1 MoreExamples.closing).
Proof.
  split.
  - destruct (import_loop_no_final_import Example.env_ok 0
                [fired_timer; fired_startCloseCh] [] Example.s0)
      as [Hopen _].
    by apply Hopen.
  - destruct (import_loop_no_final_import Example.env_ok 1 [] [fired_timer]
                MoreExamples.closing) as (_ & Hclosed & _).
    by apply Hclosed.
Defined.



(** X15, on an example: an empty schema does not merge: the router stays as it was. *)
Lemma Add_error_keeps_router_witness :
  @router.Add MoreExamples.graphql MoreExamples.root_router "alpine" ""
  = (Some "empty schema", MoreExamples.root_router).
Proof.
  destruct (@Add_error_keeps_router MoreExamples.graphql
              MoreExamples.root_router "alpine" "" "empty schema" eq_refl)
    as [Hsame _].
  rewrite <- Hsame at 2. reflexivity.
Defined.

(** X16, on an example: a schema added under "alpine". *)
Lemma Get_after_Add_witness :
  let r' := snd (@router.Add MoreExamples.graphql MoreExamples.root_router
                   "alpine" " type Alpine") in
  router.Get r' "alpine" = Some " type Alpine"
  /\ router.Get r' "root" = Some "type Query".
Proof.
  destruct (@Get_after_Add MoreExamples.graphql
              MoreExamples.root_router "alpine" " type Alpine" eq_refl)
    as [Hnew Hold].
  split; [exact Hnew|]. rewrite (Hold "root") by discriminate. reflexivity.
Defined.

(** X17, on an example: a schema added under "root" is merged with the one it replaces. *)
Lemma Add_merges_all_witness :
  router.Router_s
    (snd (@router.Add MoreExamples.graphql MoreExamples.root_router
            "root" " type Root"))
  = Some "type Query type Root".
Proof.
  destruct (@Add_merges_all MoreExamples.graphql
              MoreExamples.root_router "root" " type Root" eq_refl)
    as (registered & merged & s & _ & _ & _ & _ & _ & Hs & _).
  rewrite Hs. vm_compute in Hs. symmetry. exact Hs.
Defined.

(** X19, on an example: adds on the router of the example, the second of which fails. *)
Lemma Add_all_keeps_names_witness :
  is_Some
    (router.Get
       (@router.Add_all MoreExamples.graphql MoreExamples.root_router
          [("alpine", " type Alpine"); ("bad", ""); ("root", " type Root")])
       "root").
Proof.
  destruct (@Add_all_keeps_names MoreExamples.graphql
              MoreExamples.root_router
              [("alpine", " type Alpine"); ("bad", ""); ("root", " type Root")]
              "root") as [Hkept _].
  apply Hkept. by eexists.
Defined.

(** X20, on an example: the router that [New] returns, after the same adds. *)
Lemma Add_all_handler_witness :
  @router.New MoreExamples.graphql = Returned (Ok MoreExamples.root_router)
  /\ exists s,
       router.Router_h
         (@router.Add_all MoreExamples.graphql MoreExamples.root_router
            [("alpine", " type Alpine"); ("bad", "");
             ("root", " type Root")])
       = Some {| router.Handler_Schema := s;
                 router.Handler_Pretty := true;
                 router.Handler_Playground := true |}.
Proof.
  assert (@router.New MoreExamples.graphql
          = Returned (Ok MoreExamples.root_router)) as Hnew.
  { vm_compute. reflexivity. }
  split; [exact Hnew|].
  destruct (@Add_all_handler MoreExamples.graphql
              MoreExamples.root_router
              [("alpine", " type Alpine"); ("bad", "");
               ("root", " type Root")] Hnew) as (s & _ & Hh).
  by exists s.
Defined.

(** X22, on an example: the file of the example. *)
Lemma ParseFile_includes_core_witness :
  exists cfg out,
    @config.ParseFile MoreExamples.system "project/cloak.yaml"
    = (Returned (Ok cfg), out)
    /\ config.Config_Actions cfg !! "core" = Some (Some config.emptyAction)
    /\ out = [config.Loading "actions: ..."].
Proof.
  eexists _, _. split; [vm_compute; reflexivity|].
  destruct (@ParseFile_includes_core MoreExamples.system
              "project/cloak.yaml" _ _ eq_refl)
    as (Hcore & _ & (loaded & Hm & Hout) & _).
  split; [exact Hcore|]. reflexivity.
Defined.

(** X23, on an example: the action "build" of the file of the example. *)
Lemma ParseFile_actions_witness :
  exists cfg out action,
    @config.ParseFile MoreExamples.system "project/cloak.yaml"
    = (Returned (Ok cfg), out)
    /\ config.Config_Actions cfg !! "build" = Some (Some action)
    /\ config.Action_Local action = "src/app"
    /\ config.Action_Context action = "project/src".
Proof.
  eexists _, _.
  destruct (@ParseFile_actions MoreExamples.system
              "project/cloak.yaml" _ _ eq_refl)
    as (data & parsed & Hread & Hun & Hactions).
  injection Hread as <-. injection Hun as <-.
  destruct (Hactions "build") as (action & Hlookup & _ & Hlocal & Hcontext);
    [discriminate|].
  exists action. split; [reflexivity|]. split; [exact Hlookup|].
  split; [exact Hlocal|exact Hcontext].
Defined.

(** X24, on an example: a file that is not there. *)
Lemma ParseFile_errors_witness :
  @config.ParseFile MoreExamples.system "cloak.yaml"
  = (Returned (Err "no such file or directory"), []).
Proof.
  apply (@ParseFile_errors MoreExamples.system "cloak.yaml"
           "no such file or directory" []).
  split; [reflexivity|]. left. reflexivity.
Defined.

(** X25, on an example: a file with nothing under "core". *)
Lemma ParseFile_nil_action_witness :
  @config.ParseFile MoreExamples.system_nil "project/cloak.yaml"
  = (Panicked nil_dereference, []).
Proof.
  apply (@ParseFile_nil_action MoreExamples.system_nil
           "project/cloak.yaml" nil_dereference []).
  split; [reflexivity|]. split; [reflexivity|].
  exists "actions: ...", MoreExamples.declared_nil, "core".
  split; [reflexivity|]. split; reflexivity.
Defined.

(** X26, on an example: the declared configuration of the example, before [ParseFile], and
    the one with nothing under "core". *)
Lemma LocalDirs_contexts_witness :
  @config.LocalDirs MoreExamples.system MoreExamples.declared_nil
  = Panicked nil_dereference
  /\ exists dirs,
       @config.LocalDirs MoreExamples.system MoreExamples.declared
       = Returned (Ok dirs)
       /\ dirs !! "" = Some "".
Proof.
  split.
  { destruct (@LocalDirs_contexts MoreExamples.system
                MoreExamples.declared_nil) as [Hnil _].
    by apply (Hnil "core"). }
  destruct (@LocalDirs_contexts MoreExamples.system MoreExamples.declared)
    as [_ Hreturns].
  destruct Hreturns as (dirs & Hrun & Hdirs).
  { intros name Hnil. vm_compute in Hnil.
    repeat case_match; discriminate. }
  exists dirs. split; [exact Hrun|]. apply Hdirs. split; [done|].
  exists "build", {| config.Action_Local := "app"; config.Action_Image := "";
                     config.Action_Context := "";
                     config.Action_schema := "";
                     config.Action_operations := "" |}.
  split; [reflexivity|]. split; [discriminate|reflexivity].
Defined.

(** X27, on an example: the local directories of the file of the example. *)
Lemma LocalDirs_of_ParseFile_witness :
  exists cfg out dirs,
    @config.ParseFile MoreExamples.system "project/cloak.yaml"
    = (Returned (Ok cfg), out)
    /\ @config.LocalDirs MoreExamples.system cfg = Returned (Ok dirs)
    /\ forall k v, dirs !! k = Some v -> v = k.
Proof.
  eexists _, _.
  destruct (@LocalDirs_of_ParseFile MoreExamples.system
              "project/cloak.yaml" _ _ eq_refl) as (dirs & Hrun & Hdirs).
  exists dirs. split; [reflexivity|]. split; [exact Hrun|].
  intros k v Hk. by destruct (Hdirs k v Hk) as [-> _].
Defined.

(** X28, on an example: the configuration with nothing under "core", and the declared
    configuration of the example, for which no filesystem of the empty
    context is given. *)
Lemma LoadExtensions_outcome_witness :
  fst (@config.LoadExtensions MoreExamples.dagger MoreExamples.declared_nil
         MoreExamples.fsids)
  = Panicked nil_dereference
  /\ exists name action err,
       config.Config_Actions MoreExamples.declared !! name = Some action
       /\ @config.import_of MoreExamples.dagger MoreExamples.fsids name action
          = Some (Err err)
       /\ "error importing build: no such filesystem"
          = config.error_importing name err.
Proof.
  split.
  - destruct (@LoadExtensions_outcome MoreExamples.dagger
                MoreExamples.declared_nil MoreExamples.fsids)
      as (Hpanics & _).
    apply Hpanics. exists "core". split; [reflexivity|].
    intros _. by eexists.
  - destruct (@LoadExtensions_outcome MoreExamples.dagger
                MoreExamples.declared MoreExamples.fsids)
      as (_ & _ & Herr & _).
    apply Herr. vm_compute. reflexivity.
Defined.

(** X29, on an example: the declared configuration of the example: the import of "build"
    fails, and the action "core" has the schema of the core. *)
Lemma LoadExtensions_actions_witness :
  config.Config_Actions
    (snd (@config.LoadExtensions MoreExamples.dagger MoreExamples.declared
            MoreExamples.fsids)) !! "core"
  = Some (Some {| config.Action_Local := "mycore";
                  config.Action_Image := "";
                  config.Action_Context := "";
                  config.Action_schema := "type Core";
                  config.Action_operations := "query core" |}).
Proof.
  destruct (@LoadExtensions_actions MoreExamples.dagger MoreExamples.declared
              MoreExamples.fsids
              (Err "error importing build: no such filesystem"))
    as (_ & _ & Hactions); [vm_compute; reflexivity|].
  exact (Hactions "core").
Defined.

(** X30, on an example: the file of the example, with the filesystem of its one local
    directory. *)
Lemma LoadExtensions_of_ParseFile_witness :
  exists cfg out r cfg',
    @config.ParseFile MoreExamples.system "project/cloak.yaml"
    = (Returned (Ok cfg), out)
    /\ @config.LoadExtensions MoreExamples.dagger cfg MoreExamples.fsids
       = (Returned r, cfg')
    /\ config.Config_Actions cfg' !! "build"
       = Some (Some {| config.Action_Local := "src/app";
                       config.Action_Image := "";
                       config.Action_Context := "project/src";
                       config.Action_schema := "type Build";
                       config.Action_operations := "query build" |}).
Proof.
  eexists _, _.
  destruct (@LoadExtensions_of_ParseFile MoreExamples.system
              MoreExamples.dagger "project/cloak.yaml" _ _
              {["project/src" := "project/src"]} MoreExamples.fsids
              eq_refl)
    as (r & cfg' & Hrun & _ & Hlocal).
  - vm_compute. reflexivity.
  - intros k [v Hk]. destruct (decide (k = "project/src")) as [->|Hne].
    + by eexists.
    + by rewrite lookup_singleton_ne in Hk.
  - exists r, cfg'. split; [reflexivity|]. split; [exact Hrun|].
    destruct (Hlocal "build"
                {| config.Action_Local := "src/app";
                   config.Action_Image := "";
                   config.Action_Context := "project/src";
                   config.Action_schema := "";
                   config.Action_operations := "" |})
      as (fsid & Hfsid & Haction); [discriminate|reflexivity|discriminate|].
    injection Hfsid as <-. exact Haction.
Defined.
